(** * pelicun: damage and loss model (model.py)

    A shallow embedding of the parts of [pelicun/model.py] that decide the
    behaviour of the damage and loss calculation, and the properties
    proved about them.  The functions of [pelicun/base.py],
    [pelicun/model/pelicun_model.py] and [pelicun/tools/DL_calculation.py]
    that this code calls, or that prepare its configuration, follow.

    Conventions of the embedding.
    - A float is a rational number ([Q]); arithmetic is exact.  Comparisons
      are the decidable ones of [Q].  NaN is modelled only where the code
      produces it on purpose (an undefined cell is [None]).
    - A pandas column label is the tuple of its level values, a
      [list string]; a DataFrame is the list of its column labels, in
      column order, with one list of cells per realization (row).  The
      row index is the position of the realization.
    - A Python exception is a constructor of [exn]; a function that can
      raise returns a [result]. *)

From Stdlib Require Import List Bool Arith ZArith QArith Qminmax Qround String Ascii Lia Lqa.
From Stdlib Require Import DecimalString DecimalZ DecimalPos Permutation Sorted.
Import ListNotations.
Open Scope string_scope.
Open Scope Q_scope.

(** ** Exceptions *)

Inductive exn : Type :=
| ValueError
| KeyError
| NameError
| TypeError
| IndexError.

Inductive result (A : Type) : Type :=
| Ok (a : A)
| Raise (e : exn).
Arguments Ok {A} a.
Arguments Raise {A} e.

Definition bind {A B : Type} (r : result A) (k : A -> result B) : result B :=
  match r with
  | Ok a => k a
  | Raise e => Raise e
  end.

Notation "'let*' x ':=' r 'in' k" := (bind r (fun x => k))
  (at level 10, x pattern, r at level 100, k at level 200).

(** ** Dictionaries: [d[k]] raises KeyError for a missing key *)

Fixpoint dict_get {V : Type} (d : list (string * V)) (k : string) : result V :=
  match d with
  | [] => Raise KeyError
  | (k', v) :: d' => if String.eqb k' k then Ok v else dict_get d' k
  end.

(** ** Comparisons of floats *)

Definition Qltb (x y : Q) : bool := negb (Qle_bool y x).

(** ** Median consequence functions

    [prep_constant_median_DV] and [prep_bounded_multilinear_median_DV]
    (model.py, lines 2726-2784). *)

Module MedianDV.

(** [def f(quantity): return median] *)
Definition prep_constant_median_DV (median : Q) : option Q -> Q :=
  fun quantity => median.

(** numpy.interp(x, xp, fp) for one x.  numpy first compares x with the
    last and with the first sample point, then searches the index j with
    xp[j] <= x < xp[j+1] and evaluates
    (fp[j+1] - fp[j]) / (xp[j+1] - xp[j]) * (x - xp[j]) + fp[j],
    returning fp[j] itself when x = xp[j] or j is the last index.
    [interp_search] is that search, left to right, from the sample point
    (x0, y0) on.  The arithmetic is the exact one of [Q]: what is proved
    of the result says which formula is evaluated and which control
    value is returned outside the range; bounds and monotonicity of the
    interpolated value are not claimed, since the rounding of binary64
    does not keep them. *)
Fixpoint interp_search (x : Q) (xp fp : list Q) (x0 y0 : Q) : Q :=
  match xp, fp with
  | x1 :: xp', y1 :: fp' =>
      if Qltb x x1 then
        if Qeq_bool x0 x then y0
        else (y1 - y0) / (x1 - x0) * (x - x0) + y0
      else interp_search x xp' fp' x1 y1
  | _, _ => y0
  end.

Definition np_interp (x : Q) (xp fp : list Q) : result Q :=
  match xp, fp with
  | [], _ => Raise ValueError
  | x0 :: xp', y0 :: fp' =>
      if negb (Nat.eqb (List.length xp') (List.length fp')) then Raise ValueError
      else if Qltb (last xp x0) x then Ok (last fp y0)
      else if Qltb x x0 then Ok y0
      else Ok (interp_search x xp' fp' x0 y0)
  | _ :: _, [] => Raise ValueError
  end.

(** [def f(quantity)] of [prep_bounded_multilinear_median_DV]: a missing
    quantity raises ValueError, otherwise
    [np.interp(q_array, quantities, medians)]. *)
Definition prep_bounded_multilinear_median_DV
    (medians quantities : list Q) : option Q -> result Q :=
  fun quantity =>
    match quantity with
    | None => Raise ValueError
    | Some q => np_interp q quantities medians
    end.

(** The function applied to an array of quantities works cell by cell. *)
Fixpoint map_result {A B : Type} (f : A -> result B) (l : list A) : result (list B) :=
  match l with
  | [] => Ok []
  | a :: l' => let* b := f a in let* bs := map_result f l' in Ok (b :: bs)
  end.

(** The piecewise-linear interpolation of the control points
    (xs[i], ys[i]), as the specification words it: [v] is the value at
    [q] of the straight line through two neighbouring control points
    that enclose [q], or the value of a control point at [q]. *)
Inductive on_polyline : list Q -> list Q -> Q -> Q -> Prop :=
| on_vertex x0 y0 xs ys q v :
    q == x0 -> v == y0 -> on_polyline (x0 :: xs) (y0 :: ys) q v
| on_segment x0 y0 x1 y1 xs ys q v :
    x0 <= q -> q <= x1 -> x0 < x1 ->
    v == y0 + (y1 - y0) * ((q - x0) / (x1 - x0)) ->
    on_polyline (x0 :: x1 :: xs) (y0 :: y1 :: ys) q v
| on_later x0 y0 xs ys q v :
    on_polyline xs ys q v -> on_polyline (x0 :: xs) (y0 :: ys) q v.

(** Control points in strictly increasing order, as numpy.interp asks. *)
Fixpoint increasing_from (x0 : Q) (xs : list Q) : Prop :=
  match xs with
  | [] => True
  | x1 :: xs' => x0 < x1 /\ increasing_from x1 xs'
  end.

Definition increasing (xs : list Q) : Prop :=
  match xs with
  | [] => True
  | x0 :: xs' => increasing_from x0 xs'
  end.

End MedianDV.

(** ** Residual drift: [DemandModel.estimate_RID] (model.py, lines 232-283) *)

Module RID.

Section Estimate.

(** [exp_log_plus r e] stands for [np.exp(np.log(r) + e)], the float the
    code stores for a positive residual drift [r] and a normal draw [e];
    [eps i j] is the draw of row [i], column [j]. *)
Variable exp_log_plus : Q -> Q -> Q.
Variable eps : nat -> nat -> Q.

(** One cell of the computation, in the order of the assignments. *)
Definition estimate_RID_cell (yield_drift pid e : Q) : Q :=
  let small := Qltb pid yield_drift in
  let medium := Qltb pid (4 * yield_drift) in
  let large := Qle_bool (4 * yield_drift) pid in
  let rid := pid in
  let rid := if large then pid - 3 * yield_drift else rid in
  let rid := if medium then (3 # 10) * (pid - yield_drift) else rid in
  let rid := if small then 0 else rid in
  let rid := if Qltb 0 rid then exp_log_plus rid e else rid in
  Qmin pid rid.

Fixpoint estimate_RID_row (yield_drift : Q) (i j : nat) (row : list Q) : list Q :=
  match row with
  | [] => []
  | pid :: row' =>
      estimate_RID_cell yield_drift pid (eps i j)
        :: estimate_RID_row yield_drift i (S j) row'
  end.

Fixpoint estimate_RID_rows (yield_drift : Q) (i : nat) (PID : list (list Q))
  : list (list Q) :=
  match PID with
  | [] => []
  | row :: PID' =>
      estimate_RID_row yield_drift i 0 row :: estimate_RID_rows yield_drift (S i) PID'
  end.

(** The values of the returned table, row by row; [None] is the Python
    [None] returned for an unknown method. *)
Definition estimate_RID (demands : list (list Q)) (params : list (string * Q))
    (method : string) : result (option (list (list Q))) :=
  if String.eqb method "FEMA P58" then
    let PID := demands in
    let* yield_drift := dict_get params "yield_drift" in
    Ok (Some (estimate_RID_rows yield_drift 0 PID))
  else Ok None.

End Estimate.

(** What one cell of the result satisfies with respect to the peak drift
    it was computed from. *)
Definition RID_cell_ok (yield_drift rid pid : Q) : Prop :=
  rid <= pid
  /\ (0 <= pid -> pid < yield_drift -> rid == 0)
  /\ (pid < 0 -> rid == pid).

End RID.

(** ** Tables

    The part of pandas the code relies on.  A column label of a
    MultiIndex is the list of its level values; a table keeps its column
    labels in column order and one list of cells per realization. *)

Module Frame.

Definition label : Type := list string.

Record DataFrame (A : Type) : Type := mkDF {
  columns : list label;
  values : list (list A)
}.
Arguments mkDF {A} columns values.
Arguments columns {A} d.
Arguments values {A} d.

Fixpoint label_eqb (a b : label) : bool :=
  match a, b with
  | [], [] => true
  | x :: a', y :: b' => String.eqb x y && label_eqb a' b'
  | _, _ => false
  end.

(** Order of labels: level by level, each level in the order of Python
    strings. *)
Fixpoint label_leb (a b : label) : bool :=
  match a, b with
  | [], _ => true
  | _ :: _, [] => false
  | x :: a', y :: b' =>
      match String.compare x y with
      | Lt => true
      | Gt => false
      | Eq => label_leb a' b'
      end
  end.

Fixpoint mem (k : label) (l : list label) : bool :=
  match l with
  | [] => false
  | k' :: l' => label_eqb k k' || mem k l'
  end.

(** [Index.unique()]: the distinct labels in the order in which they
    first appear. *)
Fixpoint unique_from (seen : list label) (l : list label) : list label :=
  match l with
  | [] => []
  | k :: l' =>
      if mem k seen then unique_from seen l'
      else k :: unique_from (k :: seen) l'
  end.

Definition unique (l : list label) : list label := unique_from [] l.

Fixpoint insert_sorted (k : label) (l : list label) : list label :=
  match l with
  | [] => [k]
  | k' :: l' => if label_leb k k' then k :: l else k' :: insert_sorted k l'
  end.

Fixpoint sort (l : list label) : list label :=
  match l with
  | [] => []
  | k :: l' => insert_sorted k (sort l')
  end.

(** The values of the given levels of a label. *)
Definition project (levels : list nat) (l : label) : label :=
  map (fun i => nth i l "") levels.

Definition level (i : nat) (l : label) : string := nth i l "".

Definition Qsum (l : list Q) : Q := fold_right Qplus 0 l.

(** The cells of a row whose column label satisfies [p]. *)
Fixpoint cells_where {A : Type} (p : label -> bool) (cols : list label) (row : list A)
  : list A :=
  match cols, row with
  | c :: cols', v :: row' =>
      if p c then v :: cells_where p cols' row' else cells_where p cols' row'
  | _, _ => []
  end.

(** [df.groupby(level=levels, axis=1).sum()]: one column per distinct
    value of the levels, in sorted order, holding for every realization
    the sum of the cells of the columns of that group. *)
Definition group_keys (levels : list nat) (cols : list label) : list label :=
  sort (unique (map (project levels) cols)).

Definition groupby_sum (levels : list nat) (df : DataFrame Q) : DataFrame Q :=
  let keys := group_keys levels (columns df) in
  mkDF keys
    (map (fun row =>
            map (fun k =>
                   Qsum (cells_where (fun c => label_eqb (project levels c) k)
                           (columns df) row))
                keys)
         (values df)).

(** [df[key]] on a MultiIndex: the columns whose first level is [key],
    labelled by their remaining levels; KeyError when there is none. *)
Definition getitem {A : Type} (key : string) (df : DataFrame A) : result (DataFrame A) :=
  let p := fun c : label => match c with k :: _ => String.eqb k key | [] => false end in
  match filter p (columns df) with
  | [] => Raise KeyError
  | sel => Ok (mkDF (map (@tl string) sel)
                 (map (fun row => cells_where p (columns df) row) (values df)))
  end.

(** Whether [key] is the beginning of the label [c]. *)
Fixpoint is_prefix (key c : label) : bool :=
  match key, c with
  | [], _ => true
  | k :: key', x :: c' => String.eqb k x && is_prefix key' c'
  | _ :: _, [] => false
  end.

(** [df.loc[:, key]] for a key of fewer levels than the index: the
    columns that begin with [key], labelled by their remaining levels;
    KeyError when there is none. *)
Definition loc_partial {A : Type} (key : label) (df : DataFrame A) : result (DataFrame A) :=
  match filter (is_prefix key) (columns df) with
  | [] => Raise KeyError
  | sel => Ok (mkDF (map (skipn (List.length key)) sel)
                 (map (fun row => cells_where (is_prefix key) (columns df) row)
                    (values df)))
  end.

(** The cell of the column labelled [k] in one realization (the first
    such column; the labels of the tables of the model are distinct). *)
Fixpoint lookup {A : Type} (cols : list label) (row : list A) (k : label) : option A :=
  match cols, row with
  | c :: cols', v :: row' => if label_eqb c k then Some v else lookup cols' row' k
  | _, _ => None
  end.

(** [df[key]] for a complete key: the column as an array, one value per
    realization; KeyError when no column has that label. *)
Definition getitem_full {A : Type} (key : label) (df : DataFrame A) : result (list A) :=
  if mem key (columns df) then
    Ok (List.concat (map (fun row => match lookup (columns df) row key with
                                | Some v => [v]
                                | None => []
                                end) (values df)))
  else Raise KeyError.

(** The first column whose label satisfies [p], with its cell. *)
Fixpoint find_cell {A : Type} (p : label -> bool) (cols : list label) (row : list A)
  : option (label * A) :=
  match cols, row with
  | c :: cols', v :: row' => if p c then Some (c, v) else find_cell p cols' row'
  | _, _ => None
  end.

(** [df.sum(axis=1)] and [df.max(axis=1)], one value per realization. *)
Definition sum_axis1 (df : DataFrame Q) : list Q := map Qsum (values df).

Definition Qmax_list (l : list Q) : Q :=
  match l with
  | [] => 0
  | x :: l' => fold_left Qmax l' x
  end.

Definition max_axis1 (df : DataFrame Q) : list Q := map Qmax_list (values df).

(** Every realization has one cell per column. *)
Definition well_formed {A : Type} (df : DataFrame A) : Prop :=
  Forall (fun row => List.length row = List.length (columns df)) (values df).

End Frame.

(** ** Damage model: demands ([DamageModel.get_required_demand_type],
    [DamageModel._assemble_required_demand_data]; model.py, lines
    1529-1609) *)

Module Demand.

Import Frame.

(** [EDP_to_demand_type] (base.py). *)
Definition EDP_to_demand_type : list (string * string) :=
  [ ("Story Drift Ratio", "PID");
    ("Peak Interstory Drift Ratio", "PID");
    ("Roof Drift Ratio", "PRD");
    ("Peak Roof Drift Ratio", "PRD");
    ("Damageable Wall Drift", "DWD");
    ("Racking Drift Ratio", "RDR");
    ("Mega Drift Ratio", "PMD");
    ("Residual Drift Ratio", "RID");
    ("Residual Interstory Drift Ratio", "RID");
    ("Peak Effective Drift Ratio", "EDR");
    ("Peak Floor Acceleration", "PFA");
    ("Peak Floor Velocity", "PFV");
    ("Peak Floor Displacement", "PFD");
    ("Peak Link Rotation Angle", "LR");
    ("Peak Link Beam Chord Rotation", "LBR");
    ("Peak Gust Wind Speed", "PWS");
    ("Peak Inundation Height", "PIH");
    ("Peak Ground Acceleration", "PGA");
    ("Peak Ground Velocity", "PGV");
    ("Spectral Acceleration", "SA");
    ("Spectral Velocity", "SV");
    ("Spectral Displacement", "SD");
    ("Peak Spectral Acceleration", "SA");
    ("Peak Spectral Velocity", "SV");
    ("Peak Spectral Displacement", "SD");
    ("Permanent Ground Deformation", "PGD");
    ("One", "ONE") ].

(** The options the demand lookup reads. *)
Record Options : Type := mkOptions {
  demand_offset : list (string * Q);
  nondir_multi_dict : list (string * Q)
}.

(** Modelled from the spec: [Options.nondir_multi], which model.py calls
    and base.py in this version does not define.  The multiplier of an
    EDP type is the value configured for that type, otherwise the value
    configured for "ALL"; without either the lookup raises. *)
Definition nondir_multi (options : Options) (EDP_type : string) : result Q :=
  match dict_get (nondir_multi_dict options) EDP_type with
  | Ok m => Ok m
  | Raise _ =>
      match dict_get (nondir_multi_dict options) "ALL" with
      | Ok m => Ok m
      | Raise _ => Raise ValueError
      end
  end.

(** Modelled from the spec: the default configuration
    (settings/default_config.json is not part of the sources): no global
    demand offset is needed for the non-directional multiplier, whose
    default is 1.2 for all EDP types. *)
Definition default_nondir_multi_dict : list (string * Q) := [("ALL", 12 # 10)].

(** The demand rows of the damage parameter table for one component. *)
Record demand_params : Type := mkDemandParams {
  Directional : bool;
  Offset : Q;
  Type_ : string
}.

(** [int(x)] for a float: rounding towards zero. *)
Definition int_of_float (x : Q) : Z :=
  if Qle_bool 0 x then Qfloor x else Qceiling x.

(** [int(s)] for a string of decimal digits with an optional minus sign
    (the forms of [int] with blanks, a plus sign or underscores raise
    here), and [str(n)]. *)
Definition int_of_str (s : string) : result Z :=
  match NilZero.int_of_string s with
  | Some d => Ok (Z.of_int d)
  | None => Raise ValueError
  end.

Definition str_of_int (z : Z) : string := NilZero.string_of_int (Z.to_int z).

Fixpoint contains_char (c : ascii) (s : string) : bool :=
  match s with
  | EmptyString => false
  | String c' s' => Ascii.eqb c' c || contains_char c s'
  end.

(** [s.split(sep)] for a separator of one character. *)
Fixpoint split (sep : ascii) (s : string) : list string :=
  match s with
  | EmptyString => [EmptyString]
  | String c s' =>
      if Ascii.eqb c sep then EmptyString :: split sep s'
      else match split sep s' with
           | [] => [String c EmptyString]
           | w :: ws => String c w :: ws
           end
  end.

(** [s.startswith(prefix)] *)
Fixpoint starts_with (prefix s : string) : bool :=
  match prefix with
  | EmptyString => true
  | String a prefix' =>
      match s with
      | EmptyString => false
      | String b s' => Ascii.eqb a b && starts_with prefix' s'
      end
  end.

(** [s[2:]] *)
Definition drop2 (s : string) : string :=
  match s with
  | String _ (String _ rest) => rest
  | _ => ""
  end.

(** Parsing the demand type (lines 1550-1559): the pair
    (demand_type, EDP_type). *)
Definition parse_demand_type (demand_type : string) : result (string * string) :=
  if contains_char "|"%char demand_type then
    match split "|"%char demand_type with
    | [demand_type; subtype] =>
        let* demand_type := dict_get EDP_to_demand_type demand_type in
        Ok (demand_type, demand_type ++ "_" ++ subtype)
    | _ => Raise ValueError
    end
  else
    let* demand_type := dict_get EDP_to_demand_type demand_type in
    Ok (demand_type, demand_type).

(** A performance group [PG] is the label (component, location,
    direction); [DP] gives the demand parameters of the components of
    the damage model. *)
Definition get_required_demand_type (options : Options)
    (DP : list (string * demand_params)) (PG : label) : result label :=
  let cmp := level 0 PG in
  let* params := dict_get DP cmp in
  let directional := Directional params in
  let offset := Offset params in
  let demand_type := Type_ params in
  let* types := parse_demand_type demand_type in
  let demand_type := fst types in
  let EDP_type := snd types in
  let offset :=
    match dict_get (demand_offset options) demand_type with
    | Ok global => int_of_float (offset + global)
    | Raise _ => int_of_float offset
    end in
  let dir := if directional then level 2 PG else "0" in
  let* loc := int_of_str (level 1 PG) in
  Ok [EDP_type; str_of_int (loc + offset); dir].

(** What is written to the log. *)
Inductive log_entry : Type :=
| Warning_no_demand (EDP_req : label).

(** The demand sample has the column levels (type, location, direction).
    The result is the demand array, or [None], and the log entries
    written. *)
Definition _assemble_required_demand_data (options : Options)
    (demand_source : DataFrame Q) (EDP_req : label)
  : result (option (list Q) * list log_entry) :=
  let* demand :=
    if String.eqb (level 2 EDP_req) "0" then
      (* try: ... except: demand = None *)
      match
        (let* sel := loc_partial [level 0 EDP_req; level 1 EDP_req] demand_source in
         let demand := max_axis1 sel in
         let* multi := nondir_multi options (level 0 EDP_req) in
         Ok (map (fun d => d * multi) demand))
      with
      | Ok demand => Ok (Some demand)
      | Raise _ => Ok None
      end
    else
      let* demand :=
        getitem_full [level 0 EDP_req; level 1 EDP_req; level 2 EDP_req]
          demand_source in
      Ok (Some demand) in
  match demand with
  | None => Ok (None, [Warning_no_demand EDP_req])
  | Some d => Ok (Some d, [])
  end.

(** The global offset configured for a demand type; none counts as 0. *)
Definition global_offset (options : Options) (demand_type : string) : Q :=
  match dict_get (demand_offset options) demand_type with
  | Ok global => global
  | Raise _ => 0
  end.

(** [M] is the greatest of the values [l]. *)
Definition is_max (M : Q) (l : list Q) : Prop :=
  In M l /\ Forall (fun v => v <= M) l.

(** A damage model with one directional component, sensitive to the
    floor acceleration of its own floor, and a demand sample that has
    the floor acceleration of another floor only. *)
Definition DP_example : list (string * demand_params) :=
  [("C", mkDemandParams true 0 "Peak Floor Acceleration")].

Definition demand_example : DataFrame Q :=
  mkDF [["PFA"; "2"; "1"]; ["PFA"; "2"; "2"]] [[1 # 2; 3 # 4]; [1 # 4; 1 # 8]].

Definition default_options : Options := mkOptions [] default_nondir_multi_dict.

(** The same component, not directional, one floor below its demand,
    with a global offset of one floor for floor accelerations. *)
Definition DP_nondir_example : list (string * demand_params) :=
  [("C", mkDemandParams false 0 "Peak Floor Acceleration")].

Definition options_example : Options :=
  mkOptions [("PFA", 1)] default_nondir_multi_dict.

End Demand.

(** ** Damage model: damage states ([DamageModel._generate_dmg_sample],
    [DamageModel._evaluate_damage_state], [DamageModel.calculate];
    model.py, lines 1496-1527, 1611-1677 and 1973-2035) *)

Module Damage.

Import Frame Demand.

(** [df.sort_index(axis=1)] on a table given by its named columns: the
    columns in the order of their names as Python strings. *)
Fixpoint insert_column {A : Type} (c : string * list A) (l : list (string * list A))
  : list (string * list A) :=
  match l with
  | [] => [c]
  | c' :: l' =>
      if String.leb (fst c) (fst c') then c :: l else c' :: insert_column c l'
  end.

Fixpoint sort_columns {A : Type} (l : list (string * list A)) : list (string * list A) :=
  match l with
  | [] => []
  | c :: l' => insert_column c (sort_columns l')
  end.

(** The rows of a table given by its columns of [n] cells. *)
Fixpoint rows_of_columns {A : Type} (n : nat) (cols : list (list A)) : list (list A) :=
  match n with
  | O => []
  | S n' =>
      List.concat (map (fun c => match c with [] => [] | v :: _ => [v] end) cols)
        :: rows_of_columns n' (map (@tl A) cols)
  end.

(** [pd.DataFrame(d)] for a dictionary of arrays: all of one length. *)
Definition frame_of_dict {A : Type} (d : list (string * list A))
  : result (list string * list (list A)) :=
  match d with
  | [] => Ok ([], [])
  | (_, c0) :: _ =>
      if forallb (fun c => Nat.eqb (List.length (snd c)) (List.length c0)) d
      then Ok (map fst d, rows_of_columns (List.length c0) (map snd d))
      else Raise ValueError
  end.

(** [convert_to_MultiIndex(data, axis=1)] (base.py): the names are split
    at the dashes and padded with empty levels to the longest one. *)
Definition convert_to_MultiIndex (names : list string) : result (list label) :=
  match names with
  | [] => Raise ValueError
  | _ =>
      let index_labels := map (split "-"%char) names in
      let max_lbl_len := list_max (map (@List.length string) index_labels) in
      Ok (map (fun labels =>
                 (labels ++ repeat "" (max_lbl_len - List.length labels))%list)
            index_labels)
  end.

(** The part of [_generate_dmg_sample] after the sampling:
    [capacity_RV_sample] and [lsds_RV_sample] are the samples the two
    registries hold, by variable name ('FRG-cmp-loc-dir-block-ls' and
    'LSDS-cmp-loc-dir-block-ls').  The columns are sorted by name, the
    names are split into levels and the first level is dropped; the
    realizations keep their order. *)
Definition _generate_dmg_sample (capacity_RV_sample lsds_RV_sample : list (string * list Q))
  : result (DataFrame Q * DataFrame Z) :=
  let* cap := frame_of_dict (sort_columns capacity_RV_sample) in
  let* cap_labels := convert_to_MultiIndex (fst cap) in
  let* capacity_sample := getitem "FRG" (mkDF cap_labels (snd cap)) in
  let* lsds := frame_of_dict (sort_columns lsds_RV_sample) in
  let lsds_int := map (map int_of_float) (snd lsds) in
  let* lsds_labels := convert_to_MultiIndex (fst lsds) in
  let* lsds_sample := getitem "LSDS" (mkDF lsds_labels lsds_int) in
  Ok (capacity_sample, lsds_sample).

(** The block of a capacity column: its levels (cmp, loc, dir, block). *)
Definition block_of (c : label) : label := project [0; 1; 2; 3]%nat c.

(** One realization of the update of [ds_sample] for the limit state
    [LS_id]: the cell of a block is replaced by the pick of the block's
    column of this limit state where that limit state is exceeded
    ([DataFrame.mask]); the other cells stay. *)
Definition update_ds_row (cap_cols lsds_cols ds_cols : list label) (LS_id : string)
    (dmg_eval_row : list bool) (lsds_row : list Z) (ds_row : list Z) : list Z :=
  map (fun kd : label * Z =>
         match find_cell (fun c => label_eqb (block_of c) (fst kd)
                                   && String.eqb (level 4 c) LS_id)
                 cap_cols dmg_eval_row with
         | Some (c, true) =>
             match lookup lsds_cols lsds_row c with
             | Some pick => pick
             | None => snd kd
             end
         | _ => snd kd
         end)
      (combine ds_cols ds_row).

(** The loop over the limit states.  The tables share the row index; a
    row of the state is the triple of the rows of [dmg_eval],
    [lsds_sample] and [ds_sample]. *)
Fixpoint evaluate_limit_states (cap_cols lsds_cols ds_cols : list label)
    (dmg_eval : list (list bool)) (lsds : list (list Z))
    (ls_list : list string) (ds_sample : list (list Z)) : result (list (list Z)) :=
  match ls_list with
  | [] => Ok ds_sample
  | LS_id :: ls_list' =>
      let dmg_e_ls := filter (fun c => String.eqb (level 4 c) LS_id) cap_cols in
      (* lsds_sample.loc[:, dmg_e_ls.columns] *)
      if forallb (fun c => mem c lsds_cols) dmg_e_ls then
        evaluate_limit_states cap_cols lsds_cols ds_cols dmg_eval lsds ls_list'
          (map (fun r : list bool * list Z * list Z =>
                  update_ds_row cap_cols lsds_cols ds_cols LS_id
                    (fst (fst r)) (snd (fst r)) (snd r))
             (combine (combine dmg_eval lsds) ds_sample))
      else Raise KeyError
  end.

(** The capacity and LS->DS samples have the column levels
    (cmp, loc, dir, block, ls).  A demand that is [None] cannot be
    subtracted from the capacities: pandas raises TypeError; a demand
    array of another length than the sample raises ValueError. *)
Definition _evaluate_damage_state (demand : option (list Q))
    (capacity_sample : DataFrame Q) (lsds_sample : DataFrame Z)
  : result (DataFrame Z) :=
  match demand with
  | None => Raise TypeError
  | Some demand =>
      if negb (Nat.eqb (List.length demand) (List.length (values capacity_sample)))
      then Raise ValueError
      else
        let dmg_eval :=
          map (fun dr : Q * list Q => map (fun c => Qltb (c - fst dr) 0) (snd dr))
            (combine demand (values capacity_sample)) in
        let ds_cols := group_keys [0; 1; 2; 3]%nat (columns capacity_sample) in
        let ds_sample := map (fun _ => map (fun _ => 0%Z) ds_cols) (values capacity_sample) in
        let ls_list := map (fun l => level 0 l)
                         (unique (map (fun c => [level 4 c])
                                    (columns capacity_sample))) in
        let* ds := evaluate_limit_states (columns capacity_sample) (columns lsds_sample)
                     ds_cols dmg_eval (values lsds_sample) ls_list ds_sample in
        Ok (mkDF ds_cols ds)
  end.

(** The pick of the limit state [LS_id] for the block [k] in one
    realization, when the block has a column of that limit state whose
    capacity is below the demand [d]. *)
Definition exceeded_pick (cap_cols lsds_cols : list label) (d : Q)
    (cap_row : list Q) (lsds_row : list Z) (k : label) (LS_id : string) : option Z :=
  match find_cell (fun c => label_eqb (block_of c) k && String.eqb (level 4 c) LS_id)
          cap_cols cap_row with
  | Some (c, capacity) =>
      if Qltb (capacity - d) 0 then lookup lsds_cols lsds_row c else None
  | None => None
  end.

(** The limit states in the order in which the loop takes them. *)
Definition ls_list_of (cap_cols : list label) : list string :=
  map (fun l => level 0 l) (unique (map (fun c => [level 4 c]) cap_cols)).

(** The damage state of a block, given the picks of its exceeded limit
    states in the order of evaluation: the last pick, or 0. *)
Definition last_pick (picks : list (option Z)) : Z :=
  fold_left (fun acc p => match p with Some z => z | None => acc end) picks 0%Z.

(** A component with ten limit states, each with one damage state, in
    one block: the capacity of limit state k is k and its damage state
    is k.  These are the samples of the two registries, in the order in
    which the variables were created. *)
Definition ten_limit_states : list nat := seq 1 10.

Definition name_of (prefix : string) (k : nat) : string :=
  prefix ++ "-C-1-1-1-" ++ str_of_int (Z.of_nat k).

Definition capacity_RV_sample_10 : list (string * list Q) :=
  map (fun k => (name_of "FRG" k, [inject_Z (Z.of_nat k)])) ten_limit_states.

Definition lsds_RV_sample_10 : list (string * list Q) :=
  map (fun k => (name_of "LSDS" k, [inject_Z (Z.of_nat k)])) ten_limit_states.

(** Computations that write to the log and may raise. *)
Definition logged (A : Type) : Type := list log_entry -> result A * list log_entry.

Definition ret {A : Type} (a : A) : logged A := fun log => (Ok a, log).

Definition lift {A : Type} (r : result A) : logged A := fun log => (r, log).

Definition bind_logged {A B : Type} (m : logged A) (k : A -> logged B) : logged B :=
  fun log =>
    match m log with
    | (Ok a, log') => k a log'
    | (Raise e, log') => (Raise e, log')
    end.

Definition write_log (entries : list log_entry) : logged unit :=
  fun log => (Ok tt, (log ++ entries)%list).

Notation "'do' x '<-' m ';' k" := (bind_logged m (fun x => k))
  (at level 10, x pattern, m at level 100, k at level 200).

Section Calculate.

(** The parts of the calculation that the loop over the performance
    groups calls and that are taken as given: the sampled capacities and
    LS->DS picks of a performance group, the table of damaged quantities
    of a performance group, and the end of the calculation (the
    concatenation of the tables, the damage process and the damage
    functions). *)
Variable QuantitySample : Type.
Variable options : Options.
Variable DP : list (string * demand_params).
Variable demand_source : DataFrame Q.
Variable sample_of_PG : label -> result (DataFrame Q * DataFrame Z).
Variable prepare_dmg_quantities : label -> DataFrame Z -> result QuantitySample.
Variable finish : list QuantitySample -> result QuantitySample.

Fixpoint calculate_PGs (PGs : list label) : logged (list QuantitySample) :=
  match PGs with
  | [] => ret []
  | PG_i :: PGs' =>
      do samples <- lift (sample_of_PG PG_i);
      do EDP_req <- lift (get_required_demand_type options DP PG_i);
      do assembled <- lift (_assemble_required_demand_data options demand_source EDP_req);
      do _ <- write_log (snd assembled);
      let demand := fst assembled in
      do ds_sample <- lift (_evaluate_damage_state demand (fst samples) (snd samples));
      do qnt_sample <- lift (prepare_dmg_quantities PG_i ds_sample);
      do qnt_samples <- calculate_PGs PGs';
      ret (qnt_sample :: qnt_samples)
  end.

(** [PGs] are the columns of the component sample of the asset model. *)
Definition calculate (PGs : list label) : logged QuantitySample :=
  do qnt_samples <- calculate_PGs PGs;
  lift (finish qnt_samples).

End Calculate.

End Damage.

(** ** Damage model: capacity variables ([DamageModel._create_dmg_RVs];
    model.py, lines 1266-1494) *)

Module Capacity.

Import Frame Demand.

(** The raw sample of an empirical variable is a constant array: a
    value of the table (possibly undefined), or the lowest or highest
    finite float. *)
Inductive sample_value : Type :=
| Value (v : option Q)
| LowestFloat
| HighestFloat.

Inductive distribution : Type :=
| empirical (raw_samples : sample_value)
| multinomial (theta : list Q) (f_map_offset : Z)
| parametric (family : string) (theta_0 theta_1 : option Q).

Record RandomVariable : Type := mkRV {
  name : string;
  dist : distribution
}.

Record RandomVariableSet : Type := mkRVSet {
  set_name : string;
  set_RVs : list RandomVariable;
  Rho : list (list Q)
}.

Record RandomVariableRegistry : Type := mkRegistry {
  RV : list RandomVariable;
  RV_set : list RandomVariableSet
}.

Definition empty_registry : RandomVariableRegistry := mkRegistry [] [].

Definition registered (reg : RandomVariableRegistry) (n : string) : bool :=
  existsb (fun rv => String.eqb (name rv) n) (RV reg).

(** Modelled from the spec: [RandomVariableRegistry.add_RV] (uq.py is not
    part of the sources) registers a uniquely named variable and raises
    on a duplicate name. *)
Definition add_RV (reg : RandomVariableRegistry) (rv : RandomVariable)
  : result RandomVariableRegistry :=
  if registered reg (name rv) then Raise ValueError
  else Ok (mkRegistry (RV reg ++ [rv]) (RV_set reg)).

(** Modelled from the spec: [RandomVariableRegistry.RVs(keys)], the
    registered variables of the given names. *)
Fixpoint RVs (reg : RandomVariableRegistry) (keys : list string)
  : result (list RandomVariable) :=
  match keys with
  | [] => Ok []
  | k :: keys' =>
      match find (fun rv => String.eqb (name rv) k) (RV reg) with
      | Some rv => let* rvs := RVs reg keys' in Ok (rv :: rvs)
      | None => Raise KeyError
      end
  end.

(** Modelled from the spec: [RandomVariableRegistry.add_RV_set] registers
    a correlation group. *)
Definition add_RV_set (reg : RandomVariableRegistry) (s : RandomVariableSet)
  : result RandomVariableRegistry :=
  Ok (mkRegistry (RV reg) (RV_set reg ++ [s])).

(** [np.ones((n, m))] *)
Definition ones (n m : nat) : list (list Q) := repeat (repeat 1 m) n.

(** The columns of one limit state in the damage parameters of a
    component; an undefined cell is [None], the damage state weights
    are the numbers between the bars of the string. *)
Record ls_params : Type := mkLS {
  Theta_0 : option Q;
  Family : option string;
  Theta_1 : option Q;
  DamageStateWeights : option (list Q)
}.

(** f'{prefix}-{PG[0]}-{PG[1]}-{PG[2]}-{block}-{ls_id}' *)
Definition rv_tag (prefix : string) (PG : label) (block : nat) (ls_id : string) : string :=
  prefix ++ "-" ++ level 0 PG ++ "-" ++ level 1 PG ++ "-" ++ level 2 PG ++ "-"
    ++ str_of_int (Z.of_nat block) ++ "-" ++ ls_id.

(** [assign_lsds]: the variable of the LS->DS assignment of a limit
    state; returns the id of the last damage state assigned so far. *)
Definition assign_lsds (ds_weights : option (list Q)) (ds_id : Z)
    (lsds_RV_reg : RandomVariableRegistry) (lsds_rv_tag : string)
  : result (Z * RandomVariableRegistry) :=
  match ds_weights with
  | None =>
      let ds_id := (ds_id + 1)%Z in
      let* reg := add_RV lsds_RV_reg
                    (mkRV lsds_rv_tag (empirical (Value (Some (inject_Z ds_id))))) in
      Ok (ds_id, reg)
  | Some ds_weights =>
      let* reg := add_RV lsds_RV_reg
                    (mkRV lsds_rv_tag (multinomial ds_weights (ds_id + 1)%Z)) in
      Ok ((ds_id + Z.of_nat (List.length ds_weights))%Z, reg)
  end.

(** [family == name], for a family that is a string or [None]. *)
Definition is_family (name : string) (family : option string) : bool :=
  match family with
  | Some f => String.eqb f name
  | None => false
  end.

(** The variables of the loops. *)
Record loop_state : Type := mkState {
  capacity_RV_reg : RandomVariableRegistry;
  lsds_RV_reg : RandomVariableRegistry;
  rv_count : nat;
  ds_id : Z;
  frg_rv_set_tags : list string
}.

Section CreateRVs.

(** [is_defined theta_0] is the truth value of [~pd.isnull(theta_0)].
    [damage_function_quantities block_i ls_id] stands for the
    bookkeeping of the damaged quantities of a damage function (lines
    1428-1435), which changes local tables only and may raise. *)
Variable is_defined : option Q -> bool.
Variable damage_function_quantities : nat -> string -> result unit.

Variable PG : label.

(** The loop [for ls_i in range(ls_count)] of a damage function. *)
Fixpoint function_blocks (ls_id : string) (ls_number : Z) (block_i ls_count : nat)
    (ds_weights : option (list Q)) (ds_id : Z)
    (ls_is : list nat) (regs : RandomVariableRegistry * RandomVariableRegistry)
    (rv_count : nat) (ds_id_post : Z)
  : result (RandomVariableRegistry * RandomVariableRegistry * nat * Z) :=
  match ls_is with
  | [] => Ok (regs, rv_count, ds_id_post)
  | ls_i :: ls_is' =>
      let block_id := (block_i * ls_count + ls_i + 1)%nat in
      let frg_rv_tag := rv_tag "FRG" PG block_id ls_id in
      let sample := if (ls_number <=? Z.of_nat ls_i + 1)%Z
                    then LowestFloat else HighestFloat in
      let* cap := add_RV (fst regs) (mkRV frg_rv_tag (empirical sample)) in
      let lsds_rv_tag := rv_tag "LSDS" PG block_id ls_id in
      let* post := assign_lsds ds_weights ds_id (snd regs) lsds_rv_tag in
      function_blocks ls_id ls_number block_i ls_count ds_weights ds_id ls_is'
        (cap, snd post) (S rv_count) (fst post)
  end.

(** The body of [for ls_id in limit_states]. *)
Definition limit_state_step (frg_params : list (string * ls_params))
    (ls_count block_i : nat) (st : loop_state) (ls_id : string) : result loop_state :=
  let* params := dict_get frg_params ls_id in
  let theta_0 := Theta_0 params in
  if is_defined theta_0 then
    let family := Family params in
    let theta_1 := Theta_1 params in
    let ds_weights := DamageStateWeights params in
    if is_family "function" family then
      let* ls_number := int_of_str ls_id in
      let* r := function_blocks ls_id ls_number block_i ls_count ds_weights
                  (ds_id st) (seq 0 ls_count)
                  (capacity_RV_reg st, lsds_RV_reg st) (rv_count st) (ds_id st) in
      let* _ := if String.eqb ls_id "1"
                then damage_function_quantities block_i ls_id else Ok tt in
      Ok (mkState (fst (fst (fst r))) (snd (fst (fst r))) (snd (fst r)) (snd r)
            (frg_rv_set_tags st))
    else
      let frg_rv_tag := rv_tag "FRG" PG (block_i + 1) ls_id in
      let* cap :=
        match family with
        | None =>
            add_RV (capacity_RV_reg st) (mkRV frg_rv_tag (empirical (Value theta_0)))
        | Some family =>
            add_RV (capacity_RV_reg st)
              (mkRV frg_rv_tag (parametric family theta_0 theta_1))
        end in
      let tags := (frg_rv_set_tags st ++ [frg_rv_tag])%list in
      let lsds_rv_tag := rv_tag "LSDS" PG (block_i + 1) ls_id in
      let* post := assign_lsds ds_weights (ds_id st) (lsds_RV_reg st) lsds_rv_tag in
      Ok (mkState cap (snd post) (S (rv_count st)) (fst post) tags)
  else Ok st.

Fixpoint limit_states_loop (frg_params : list (string * ls_params))
    (ls_count block_i : nat) (limit_states : list string) (st : loop_state)
  : result loop_state :=
  match limit_states with
  | [] => Ok st
  | ls_id :: limit_states' =>
      let* st' := limit_state_step frg_params ls_count block_i st ls_id in
      limit_states_loop frg_params ls_count block_i limit_states' st'
  end.

(** The body of [for block_i, __ in enumerate(blocks)]. *)
Definition block_step (frg_params : list (string * ls_params))
    (limit_states : list string) (regs : RandomVariableRegistry * RandomVariableRegistry * nat)
    (block_i : nat) : result (RandomVariableRegistry * RandomVariableRegistry * nat) :=
  let ls_count := List.length limit_states in
  let st := mkState (fst (fst regs)) (snd (fst regs)) (snd regs) 0%Z [] in
  let* st := limit_states_loop frg_params ls_count block_i limit_states st in
  if (0 <? List.length (frg_rv_set_tags st))%nat then
    let* members := RVs (capacity_RV_reg st) (frg_rv_set_tags st) in
    let* cap :=
      add_RV_set (capacity_RV_reg st)
        (mkRVSet (("FRG-" ++ level 0 PG ++ "-" ++ level 1 PG ++ "-" ++ level 2 PG ++ "-"
                   ++ str_of_int (Z.of_nat (block_i + 1))) ++ "_set")
           members
           (ones (List.length (frg_rv_set_tags st)) (List.length (frg_rv_set_tags st)))) in
    Ok (cap, lsds_RV_reg st, rv_count st)
  else Ok (capacity_RV_reg st, lsds_RV_reg st, rv_count st).

Fixpoint blocks_loop (frg_params : list (string * ls_params))
    (limit_states : list string) (block_is : list nat)
    (regs : RandomVariableRegistry * RandomVariableRegistry * nat)
  : result (RandomVariableRegistry * RandomVariableRegistry * nat) :=
  match block_is with
  | [] => Ok regs
  | block_i :: block_is' =>
      let* regs' := block_step frg_params limit_states regs block_i in
      blocks_loop frg_params limit_states block_is' regs'
  end.

(** [damage_params] gives, for the components of the damage model, their
    limit states by id (the groups of columns 'LS<id>'), in the order of
    the table; [blocks] is the number of blocks of the performance
    group. *)
Definition _create_dmg_RVs (damage_params : list (string * list (string * ls_params)))
    (blocks : nat) : result (RandomVariableRegistry * RandomVariableRegistry) :=
  let capacity_RV_reg := empty_registry in
  let lsds_RV_reg := empty_registry in
  let cmp_id := level 0 PG in
  match dict_get damage_params cmp_id with
  | Ok frg_params =>
      let limit_states :=
        map (fun l => level 0 l) (unique (map (fun p => [fst p]) frg_params)) in
      let* r := blocks_loop frg_params limit_states (seq 0 blocks)
                  (capacity_RV_reg, lsds_RV_reg, 0%nat) in
      Ok (fst (fst r), snd (fst r))
  | Raise _ => Ok (capacity_RV_reg, lsds_RV_reg)
  end.

End CreateRVs.

(** The parameters of a limit state of the component. *)
Definition params_of (frg_params : list (string * ls_params)) (ls_id : string)
  : ls_params :=
  match dict_get frg_params ls_id with
  | Ok p => p
  | Raise _ => mkLS None None None None
  end.

(** The limit states of a component, and those among them that pass the
    test on Theta_0. *)
Definition limit_states_of (frg_params : list (string * ls_params)) : list string :=
  map (fun l => level 0 l) (unique (map (fun p => [fst p]) frg_params)).

Definition defined_limit_states (is_defined : option Q -> bool)
    (frg_params : list (string * ls_params)) : list string :=
  filter (fun l => is_defined (Theta_0 (params_of frg_params l)))
    (limit_states_of frg_params).

(** The capacity variable of a limit state of a block that is defined by
    a fragility family or by a deterministic capacity. *)
Definition fragility_RV (PG : label) (frg_params : list (string * ls_params))
    (block_i : nat) (ls_id : string) : RandomVariable :=
  let p := params_of frg_params ls_id in
  mkRV (rv_tag "FRG" PG (block_i + 1) ls_id)
    (match Family p with
     | None => empirical (Value (Theta_0 p))
     | Some family => parametric family (Theta_0 p) (Theta_1 p)
     end).

(** The set of the capacity variables of a block, perfectly correlated. *)
Definition block_set (PG : label) (frg_params : list (string * ls_params))
    (ls : list string) (block_i : nat) : RandomVariableSet :=
  mkRVSet (("FRG-" ++ level 0 PG ++ "-" ++ level 1 PG ++ "-" ++ level 2 PG ++ "-"
            ++ str_of_int (Z.of_nat (block_i + 1))) ++ "_set")
    (map (fragility_RV PG frg_params block_i) ls)
    (ones (List.length ls) (List.length ls)).

(** A component with three limit states: a lognormal capacity, a
    deterministic capacity and a normal capacity with two mutually
    exclusive damage states. *)
Definition damage_params_example : list (string * list (string * ls_params)) :=
  [("C", [("1", mkLS (Some (1 # 100)) (Some "lognormal") (Some (4 # 10)) None);
          ("2", mkLS (Some (2 # 100)) None None None);
          ("3", mkLS (Some (3 # 100)) (Some "normal") (Some (1 # 100))
                  (Some [1 # 4; 3 # 4]))])].

End Capacity.

(** ** Damage model: damage process ([DamageModel._perform_dmg_task];
    model.py, lines 1744-1877) *)

Module Process.

Import Frame Demand.

(** A cell of the damaged quantities: a number, or undefined (NaN). *)
Definition cell : Type := option Q.

(** The damage sample has the column levels (cmp, loc, dir, ds); the
    component quantities [cmp_qnt] the levels (cmp, loc, dir). *)
Definition QuantitySample : Type := DataFrame cell.

(** An operation that works realization by realization: the new cells
    of a realization are computed from its cells and from what is known
    of the realization ([ctx]: its flag in the source mask and its
    component quantities). *)
Definition rowwise {C A : Type} (ctx : list C) (f : C -> list A -> list A)
    (cols' : list label) (df : DataFrame A) : DataFrame A :=
  mkDF cols' (map (fun cr : C * list A => f (fst cr) (snd cr))
                (combine ctx (values df))).

(** The cells of a realization with the cells of the columns that
    satisfy [p] replaced by [v]. *)
Definition set_cells (p : label -> bool) (v : cell) (cols : list label)
    (row : list cell) : list cell :=
  map (fun cx : label * cell => if p (fst cx) then v else snd cx) (combine cols row).

(** The maximum of cells, undefined cells left out. *)
Fixpoint max_skipna (l : list cell) : cell :=
  match l with
  | [] => None
  | c :: l' =>
      match c, max_skipna l' with
      | Some x, Some y => Some (Qmax x y)
      | Some x, None => Some x
      | None, m => m
      end
  end.

(** [df.groupby(level=levels, axis=1).max()] *)
Definition groupby_max (levels : list nat) (df : DataFrame cell) : DataFrame cell :=
  let keys := group_keys levels (columns df) in
  mkDF keys
    (map (fun row =>
            map (fun k =>
                   max_skipna (cells_where (fun c => label_eqb (project levels c) k)
                                 (columns df) row))
                keys)
         (values df)).

(** [x > 0.0] *)
Definition positive (c : cell) : bool :=
  match c with
  | Some q => Qltb 0 q
  | None => false
  end.

(** What is known of a realization while a task is applied. *)
Definition context : Type := (bool * list Q)%type.

(** [qnt_sample.loc[source_mask, target_cmp] = v]: all the columns of
    the target components, in the realizations of the mask. *)
Definition set_components (ctx : list context) (target_cmp : list string) (v : cell)
    (qnt_sample : QuantitySample) : QuantitySample :=
  rowwise ctx
    (fun c row =>
       if fst c then
         set_cells (fun k => existsb (String.eqb (level 0 k)) target_cmp) v
           (columns qnt_sample) row
       else row)
    (columns qnt_sample) qnt_sample.

(** [qnt_sample[k] = 0.0]: a new column, the last one. *)
Definition add_column (ctx : list context) (k : label) (qnt_sample : QuantitySample)
  : QuantitySample :=
  rowwise ctx (fun _ row => (row ++ [Some 0])%list) (columns qnt_sample ++ [k])%list
    qnt_sample.

(** [qnt_sample.loc[source_mask, k] = cmp_qnt.loc[source_mask, pg].values] *)
Definition set_from_quantities (ctx : list context) (cmp_cols : list label)
    (k pg : label) (qnt_sample : QuantitySample) : QuantitySample :=
  rowwise ctx
    (fun c row =>
       if fst c then
         match lookup cmp_cols (snd c) pg with
         | Some q => set_cells (fun k' => label_eqb k' k) (Some q)
                       (columns qnt_sample) row
         | None => row
         end
       else row)
    (columns qnt_sample) qnt_sample.

(** The loop over the location-direction pairs [pgs] of a target
    component. *)
Fixpoint set_damage_state (ctx : list context) (cmp_cols : list label) (ds_i : string)
    (pgs : list label) (qnt_sample : QuantitySample) : result QuantitySample :=
  match pgs with
  | [] => Ok qnt_sample
  | pg :: pgs' =>
      (* qnt_sample[(target_cmp_i, loc, dir)] *)
      if negb (existsb (is_prefix pg) (columns qnt_sample)) then Raise KeyError
      else
        let k := (pg ++ [ds_i])%list in
        let qnt_sample :=
          if negb (mem k (columns qnt_sample)) then add_column ctx k qnt_sample
          else qnt_sample in
        set_damage_state ctx cmp_cols ds_i pgs'
          (set_from_quantities ctx cmp_cols k pg qnt_sample)
  end.

(** The loop over the target components. *)
Fixpoint set_damage_states (ctx : list context) (cmp_cols : list label) (ds_i : string)
    (target_cmp : list string) (qnt_sample : QuantitySample) : result QuantitySample :=
  match target_cmp with
  | [] => Ok qnt_sample
  | target_cmp_i :: target_cmp' =>
      (* cmp_qnt[target_cmp_i].columns *)
      match filter (is_prefix [target_cmp_i]) cmp_cols with
      | [] => Raise KeyError
      | pgs =>
          let* q := set_damage_state ctx cmp_cols ds_i pgs qnt_sample in
          set_damage_states ctx cmp_cols ds_i target_cmp' q
      end
  end.

(** [target_cmp.remove(source_cmp)] *)
Fixpoint remove_first (x : string) (l : list string) : list string :=
  match l with
  | [] => []
  | y :: l' => if String.eqb y x then l' else y :: remove_first x l'
  end.

Section Task.

(** [unknown_target v target qnt_sample] stands for the assignment
    [qnt_sample.loc[source_mask, target] = v] and what follows it when
    [target] is not a component of the damage sample: what pandas does
    with a label it does not find is not modelled. *)
Variable unknown_target : cell -> string -> QuantitySample -> result QuantitySample.

(** The component quantities of the asset model. *)
Variable cmp_qnt : DataFrame Q.

(** The target components of a target: 'ALL' is every component of the
    damage sample but the source component; a component of the damage
    sample is itself; anything else is left as it is ([None]). *)
Definition resolve_target (cmp_list : list string) (source_cmp target_cmp : string)
  : option (list string) :=
  if String.eqb target_cmp "ALL" then
    let targets := cmp_list in
    Some (if existsb (String.eqb source_cmp) targets
          then remove_first source_cmp targets else targets)
  else if existsb (String.eqb target_cmp) cmp_list then Some [target_cmp]
  else None.

(** The body of [for target_info in target_infos]. *)
Definition apply_target (cmp_list : list string) (source_cmp : string)
    (source_mask : option (list bool)) (qnt_sample : QuantitySample)
    (target_info : string) : result QuantitySample :=
  match split "_"%char target_info with
  | [target_cmp; target_event] =>
      let target := resolve_target cmp_list source_cmp target_cmp in
      if starts_with "LS" target_event then
        let* ls_i := int_of_str (drop2 target_event) in
        Ok qnt_sample
      else if starts_with "DS" target_event then
        let ds_i := drop2 target_event in
        match source_mask with
        | None => Raise NameError
        | Some mask =>
            let ctx := combine mask (values cmp_qnt) in
            match target with
            | None => unknown_target (Some 0) target_cmp qnt_sample
            | Some target_cmp =>
                let qnt_sample := set_components ctx target_cmp (Some 0) qnt_sample in
                set_damage_states ctx (columns cmp_qnt) ds_i target_cmp qnt_sample
            end
        end
      else if String.eqb target_event "NA" then
        match source_mask with
        | None => Raise NameError
        | Some mask =>
            let ctx := combine mask (values cmp_qnt) in
            match target with
            | None => unknown_target None target_cmp qnt_sample
            | Some target_cmp => Ok (set_components ctx target_cmp None qnt_sample)
            end
        end
      else Raise ValueError
  | _ => Raise ValueError
  end.

Fixpoint apply_targets (cmp_list : list string) (source_cmp : string)
    (source_mask : option (list bool)) (target_infos : list string)
    (qnt_sample : QuantitySample) : result QuantitySample :=
  match target_infos with
  | [] => Ok qnt_sample
  | target_info :: target_infos' =>
      let* q := apply_target cmp_list source_cmp source_mask qnt_sample target_info in
      apply_targets cmp_list source_cmp source_mask target_infos' q
  end.

(** The realizations with a positive quantity of the source component
    in the damage state [ds_target]; [None] when the source component
    has no column of that damage state. *)
Definition source_mask_of (source_cmp_df : QuantitySample) (ds_target : string)
  : option (list bool) :=
  let source_ds_vals := groupby_max [2%nat] source_cmp_df in
  if mem [ds_target] (columns source_ds_vals) then
    Some (map (fun row =>
                 match lookup (columns source_ds_vals) row [ds_target] with
                 | Some v => positive v
                 | None => false
                 end)
            (values source_ds_vals))
  else None.

(** The loop over the events of the task; the source mask of an event
    is still bound when the next event is handled. *)
Fixpoint apply_events (cmp_list : list string) (source_cmp : string)
    (source_cmp_df : QuantitySample) (events : list (string * list string))
    (source_mask : option (list bool)) (qnt_sample : QuantitySample)
  : result QuantitySample :=
  match events with
  | [] => Ok qnt_sample
  | (source_event, target_infos) :: events' =>
      if starts_with "LS" source_event then
        let* ls_i := int_of_str (drop2 source_event) in
        let* q := apply_targets cmp_list source_cmp source_mask target_infos qnt_sample in
        apply_events cmp_list source_cmp source_cmp_df events' source_mask q
      else if starts_with "DS" source_event then
        let ds_target := drop2 source_event in
        match source_mask_of source_cmp_df ds_target with
        | Some mask =>
            let* q := apply_targets cmp_list source_cmp (Some mask) target_infos
                        qnt_sample in
            apply_events cmp_list source_cmp source_cmp_df events' (Some mask) q
        | None =>
            apply_events cmp_list source_cmp source_cmp_df events' source_mask qnt_sample
        end
      else Raise ValueError
  end.

(** A task is the pair of its name and of its events, each with its
    list of targets. *)
Definition _perform_dmg_task (task : string * list (string * list string))
    (qnt_sample : QuantitySample) : result QuantitySample :=
  let cmp_list :=
    map (fun l => level 0 l) (unique (map (fun c => [level 0 c]) (columns qnt_sample))) in
  let* source_cmp :=
    match split "_"%char (fst task) with
    | _ :: source_cmp :: _ => Ok source_cmp
    | _ => Raise IndexError
    end in
  if negb (existsb (String.eqb source_cmp) cmp_list) then Raise ValueError
  else
    let* source_cmp_df := loc_partial [source_cmp] qnt_sample in
    apply_events cmp_list source_cmp source_cmp_df (snd task) None qnt_sample.

End Task.

(** A damage sample of three components in three realizations, with
    the component quantities of the asset model: A is in damage state 1
    in the first and in the third realization. *)
Definition qnt_sample_example : QuantitySample :=
  mkDF [ ["A"; "1"; "1"; "0"]; ["A"; "1"; "1"; "1"];
         ["B"; "1"; "1"; "0"]; ["B"; "1"; "1"; "1"];
         ["B"; "2"; "1"; "0"];
         ["C"; "1"; "0"; "0"] ]
       [ [Some 0; Some 2; Some 5; Some 0; Some 7; Some 1];
         [Some 2; Some 0; Some 3; Some 2; Some 7; Some 1];
         [Some 1; Some 1; Some 5; Some 0; Some 0; Some 1] ].

Definition cmp_qnt_example : DataFrame Q :=
  mkDF [ ["A"; "1"; "1"]; ["B"; "1"; "1"]; ["B"; "2"; "1"]; ["C"; "1"; "0"] ]
       [ [2; 5; 7; 1]; [2; 5; 7; 1]; [2; 5; 7; 1] ].

(** *** The task seen from one realization *)

(** The components of the damage sample. *)
Definition cmp_list_of (qnt_sample : QuantitySample) : list string :=
  map (fun l => level 0 l) (unique (map (fun c => [level 0 c]) (columns qnt_sample))).

(** The source condition: the source component has a positive quantity
    in the damage state [ds] in the realization. *)
Definition source_holds (source_cmp ds : string) (cols : list label) (row : list cell)
  : bool :=
  existsb positive
    (cells_where (fun c => is_prefix [source_cmp] c && String.eqb (level 3 c) ds)
       cols row).

(** The location-direction pairs of the target components in the asset
    model. *)
Definition target_pgs (cmp_cols : list label) (targets : list string) : list label :=
  flat_map (fun t => filter (is_prefix [t]) cmp_cols) targets.

(** One location-direction pair, for the columns and the cells of one
    realization. *)
Definition pg_step (cmp_cols : list label) (ds_i : string) (c : context) (pg : label)
    (cr : list label * list cell) : list label * list cell :=
  let k := (pg ++ [ds_i])%list in
  let cr1 := if negb (mem k (fst cr))
             then ((fst cr ++ [k])%list, (snd cr ++ [Some 0])%list) else cr in
  (fst cr1,
   if fst c then
     match lookup cmp_cols (snd c) pg with
     | Some q => set_cells (fun k' => label_eqb k' k) (Some q) (fst cr1) (snd cr1)
     | None => snd cr1
     end
   else snd cr1).

Fixpoint pgs_fold (cmp_cols : list label) (ds_i : string) (c : context)
    (pgs : list label) (cr : list label * list cell) : list label * list cell :=
  match pgs with
  | [] => cr
  | pg :: pgs' => pgs_fold cmp_cols ds_i c pgs' (pg_step cmp_cols ds_i c pg cr)
  end.

(** The columns after the loop: a column is added for every pair whose
    column of the damage state is missing. *)
Fixpoint cols_after (ds_i : string) (pgs : list label) (cols : list label) : list label :=
  match pgs with
  | [] => cols
  | pg :: pgs' =>
      cols_after ds_i pgs'
        (if negb (mem (pg ++ [ds_i])%list cols) then (cols ++ [(pg ++ [ds_i])%list])%list
         else cols)
  end.

(** A column of the damage state [ds_i] of one of the pairs. *)
Definition is_target_column (ds_i : string) (pgs : list label) (c : label) : bool :=
  existsb (fun pg => label_eqb (pg ++ [ds_i])%list c) pgs.

(** What a rule with the target event 'DS<ds_i>' does to a realization:
    [row] and [row'] are its cells before and after, under the columns
    [cols] and [cols'], [crow] its component quantities and [holds] its
    source condition.  Where the condition holds, the column of the
    damage state of every pair of a target component has the quantity of
    the pair, the other columns of the target components have 0, and the
    columns of the other components are as before; where it does not
    hold, the cells are as before and the columns created have 0. *)
Definition forced (ds_i : string) (cmp_cols : list label) (targets : list string)
    (cols cols' : list label) (holds : bool) (crow : list Q) (row row' : list cell)
  : Prop :=
  List.length row' = List.length cols'
  /\ forall c, In c cols' ->
       (holds = true ->
          (forall pg, In pg (target_pgs cmp_cols targets) -> c = (pg ++ [ds_i])%list ->
             exists q, lookup cmp_cols crow pg = Some q
                       /\ lookup cols' row' c = Some (Some q))
          /\ (is_target_column ds_i (target_pgs cmp_cols targets) c = false ->
              In (level 0 c) targets -> lookup cols' row' c = Some (Some 0))
          /\ (~ In (level 0 c) targets -> lookup cols' row' c = lookup cols row c))
       /\ (holds = false ->
           (In c cols -> lookup cols' row' c = lookup cols row c)
           /\ (~ In c cols -> lookup cols' row' c = Some (Some 0))).

(** What a rule with the target event 'NA' does to a realization: where
    the source condition holds the cells of the target components are
    undefined; all other cells are as before. *)
Definition cleared (targets : list string) (cols : list label) (holds : bool)
    (row row' : list cell) : Prop :=
  List.length row' = List.length row
  /\ forall c, In c cols ->
       (holds = true -> In (level 0 c) targets -> lookup cols row' c = Some None)
       /\ (holds = false \/ ~ In (level 0 c) targets ->
           lookup cols row' c = lookup cols row c).

End Process.

(** ** Loss aggregation: [BldgRepairModel.aggregate_losses]
    (model.py, lines 2496-2530) *)

Module Loss.

Import Frame.

(** One realization of the summary table. *)
Record agg_row : Type := mkAgg {
  repair_cost : Q;
  repair_time_parallel : Q;
  repair_time_sequential : Q
}.

(** The consequence sample [DV] has the column levels
    (dv, loss, dmg, ds, loc, dir). *)
Definition aggregate_losses (DV : DataFrame Q) : result (list agg_row) :=
  let DVG := groupby_sum [0%nat; 4%nat] DV in
  let* cost := getitem "COST" DVG in
  let repair_cost := sum_axis1 cost in
  let* time := getitem "TIME" DVG in
  let sequential := sum_axis1 time in
  let* time' := getitem "TIME" DVG in
  let parallel := max_axis1 time' in
  Ok (map (fun t => mkAgg (fst (fst t)) (snd (fst t)) (snd t))
        (combine (combine repair_cost parallel) sequential)).

(** The end of [BldgRepairModel._generate_DV_sample] (lines 2702-2720):
    the replacement override applied to the consequence sample. *)
Definition replacement_override (DV_sample : DataFrame Q) : DataFrame Q :=
  let DV_sum := groupby_sum [1%nat] DV_sample in
  let id_replacement :=
    if mem ["replacement"] (columns DV_sum) then
      Some (map (fun row =>
                   Qltb 0 (Qsum (cells_where (fun c => label_eqb c ["replacement"])
                                   (columns DV_sum) row)))
              (values DV_sum))
    else None in
  let locs := unique (map (fun c => [level 4 c]) (columns DV_sample)) in
  let locs := filter (fun l => negb (label_eqb l ["0"])) locs in
  match id_replacement with
  | Some flags =>
      mkDF (columns DV_sample)
        (map (fun fr : bool * list Q =>
                if fst fr then
                  map (fun cv : label * Q => if mem [level 4 (fst cv)] locs then 0 else snd cv)
                    (combine (columns DV_sample) (snd fr))
                else snd fr)
           (combine flags (values DV_sample)))
  | None => DV_sample
  end.

(** The summed 'replacement' consequence of one realization: the sum of
    the cells whose loss level is 'replacement'. *)
Definition replacement_total (cols : list label) (row : list Q) : Q :=
  Qsum (cells_where (fun c => String.eqb (level 1 c) "replacement") cols row).

(** The sum of the cells of one realization whose decision-variable
    level is [dv]. *)
Definition dv_total (dv : string) (cols : list label) (row : list Q) : Q :=
  Qsum (cells_where (fun c => String.eqb (level 0 c) dv) cols row).

(** The total of one location for the decision variable [dv] in one
    realization: the sum of the cells whose decision-variable level is
    [dv] and whose location level is [loc]. *)
Definition loc_total (dv loc : string) (cols : list label) (row : list Q) : Q :=
  Qsum (cells_where (fun c => String.eqb (level 0 c) dv && String.eqb (level 4 c) loc)
          cols row).

(** The distinct locations that have a column of the decision variable
    [dv]. *)
Definition locations_of_dv (dv : string) (cols : list label) : list string :=
  nodup string_dec (map (level 4) (filter (fun c => String.eqb (level 0 c) dv) cols)).

(** A small consequence sample: a replacement cost and two local repair
    consequences, two realizations. *)
Definition DV_example : DataFrame Q :=
  mkDF [ ["COST"; "replacement"; "collapse"; "1"; "0"; "0"];
         ["COST"; "B1"; "B1"; "1"; "1"; "1"];
         ["TIME"; "B1"; "B1"; "1"; "2"; "1"] ]
       [ [100; 5; 2];
         [0; 5; 2] ].

(** A consequence sample with repair times on two floors, two
    components on the second one. *)
Definition DV_two_floors : DataFrame Q :=
  mkDF [ ["COST"; "B1"; "B1"; "1"; "1"; "1"];
         ["TIME"; "B1"; "B1"; "1"; "1"; "1"];
         ["TIME"; "B1"; "B1"; "1"; "2"; "1"];
         ["TIME"; "B2"; "B2"; "1"; "2"; "1"] ]
       [ [5; 2; 3; 4];
         [0; 6; 1; 2] ].

(** A consequence sample with repair costs only. *)
Definition DV_cost_only : DataFrame Q :=
  mkDF [ ["COST"; "B1"; "B1"; "1"; "1"; "1"];
         ["COST"; "B1"; "B1"; "1"; "2"; "1"] ]
       [ [5; 2] ].

End Loss.

(** ** Loss model: median consequences ([BldgRepairModel._generate_DV_sample],
    lines 2565-2594, and [BldgRepairModel._calc_median_consequence],
    lines 2387-2494) *)

Module Consequence.

Import Frame MedianDV.

Definition drop2 := Demand.drop2.

(** [options.eco_scale] *)
Record eco_scale : Type := mkEcoScale {
  AcrossFloors : bool;
  AcrossDamageStates : bool
}.

(** A table with the names of the levels of its columns. *)
Record NamedFrame : Type := mkNamed {
  names : list string;
  table : DataFrame Q
}.

(** The quantities for the economies of scale.  The damaged quantities
    have the column levels (cmp, loc, dir, ds). *)
Definition eco_quantities (options : eco_scale) (dmg_quantities : DataFrame Q)
  : NamedFrame :=
  if AcrossFloors options then
    if AcrossDamageStates options then
      mkNamed ["cmp"] (groupby_sum [0%nat] dmg_quantities)
    else
      mkNamed ["cmp"; "ds"] (groupby_sum [0; 3]%nat dmg_quantities)
  else
    if AcrossDamageStates options then
      mkNamed ["cmp"; "loc"] (groupby_sum [0; 1]%nat dmg_quantities)
    else
      mkNamed ["cmp"; "loc"; "ds"] (groupby_sum [0; 1; 3]%nat dmg_quantities).

(** A row of the loss map: the loss component, its driver and the name
    of its consequence function. *)
Record loss_map_row : Type := mkLossMap {
  loss_cmp_id : string;
  driver_type : string;
  driver_cmp : string;
  loss_cmp_name : string
}.

(** Theta_0 of a damage state in the loss parameters: a number, or the
    medians and the quantities of a multilinear function (the two
    halves of the string 'm1,m2,...|q1,q2,...'). *)
Inductive theta : Type :=
| Constant (median : Q)
| Multilinear (medians quantities : list Q).

(** The loss parameters: the first-level names of the columns in the
    order of the table, and by row (consequence name, 'Cost' or 'Time')
    the Theta_0 of the columns, [None] where it is undefined. *)
Record LossParams : Type := mkLossParams {
  lp_columns : list string;
  lp_rows : list ((string * string) * list (string * option theta))
}.

Definition index_eqb (a b : string * string) : bool :=
  String.eqb (fst a) (fst b) && String.eqb (snd a) (snd b).

Fixpoint lp_row (rows : list ((string * string) * list (string * option theta)))
    (k : string * string) : option (list (string * option theta)) :=
  match rows with
  | [] => None
  | (k', r) :: rows' => if index_eqb k' k then Some r else lp_row rows' k
  end.

(** [loss_params.loc[(name, dv), (ds, 'Theta_0')]] *)
Definition loc_theta (loss_params : LossParams) (k : string * string) (ds : string)
  : result (option theta) :=
  match lp_row (lp_rows loss_params) k with
  | Some r => dict_get r ds
  | None => Raise KeyError
  end.

(** The median function of a Theta_0, applied to an array of
    quantities. *)
Definition f_median (t : theta) (q : Q) : result Q :=
  match t with
  | Constant median => Ok (prep_constant_median_DV median (Some q))
  | Multilinear medians quantities =>
      prep_bounded_multilinear_median_DV medians quantities (Some q)
  end.

(** A selection of columns of [eco_qnt]: a table, or a single column
    ([is_series]), which the code turns into a table with the one
    column 'X' named 'del'. *)
Record selection : Type := mkSel {
  is_series : bool;
  sel : DataFrame Q
}.

(** [eco_qnt.loc[:, key]]: a key with all the levels selects one column,
    a shorter key the columns that begin with it. *)
Definition loc_key (key : label) (eco_qnt : NamedFrame) : result selection :=
  if Nat.eqb (List.length key) (List.length (names eco_qnt)) then
    if mem key (columns (table eco_qnt)) then
      Ok (mkSel true
            (mkDF [["X"]]
               (map (fun row => cells_where (fun c => label_eqb c key)
                                  (columns (table eco_qnt)) row)
                  (values (table eco_qnt)))))
    else Raise KeyError
  else
    let* d := loc_partial key (table eco_qnt) in Ok (mkSel false d).

(** [pd.concat(frames, axis=1, keys=keys)]: the columns of the tables
    side by side, each label with the key of its table put in front. *)
Fixpoint concat_keys (keyed : list (string * DataFrame Q)) : DataFrame Q :=
  match keyed with
  | [] => mkDF [] []
  | [(k, d)] => mkDF (map (cons k) (columns d)) (values d)
  | (k, d) :: keyed' =>
      let rest := concat_keys keyed' in
      mkDF (map (cons k) (columns d) ++ columns rest)
        (map (fun rr : list Q * list Q => (fst rr ++ snd rr)%list)
           (combine (values d) (values rest)))
  end.

(** The body of [for ds in loss_params.columns...unique()]: the medians
    of one damage state, or nothing ([continue]). *)
Definition median_of_ds (loss_params : LossParams) (eco_qnt : NamedFrame)
    (loss_cmp_name DV_type_scase driver_cmp ds : string)
  : result (option (string * selection)) :=
  if negb (Demand.starts_with "DS" ds) then Ok None
  else
    let ds_id := drop2 ds in
    if String.eqb ds_id "0" then Ok None
    else
      let* theta_0 := loc_theta loss_params (loss_cmp_name, DV_type_scase) ds in
      match theta_0 with
      | None => Ok None
      | Some theta_0 =>
          let* eco_qnt_i :=
            if existsb (String.eqb "ds") (names eco_qnt) then
              let* d := loc_key [driver_cmp] eco_qnt in
              let avail_ds := unique (map (fun c => [level 0 c]) (columns (sel d))) in
              if negb (mem [ds_id] avail_ds) then Ok None
              else let* s := loc_key [driver_cmp; ds_id] eco_qnt in Ok (Some s)
            else
              let* s := loc_key [driver_cmp] eco_qnt in Ok (Some s) in
          match eco_qnt_i with
          | None => Ok None
          | Some eco_qnt_i =>
              let* medians :=
                map_result (map_result (f_median theta_0)) (values (sel eco_qnt_i)) in
              Ok (Some (ds_id,
                        mkSel (is_series eco_qnt_i)
                          (mkDF (columns (sel eco_qnt_i)) medians)))
          end
      end.

Fixpoint medians_of_cmp (loss_params : LossParams) (eco_qnt : NamedFrame)
    (loss_cmp_name DV_type_scase driver_cmp : string) (dss : list string)
  : result (list (string * selection)) :=
  match dss with
  | [] => Ok []
  | ds :: dss' =>
      let* m := median_of_ds loss_params eco_qnt loss_cmp_name DV_type_scase
                  driver_cmp ds in
      let* ms := medians_of_cmp loss_params eco_qnt loss_cmp_name DV_type_scase
                   driver_cmp dss' in
      Ok (match m with Some x => x :: ms | None => ms end)
  end.

(** The body of [for loss_cmp_id in self.loss_map.index]. *)
Definition medians_of_loss_cmp (loss_params : LossParams) (eco_qnt : NamedFrame)
    (DV_type_scase : string) (row : loss_map_row)
  : result (option (string * selection)) :=
  if negb (existsb (fun k => index_eqb (fst k) (loss_cmp_name row, DV_type_scase))
             (lp_rows loss_params))
  then Ok None
  else if negb (String.eqb (driver_type row) "DMG") then Raise ValueError
  else if negb (mem [driver_cmp row]
                  (unique (map (fun c => [level 0 c]) (columns (table eco_qnt)))))
  then Ok None
  else
    let* sub_medians :=
      medians_of_cmp loss_params eco_qnt (loss_cmp_name row) DV_type_scase
        (driver_cmp row)
        (map (fun l => level 0 l) (unique (map (fun c => [c]) (lp_columns loss_params)))) in
    match sub_medians with
    | [] => Ok None
    | (_, s0) :: _ =>
        Ok (Some (loss_cmp_id row,
                  mkSel (is_series s0)
                    (concat_keys (map (fun m => (fst m, sel (snd m))) sub_medians))))
    end.

Fixpoint medians_of_map (loss_params : LossParams) (eco_qnt : NamedFrame)
    (DV_type_scase : string) (loss_map : list loss_map_row)
  : result (list (string * selection)) :=
  match loss_map with
  | [] => Ok []
  | row :: loss_map' =>
      let* m := medians_of_loss_cmp loss_params eco_qnt DV_type_scase row in
      let* ms := medians_of_map loss_params eco_qnt DV_type_scase loss_map' in
      Ok (match m with Some x => x :: ms | None => ms end)
  end.

(** The medians of one decision variable: nothing when no loss
    component has any. *)
Definition medians_of_DV (options : eco_scale) (loss_map : list loss_map_row)
    (loss_params : LossParams) (eco_qnt : NamedFrame) (DV_type_scase : string)
  : result (option NamedFrame) :=
  let* median_list := medians_of_map loss_params eco_qnt DV_type_scase loss_map in
  match median_list with
  | [] => Ok None
  | (_, s0) :: _ =>
      let result := concat_keys (map (fun m => (fst m, sel (snd m))) median_list) in
      let result :=
        if is_series s0 then mkDF (map (@removelast string) (columns result)) (values result)
        else result in
      let level_names := if AcrossFloors options then ["cmp"; "ds"]
                         else ["cmp"; "ds"; "loc"] in
      if forallb (fun c => Nat.eqb (List.length c) (List.length level_names))
           (columns result)
      then Ok (Some (mkNamed level_names result))
      else Raise ValueError
  end.

(** The dictionary of the median tables, by decision variable. *)
Definition _calc_median_consequence (options : eco_scale)
    (loss_map : list loss_map_row) (loss_params : LossParams) (eco_qnt : NamedFrame)
  : result (list (string * NamedFrame)) :=
  let* cost := medians_of_DV options loss_map loss_params eco_qnt "Cost" in
  let* time := medians_of_DV options loss_map loss_params eco_qnt "Time" in
  Ok (match cost with Some r => [("COST", r)] | None => [] end
      ++ match time with Some r => [("TIME", r)] | None => [] end)%list.

(** The labels of the columns of the median table of a decision
    variable, for a policy of economies of scale. *)
Definition median_columns (AcrossFloors AcrossDamageStates : bool)
    (dmg_quantities : DataFrame Q) (loss_map : list loss_map_row)
    (loss_params : LossParams) (DV_type : string) : result (option (list label)) :=
  let options := mkEcoScale AcrossFloors AcrossDamageStates in
  let eco_qnt := eco_quantities options dmg_quantities in
  let* medians := _calc_median_consequence options loss_map loss_params eco_qnt in
  Ok (match dict_get medians DV_type with
      | Ok r => Some (columns (table r))
      | Raise _ => None
      end).

(** A component damaged at three locations, with the damage states 0
    and 1 at each, and a repair cost per unit for damage state 1. *)
Definition dmg_quantities_example : DataFrame Q :=
  mkDF [ ["A"; "1"; "1"; "0"]; ["A"; "1"; "1"; "1"];
         ["A"; "2"; "1"; "0"]; ["A"; "2"; "1"; "1"];
         ["A"; "3"; "1"; "0"]; ["A"; "3"; "1"; "1"] ]
       [ [0; 4; 4; 0; 1; 3] ].

Definition loss_map_example : list loss_map_row :=
  [mkLossMap "A" "DMG" "A" "A"].

Definition loss_params_example : LossParams :=
  mkLossParams ["DV"; "DS1"]
    [(("A", "Cost"), [("DV", None); ("DS1", Some (Constant 100))])].

End Consequence.

(** ** Python strings: [str.strip], [int(str)], [str.split] with the
    separator '--', [sep.join] *)

Module PyStr.

Import Demand.

(** White space, for the characters of the ASCII range
    ([str.isspace]): the characters 9 to 13 and 28 to 32. *)
Definition is_space (c : ascii) : bool :=
  let n := nat_of_ascii c in
  ((9 <=? n) && (n <=? 13) || (28 <=? n) && (n <=? 32))%nat.

Definition is_digit (c : ascii) : bool :=
  let n := nat_of_ascii c in ((48 <=? n) && (n <=? 57))%nat.

(** [s.lstrip()], [s.rstrip()] and [s.strip()] for the characters that
    satisfy [p]. *)
Fixpoint lstrip (p : ascii -> bool) (s : string) : string :=
  match s with
  | EmptyString => EmptyString
  | String c s' => if p c then lstrip p s' else s
  end.

Fixpoint rstrip (p : ascii -> bool) (s : string) : string :=
  match s with
  | EmptyString => EmptyString
  | String c s' =>
      match rstrip p s' with
      | EmptyString => if p c then EmptyString else String c EmptyString
      | r => String c r
      end
  end.

Definition strip (p : ascii -> bool) (s : string) : string := rstrip p (lstrip p s).

(** The digits of a decimal literal, in which single underscores may
    separate digits: [after_digit] tells whether the character before
    is a digit. *)
Fixpoint digits_of (after_digit : bool) (s : string) : option string :=
  match s with
  | EmptyString => if after_digit then Some EmptyString else None
  | String c s' =>
      if is_digit c then option_map (String c) (digits_of true s')
      else if Ascii.eqb c "_" then
        if after_digit then digits_of false s' else None
      else None
  end.

(** [int(s)] for a string of ASCII characters: white space around the
    literal is dropped, a sign may come first, the digits may be grouped
    by single underscores; anything else raises ValueError. *)
Definition py_int (s : string) : result Z :=
  let s := strip is_space s in
  let signed :=
    match s with
    | String c body =>
        if Ascii.eqb c "-" then (true, body)
        else if Ascii.eqb c "+" then (false, body)
        else (false, s)
    | EmptyString => (false, s)
    end in
  match digits_of false (snd signed) with
  | Some ds =>
      match NilEmpty.uint_of_string ds with
      | Some u => Ok (if fst signed then (- Z.of_uint u)%Z else Z.of_uint u)
      | None => Raise ValueError
      end
  | None => Raise ValueError
  end.

(** All the characters of a string satisfy [p]. *)
Fixpoint all_chars (p : ascii -> bool) (s : string) : bool :=
  match s with
  | EmptyString => true
  | String c s' => p c && all_chars p s'
  end.

(** A string of decimal digits, with one digit at least. *)
Definition digit_string (s : string) : Prop :=
  s <> EmptyString /\ all_chars is_digit s = true.

(** The decimal string of an integer: [int] reads it back. *)
Definition canonical (x : string) : Prop :=
  exists z, x = str_of_int z /\ int_of_str x = Ok z /\ py_int x = Ok z.

(** ['--' in s] and [s.split('--')]. *)
Fixpoint contains_dashes (s : string) : bool :=
  match s with
  | EmptyString => false
  | String c s' =>
      match s' with
      | String c' _ => (Ascii.eqb c "-" && Ascii.eqb c' "-") || contains_dashes s'
      | EmptyString => false
      end
  end.

Definition cons_char (c : ascii) (parts : list string) : list string :=
  match parts with
  | [] => [String c EmptyString]
  | w :: ws => String c w :: ws
  end.

Fixpoint split_dashes (s : string) : list string :=
  match s with
  | EmptyString => [EmptyString]
  | String c s' =>
      match s' with
      | String c' rest =>
          if Ascii.eqb c "-" && Ascii.eqb c' "-" then EmptyString :: split_dashes rest
          else cons_char c (split_dashes s')
      | EmptyString => [String c EmptyString]
      end
  end.

(** [np.arange(lo, hi).astype(str)]: the integers from [lo] up to, not
    including, [hi], each as a decimal string. *)
Definition arange (lo hi : Z) : list Z :=
  map (fun i => (lo + Z.of_nat i)%Z) (seq 0 (Z.to_nat (hi - lo))).

Definition arange_str (lo hi : Z) : list string := map str_of_int (arange lo hi).

End PyStr.

(** ** Asset model: locations and directions of a component
    ([get_locations] and [get_directions] in [AssetModel.load_cmp_model],
    model.py, lines 812-867; [PelicunModel._get_locations] and
    [PelicunModel._get_directions], model/pelicun_model.py, lines
    259-413) *)

Module Asset.

Import Frame Demand PyStr.

Section Parsing.

(** [np_int s] is the integer NumPy reads from the string [s] when an
    array of strings is built with [dtype=int]; [stories] is the number
    of stories of the asset. *)
Variable np_int : string -> result Z.
Variable stories : Z.

Fixpoint np_int_array (l : list string) : result (list Z) :=
  match l with
  | [] => Ok []
  | s :: l' => let* n := np_int s in let* ns := np_int_array l' in Ok (n :: ns)
  end.

(** The body of the location parser; [rec] stands for the recursive
    calls and [roof] for the location that 'roof' names. *)
Definition locations_of (roof : Z) (rec : string -> result (list string))
    (loc_str : string) : result (list string) :=
  match py_int loc_str with
  | Ok n => Ok [str_of_int n]
  | Raise _ =>
      if contains_dashes loc_str then
        match split_dashes loc_str with
        | [s_low; s_high] =>
            let* s_low := rec s_low in
            let* s_high := rec s_high in
            let* low := match s_low with
                        | l :: _ => py_int l
                        | [] => Raise IndexError
                        end in
            let* high := match s_high with
                         | h :: _ => py_int h
                         | [] => Raise IndexError
                         end in
            Ok (arange_str low (high + 1))
        | _ => Raise ValueError
        end
      else if contains_char ","%char loc_str then
        let* a := np_int_array (split ","%char loc_str) in Ok (map str_of_int a)
      else if String.eqb loc_str "all" then Ok (arange_str 1 (stories + 1))
      else if String.eqb loc_str "top" then Ok [str_of_int stories]
      else if String.eqb loc_str "roof" then Ok [str_of_int roof]
      else Raise ValueError
  end.

(** The parts of a string split at '--' do not contain '--': a
    recursive call never calls itself again, and two unfoldings of the
    body give the function (see [locations_unfold]). *)
Definition locations (roof : Z) (loc_str : string) : result (list string) :=
  locations_of roof (locations_of roof (fun _ => Raise ValueError)) loc_str.

(** [get_locations] of model.py: 'top' and 'roof' both name the last
    story. *)
Definition get_locations (loc_str : string) : result (list string) :=
  locations stories loc_str.

(** [_get_locations] of model/pelicun_model.py: 'roof' names the
    location above the last story. *)
Definition _get_locations (loc_str : string) : result (list string) :=
  locations (stories + 1) loc_str.

(** The body of the direction parser for a string; the list is tried
    before the range. *)
Definition directions_of (rec : string -> result (list string))
    (dir_str : string) : result (list string) :=
  match py_int dir_str with
  | Ok n => Ok [str_of_int n]
  | Raise _ =>
      if contains_char ","%char dir_str then
        let* a := np_int_array (split ","%char dir_str) in Ok (map str_of_int a)
      else if contains_dashes dir_str then
        match split_dashes dir_str with
        | [d_low; d_high] =>
            let* d_low := rec d_low in
            let* d_high := rec d_high in
            let* low := match d_low with
                        | l :: _ => py_int l
                        | [] => Raise IndexError
                        end in
            let* high := match d_high with
                         | h :: _ => py_int h
                         | [] => Raise IndexError
                         end in
            Ok (arange_str low (high + 1))
        | _ => Raise ValueError
        end
      else Raise ValueError
  end.

Definition directions (dir_str : string) : result (list string) :=
  directions_of (directions_of (fun _ => Raise ValueError)) dir_str.

(** [get_directions] (model.py) and [_get_directions]
    (model/pelicun_model.py): an undefined direction gives
    [np.ones(1).astype(str)], the one string '1.0'. *)
Definition get_directions (dir_str : option string) : result (list string) :=
  match dir_str with
  | None => Ok ["1.0"]
  | Some dir_str => directions dir_str
  end.

Definition _get_directions (dir_str : option string) : result (list string) :=
  get_directions dir_str.

(** [pd.MultiIndex.from_product([[cmp], locs, dirs])]: the performance
    groups of one row of the component table. *)
Definition performance_groups (cmp loc_str : string) (dir_str : option string)
  : result (list label) :=
  let* locs := get_locations loc_str in
  let* dirs := get_directions dir_str in
  Ok (flat_map (fun loc => map (fun dir => [cmp; loc; dir]) dirs) locs).

End Parsing.

End Asset.

(** ** Configuration dictionaries ([update_vals] and
    [merge_default_config], base.py, lines 587-702; [get], [update] and
    [is_unspecified], tools/DL_calculation.py, lines 86-228) *)

Module Config.

Import Demand PyStr.

(** A value of a configuration read from JSON: a dictionary, which keeps
    its keys in the order of insertion, or anything else ([Leaf]). *)
#[warnings="-register-all"]
Inductive value (A : Type) : Type :=
| Leaf (a : A)
| Dict (d : list (string * value A)).
Arguments Leaf {A} a.
Arguments Dict {A} d.

Definition is_dict {A : Type} (v : value A) : bool :=
  match v with
  | Dict _ => true
  | Leaf _ => false
  end.

(** [d.get(k)] and [d[k] = v]: a new key goes to the end, an old key
    keeps its place. *)
Fixpoint dict_lookup {V : Type} (d : list (string * V)) (k : string) : option V :=
  match d with
  | [] => None
  | (k', v) :: d' => if String.eqb k' k then Some v else dict_lookup d' k
  end.

Fixpoint dict_set {V : Type} (d : list (string * V)) (k : string) (v : V)
  : list (string * V) :=
  match d with
  | [] => [(k, v)]
  | (k', v') :: d' =>
      if String.eqb k' k then (k, v) :: d' else (k', v') :: dict_set d' k v
  end.

(** The loop [for key in primary] of [update_vals]; [merge pv uv] is
    what the body of the loop leaves under the key, for the value [pv]
    of [primary] and the value [uv] that [update] has under the key, if
    any. *)
Fixpoint update_entries {A : Type}
    (merge : value A -> option (value A) -> result (value A))
    (primary update : list (string * value A)) : result (list (string * value A)) :=
  match primary with
  | [] => Ok update
  | (key, pv) :: primary' =>
      let* v := merge pv (dict_lookup update key) in
      update_entries merge primary' (dict_set update key v)
  end.

Fixpoint merge_value {A : Type} (pv : value A) (uv : option (value A))
  : result (value A) :=
  match pv with
  | Dict pd =>
      match uv with
      | None => let* d := update_entries merge_value pd [] in Ok (Dict d)
      | Some (Dict ud) => let* d := update_entries merge_value pd ud in Ok (Dict d)
      | Some (Leaf _) => Raise ValueError
      end
  | Leaf a =>
      match uv with
      | None => Ok (Leaf a)
      | Some (Dict _) => Raise ValueError
      | Some (Leaf b) => Ok (Leaf b)
      end
  end.

(** [update_vals(update, primary, ...)]: the dictionary that [update] is
    when the call returns. *)
Definition update_vals {A : Type} (update primary : list (string * value A))
  : result (list (string * value A)) :=
  update_entries merge_value primary update.

(** [merge_default_config(user_config)], for the default options
    [default_config] that [load_default_options] reads from the
    settings file. *)
Definition merge_default_config {A : Type} (default_config : list (string * value A))
    (user_config : option (list (string * value A)))
  : result (list (string * value A)) :=
  let config := match user_config with
                | Some config => config
                | None => []
                end in
  update_vals config default_config.

(** The value at the end of a chain of keys. *)
Fixpoint at_keys {A : Type} (v : value A) (keys : list string) : option (value A) :=
  match keys with
  | [] => Some v
  | key :: keys' =>
      match v with
      | Dict d =>
          match dict_lookup d key with
          | Some v' => at_keys v' keys'
          | None => None
          end
      | Leaf _ => None
      end
  end.

(** What a value [u] holds at a chain of keys is kept in [v]: a value
    that is not a dictionary as it is, a dictionary as a dictionary. *)
Definition kept {A : Type} (u v : value A) : Prop :=
  forall keys x, at_keys u keys = Some x ->
  exists w, at_keys v keys = Some w /\ is_dict w = is_dict x
            /\ (forall a, x = Leaf a -> w = Leaf a).

(** What [p] holds at a chain of keys is in [v]: a dictionary as a
    dictionary, and a value that is not a dictionary with the value of
    [p] when [u] has nothing there. *)
Definition filled {A : Type} (p : value A) (u : option (value A)) (v : value A) : Prop :=
  forall keys x, at_keys p keys = Some x ->
  exists w, at_keys v keys = Some w /\ is_dict w = is_dict x
            /\ (forall a, x = Leaf a ->
                match u with
                | Some u => at_keys u keys = None
                | None => True
                end -> w = Leaf a).

(** The keys of every dictionary of a value are distinct, as they are
    in a Python dictionary. *)
Fixpoint unique_keys {A : Type} (v : value A) : Prop :=
  match v with
  | Leaf _ => True
  | Dict d =>
      NoDup (map fst d)
      /\ (fix all (d : list (string * value A)) : Prop :=
            match d with
            | [] => True
            | kv :: d' => unique_keys (snd kv) /\ all d'
            end) d
  end.

(** [path.strip('/').split('/')] *)
Definition keys_of (path : string) : list string :=
  split "/"%char (strip (fun c => Ascii.eqb c "/") path).

(** [get(d, path, default)]: indexing a value that is not a dictionary
    with a string raises TypeError, which gives the default as a missing
    key does. *)
Definition get {A : Type} (d : list (string * value A)) (path : string)
    (default : value A) : value A :=
  match at_keys (Dict d) (keys_of path) with
  | Some v => v
  | None => default
  end.

Section Update.

Context {A : Type}.

(** [unspecified a] is the test of [is_unspecified] on a value that is
    not a dictionary: whether it is None, NaN or an empty list; it
    raises where [pd.isna] gives an array without a truth value. *)
Variable unspecified : A -> result bool.

Definition is_unspecified (d : list (string * value A)) (path : string) : result bool :=
  match at_keys (Dict d) (keys_of path) with
  | None => Ok true
  | Some (Leaf a) => unspecified a
  | Some (Dict []) => Ok true
  | Some (Dict (_ :: _)) => Ok false
  end.

(** A value that [is_unspecified] finds specified. *)
Definition specified (x : value A) : Prop :=
  match x with
  | Leaf a => unspecified a = Ok false
  | Dict [] => False
  | Dict (_ :: _) => True
  end.

(** The walk of [update] along the keys; the last key is set. *)
Fixpoint update_keys (current_dict : list (string * value A)) (key : string)
    (keys : list string) (v : value A) (only_if_empty_or_none : bool)
  : result (list (string * value A)) :=
  match keys with
  | [] =>
      if only_if_empty_or_none then
        let* u := is_unspecified current_dict key in
        Ok (if u then dict_set current_dict key v else current_dict)
      else Ok (dict_set current_dict key v)
  | key' :: keys' =>
      let sub := match dict_lookup current_dict key with
                 | Some (Dict sub) => sub
                 | _ => []
                 end in
      let* sub' := update_keys sub key' keys' v only_if_empty_or_none in
      Ok (dict_set current_dict key (Dict sub'))
  end.

(** [update(d, path, value, only_if_empty_or_none)]: the dictionary
    that [d] is when the call returns. *)
Definition update (d : list (string * value A)) (path : string) (v : value A)
    (only_if_empty_or_none : bool) : result (list (string * value A)) :=
  match keys_of path with
  | key :: keys => update_keys d key keys v only_if_empty_or_none
  | [] => Raise IndexError
  end.

End Update.

End Config.

(** ** Dictionaries built from pairs ([dict_raise_on_duplicates] and
    [invert_mapping], base.py, lines 1293-1338 and 1592-1621) *)

Module Mapping.

Import Config.

Definition has_key {V : Type} (d : list (string * V)) (k : string) : bool :=
  existsb (fun kv => String.eqb (fst kv) k) d.

(** The loop of [dict_raise_on_duplicates] over the pairs, with the
    dictionary built so far. *)
Fixpoint raise_on_duplicates_from {V : Type} (d ordered_pairs : list (string * V))
  : result (list (string * V)) :=
  match ordered_pairs with
  | [] => Ok d
  | (k, v) :: rest =>
      if has_key d k then Raise ValueError
      else raise_on_duplicates_from (dict_set d k v) rest
  end.

Definition dict_raise_on_duplicates {V : Type} (ordered_pairs : list (string * V))
  : result (list (string * V)) :=
  raise_on_duplicates_from [] ordered_pairs.

(** The inner loop of [invert_mapping], over the values of one key. *)
Fixpoint invert_values (inverted_dict : list (string * string)) (key : string)
    (value_list : list string) : result (list (string * string)) :=
  match value_list with
  | [] => Ok inverted_dict
  | v :: value_list' =>
      if has_key inverted_dict v then Raise ValueError
      else invert_values (dict_set inverted_dict v key) key value_list'
  end.

Fixpoint invert_items (inverted_dict : list (string * string))
    (items : list (string * list string)) : result (list (string * string)) :=
  match items with
  | [] => Ok inverted_dict
  | (key, value_list) :: items' =>
      let* inverted_dict := invert_values inverted_dict key value_list in
      invert_items inverted_dict items'
  end.

(** [invert_mapping(original_dict)], for a dictionary from strings to
    lists of strings, given by its items. *)
Definition invert_mapping (original_dict : list (string * list string))
  : result (list (string * string)) :=
  invert_items [] original_dict.

(** The pairs (value, key) of a dictionary from keys to lists of
    values, in the order of the items. *)
Definition inverted_pairs (items : list (string * list string))
  : list (string * string) :=
  flat_map (fun item => map (fun v => (v, fst item)) (snd item)) items.

End Mapping.

(** ** Index conversion ([convert_to_SimpleIndex], base.py, lines
    705-772) and the header of a demand sample ([parse_header] in
    [DemandModel.load_sample], model.py, lines 159-193) *)

Module Index.

Import Frame Demand.

(** The number of levels of an index given by its labels. *)
Definition nlevels (labels : list label) : nat :=
  match labels with
  | [] => 0
  | l :: _ => List.length l
  end.

(** [convert_to_SimpleIndex(data, axis=1)]: the names of the columns
    after the call.  An index of one level is left as it is; the levels
    of a MultiIndex are joined with dashes. *)
Definition convert_to_SimpleIndex (labels : list label) : list string :=
  if (1 <? nlevels labels)%nat
  then map (fun id => String.concat "-" id) labels
  else map (level 0) labels.

(** [str(name).replace(' ', '')] *)
Fixpoint remove_blanks (s : string) : string :=
  match s with
  | EmptyString => EmptyString
  | String c s' =>
      if Ascii.eqb c " " then remove_blanks s' else String c (remove_blanks s')
  end.

(** [parse_header(raw_header)] for a header of [n] levels.  A level
    that the header does not have raises IndexError; [np.vectorize]
    raises ValueError on an array without elements. *)
Definition parse_header (n : nat) (raw_header : list label) : result (list label) :=
  let levels := if Nat.eqb n 4 then [1; 2; 3]%nat else [0; 1; 2]%nat in
  if negb (forallb (fun i => (i <? n)%nat) levels) then Raise IndexError
  else
    match raw_header with
    | [] => Raise ValueError
    | _ => Ok (map (fun l => map remove_blanks (project levels l)) raw_header)
    end.

End Index.

(** ** Damage model: the numbering of the damage states
    ([assign_lsds] in [DamageModel._create_dmg_RVs], model.py, lines
    1272-1310) and the damaged quantities
    ([DamageModel.prepare_dmg_quantities], lines 1679-1742) *)

Module Quantities.

Import Frame Demand Capacity.

(** The number of damage states of a limit state: one, or one per
    weight. *)
Definition ds_count (p : ls_params) : Z :=
  match DamageStateWeights p with
  | None => 1
  | Some ds_weights => Z.of_nat (List.length ds_weights)
  end.

(** The LS->DS variable of a limit state of a block whose damage states
    come after the damage state [ds_id]. *)
Definition lsds_RV (PG : label) (frg_params : list (string * ls_params))
    (block_i : nat) (ds_id : Z) (ls_id : string) : RandomVariable :=
  mkRV (rv_tag "LSDS" PG (block_i + 1) ls_id)
    (match DamageStateWeights (params_of frg_params ls_id) with
     | None => empirical (Value (Some (inject_Z (ds_id + 1))))
     | Some ds_weights => multinomial ds_weights (ds_id + 1)
     end).

(** The LS->DS variables of the limit states [ls] of a block, the
    damage states numbered one limit state after the other. *)
Fixpoint lsds_RVs (PG : label) (frg_params : list (string * ls_params))
    (block_i : nat) (ds_id : Z) (ls : list string) : list RandomVariable :=
  match ls with
  | [] => []
  | ls_id :: ls' =>
      lsds_RV PG frg_params block_i ds_id ls_id
      :: lsds_RVs PG frg_params block_i
           (ds_id + ds_count (params_of frg_params ls_id)) ls'
  end.

(** The damage states that a LS->DS variable can pick: the first one
    and their number. *)
Definition picks (rv : RandomVariable) : option (Z * Z) :=
  match dist rv with
  | empirical (Value (Some v)) => Some (Qfloor v, 1%Z)
  | multinomial theta f_map_offset => Some (f_map_offset, Z.of_nat (List.length theta))
  | _ => None
  end.

(** Picks that follow one another: the first damage state of each
    variable is the one after the last damage state of the variable
    before it, the first of all being [first]. *)
Fixpoint consecutive_from (first : Z) (l : list (option (Z * Z))) : Prop :=
  match l with
  | [] => True
  | Some (start, count) :: l' =>
      start = first /\ (0 <= count)%Z /\ consecutive_from (first + count) l'
  | None :: _ => False
  end.

(** [np.unique(values)]: the distinct values in increasing order. *)
Fixpoint insert_unique (z : Z) (l : list Z) : list Z :=
  match l with
  | [] => [z]
  | y :: l' =>
      if (z <? y)%Z then z :: l
      else if (z =? y)%Z then l
      else y :: insert_unique z l'
  end.

Definition np_unique (l : list Z) : list Z := fold_right insert_unique [] l.

(** The weight of the block of the column [c] of [dmg_ds]: the
    quantities of the blocks '1', '2', ... are set from the weights in
    turn; a column of another name keeps the quantity zero. *)
Fixpoint block_weight (weights : list Q) (block_id : Z) (c : label) : Q :=
  match weights with
  | [] => 0
  | w :: weights' =>
      if label_eqb c [str_of_int block_id] then w
      else block_weight weights' (block_id + 1) c
  end.

(** The damaged quantity of one realization in the damage state
    [ds_i]: the sum of the quantities of the blocks that are in that
    damage state. *)
Definition quantity_in (ds_i : Z) (ds_row : list Z) (qnt_row : list Q) : Q :=
  Qsum (List.concat (map (fun dq : Z * Q => if (fst dq =? ds_i)%Z then [snd dq] else [])
                       (combine ds_row qnt_row))).

Section Prepare.

(** [format_g ds_i] is the string [f'{ds_i:g}'] that names the column
    of a damage state. *)
Variable format_g : Z -> string.

(** [prepare_dmg_quantities(PG, ds_sample, dropzero, dropempty)], for
    the component sample of the asset model and the weights of the
    blocks of the performance group ([1/n] each when the number [n] of
    blocks is given).  An array of quantities of another length than
    the sample cannot be assigned to a column; without a block no
    quantity is assigned and all the quantities are zero.  The sums over the
    blocks are never undefined, so [dropempty] drops nothing; without a
    damage state of interest the result is not bound when it is
    returned. *)
Definition prepare_dmg_quantities (cmp_sample : DataFrame Q) (weights : list Q)
    (PG : label) (ds_sample : DataFrame Z) (dropzero dropempty : bool)
  : result (DataFrame Q) :=
  let* dmg_ds := loc_partial PG ds_sample in
  let* cmp_qnt := getitem_full PG cmp_sample in
  let* cmp_qnt :=
    match weights with
    | [] => Ok (map (fun _ => 0) (values dmg_ds))
    | _ =>
        if Nat.eqb (List.length cmp_qnt) (List.length (values dmg_ds))
        then Ok cmp_qnt else Raise ValueError
    end in
  let dmg_qnt :=
    map (fun q => map (fun c => q * block_weight weights 1 c) (columns dmg_ds))
      cmp_qnt in
  let ds_list := np_unique (List.concat (values dmg_ds)) in
  let ds_list := if dropzero then filter (fun ds => negb (ds =? 0)%Z) ds_list
                 else ds_list in
  match ds_list with
  | [] => Raise NameError
  | _ =>
      Ok (mkDF (map (fun ds_i => [format_g ds_i]) ds_list)
            (map (fun r : list Z * list Q =>
                    map (fun ds_i => quantity_in ds_i (fst r) (snd r)) ds_list)
               (combine (values dmg_ds) dmg_qnt)))
  end.

End Prepare.

End Quantities.

(** * Properties *)

(** ** Comparisons *)

Lemma Qltb_true x y : Qltb x y = true <-> x < y.
Proof.
  unfold Qltb. rewrite negb_true_iff. split; intro H.
  - apply Qnot_le_lt. intro L. apply Qle_bool_iff in L. congruence.
  - destruct (Qle_bool y x) eqn:E; [|reflexivity].
    apply Qle_bool_iff in E. exfalso. exact (Qlt_not_le _ _ H E).
Qed.

Lemma Qltb_false x y : Qltb x y = false <-> y <= x.
Proof.
  unfold Qltb. rewrite negb_false_iff. apply Qle_bool_iff.
Qed.

Lemma Qle_bool_false x y : Qle_bool x y = false <-> y < x.
Proof.
  split; intro H.
  - apply Qnot_le_lt. intro L. apply Qle_bool_iff in L. congruence.
  - destruct (Qle_bool x y) eqn:E; [|reflexivity].
    apply Qle_bool_iff in E. exfalso. exact (Qlt_not_le _ _ H E).
Qed.

(** ** Median consequence functions *)

Lemma last_cons_default {A : Type} (a b : A) (l : list A) :
  last (a :: l) b = last l a.
Proof.
  revert a b. induction l as [|c l IH]; intros a b; [reflexivity|].
  change (last (a :: c :: l) b) with (last (c :: l) b).
  rewrite (IH c b), (IH c a). reflexivity.
Qed.

Lemma increasing_from_le_last x0 xs :
  MedianDV.increasing_from x0 xs -> x0 <= last xs x0.
Proof.
  revert x0. induction xs as [|x1 xs IH]; intros x0 H.
  - apply Qle_refl.
  - destruct H as [H01 H]. specialize (IH x1 H).
    rewrite last_cons_default.
    apply Qle_trans with x1; [apply Qlt_le_weak|]; assumption.
Qed.

Lemma interp_search_on_polyline xp : forall fp x0 y0 x,
  List.length xp = List.length fp ->
  MedianDV.increasing_from x0 xp ->
  x0 <= x -> x <= last xp x0 ->
  MedianDV.on_polyline (x0 :: xp) (y0 :: fp) x
    (MedianDV.interp_search x xp fp x0 y0).
Proof.
  induction xp as [|x1 xp IH]; intros fp x0 y0 x Hlen Hinc Hlo Hhi.
  - simpl in *. apply MedianDV.on_vertex; [|reflexivity].
    apply Qle_antisym; assumption.
  - destruct fp as [|y1 fp]; [discriminate|].
    destruct Hinc as [H01 Hinc]. simpl.
    destruct (Qltb x x1) eqn:Elt.
    + apply Qltb_true in Elt.
      destruct (Qeq_bool x0 x) eqn:Eeq.
      * apply Qeq_bool_iff in Eeq.
        apply MedianDV.on_vertex; [symmetry; assumption|reflexivity].
      * apply MedianDV.on_segment; auto.
        -- apply Qlt_le_weak; assumption.
        -- field. intro Hz. lra.
    + apply Qltb_false in Elt.
      apply MedianDV.on_later. apply IH; auto.
      rewrite <- (last_cons_default x1 x0 xp). exact Hhi.
Qed.

(** C8.  The function returned by [prep_bounded_multilinear_median_DV]
    interpolates the control points linearly for a quantity inside their
    range, returns the first median below the range and the last median
    above it; the function returned by [prep_constant_median_DV] returns
    its median for every quantity. *)
Theorem median_DV_functions (medians quantities : list Q) (q : Q)
    (Hlen : List.length medians = List.length quantities)
    (Hne : quantities <> [])
    (Hinc : MedianDV.increasing quantities) :
  (hd 0 quantities <= q -> q <= last quantities 0 ->
   exists v,
     MedianDV.prep_bounded_multilinear_median_DV medians quantities (Some q) = Ok v
     /\ MedianDV.on_polyline quantities medians q v)
  /\ (q < hd 0 quantities ->
      MedianDV.prep_bounded_multilinear_median_DV medians quantities (Some q)
      = Ok (hd 0 medians))
  /\ (last quantities 0 < q ->
      MedianDV.prep_bounded_multilinear_median_DV medians quantities (Some q)
      = Ok (last medians 0))
  /\ (forall median quantity,
      MedianDV.prep_constant_median_DV median quantity = median).
Proof.
  destruct quantities as [|x0 xp]; [congruence|].
  destruct medians as [|y0 fp]; [discriminate|].
  simpl in Hlen. injection Hlen as Hlen. simpl in Hinc.
  pose proof (increasing_from_le_last x0 xp Hinc) as Hlast.
  unfold MedianDV.prep_bounded_multilinear_median_DV, MedianDV.np_interp.
  rewrite <- Hlen, Nat.eqb_refl. simpl negb. cbv iota.
  rewrite !last_cons_default. simpl hd.
  repeat split.
  - intros Hlo Hhi.
    assert (E1 : Qltb (last xp x0) q = false) by (apply Qltb_false; assumption).
    assert (E2 : Qltb q x0 = false) by (apply Qltb_false; assumption).
    rewrite E1, E2. eexists; split; [reflexivity|].
    apply interp_search_on_polyline; auto.
  - intros Hlo.
    assert (E1 : Qltb (last xp x0) q = false).
    { apply Qltb_false. apply Qlt_le_weak. apply Qlt_le_trans with x0; assumption. }
    assert (E2 : Qltb q x0 = true) by (apply Qltb_true; assumption).
    rewrite E1, E2. reflexivity.
  - intros Hhi.
    assert (E1 : Qltb (last xp x0) q = true) by (apply Qltb_true; assumption).
    rewrite E1. reflexivity.
Qed.

Lemma median_DV_functions_witness :
  exists v,
    MedianDV.prep_bounded_multilinear_median_DV [10; 30] [1; 3] (Some 2) = Ok v
    /\ MedianDV.on_polyline [1; 3] [10; 30] 2 v.
Proof.
  refine (proj1 (median_DV_functions [10; 30] [1; 3] 2 _ _ _) _ _).
  - reflexivity.
  - discriminate.
  - simpl. split; [reflexivity | exact I].
  - simpl. discriminate.
  - simpl. discriminate.
Defined.

(** ** Residual drift *)

Section RIDFacts.

Variable exp_log_plus : Q -> Q -> Q.
Variable eps : nat -> nat -> Q.

Lemma estimate_RID_cell_ok (yd pid e : Q) :
  0 < yd -> RID.RID_cell_ok yd (RID.estimate_RID_cell exp_log_plus yd pid e) pid.
Proof.
  intros Hyd. unfold RID.RID_cell_ok, RID.estimate_RID_cell.
  split; [apply Q.le_min_l|].
  split.
  - intros Hpos Hsmall.
    assert (E : Qltb pid yd = true) by (apply Qltb_true; assumption).
    rewrite E.
    assert (E0 : Qltb 0 0 = false) by reflexivity.
    rewrite E0. apply Q.min_r. assumption.
  - intros Hneg.
    assert (E : Qltb pid yd = true) by (apply Qltb_true; lra).
    rewrite E.
    assert (E0 : Qltb 0 0 = false) by reflexivity.
    rewrite E0. apply Q.min_l. apply Qlt_le_weak. assumption.
Qed.

Lemma estimate_RID_row_ok (yd : Q) (row : list Q) : forall i j,
  0 < yd ->
  Forall2 (RID.RID_cell_ok yd) (RID.estimate_RID_row exp_log_plus eps yd i j row) row.
Proof.
  induction row as [|pid row IH]; intros i j Hyd; simpl; constructor.
  - apply estimate_RID_cell_ok; assumption.
  - apply IH; assumption.
Qed.

Lemma estimate_RID_rows_ok (yd : Q) (PID : list (list Q)) : forall i,
  0 < yd ->
  Forall2 (Forall2 (RID.RID_cell_ok yd))
    (RID.estimate_RID_rows exp_log_plus eps yd i PID) PID.
Proof.
  induction PID as [|row PID IH]; intros i Hyd; simpl; constructor.
  - apply estimate_RID_row_ok; assumption.
  - apply IH; assumption.
Qed.

(** C9 (amended).  With method 'FEMA P58' and a positive yield drift,
    [estimate_RID] returns a table of the shape of PID whose every cell is
    at most the peak drift of that cell, is 0 where the peak drift is
    non-negative and below the yield drift, and is the peak drift itself
    where the peak drift is negative. *)
Theorem estimate_RID_bounded (PID : list (list Q)) (params : list (string * Q))
    (yield_drift : Q)
    (Hparam : dict_get params "yield_drift" = Ok yield_drift)
    (Hpos : 0 < yield_drift) :
  exists res,
    RID.estimate_RID exp_log_plus eps PID params "FEMA P58" = Ok (Some res)
    /\ Forall2 (Forall2 (RID.RID_cell_ok yield_drift)) res PID.
Proof.
  unfold RID.estimate_RID. rewrite String.eqb_refl, Hparam. simpl.
  eexists; split; [reflexivity|].
  apply estimate_RID_rows_ok; assumption.
Qed.

End RIDFacts.

Lemma estimate_RID_bounded_witness :
  exists res,
    RID.estimate_RID (fun r e => r * (1 + e * e)) (fun i j => 1 # 5)
      [[1 # 200; 3 # 100]; [1 # 10; 0]] [("yield_drift", 1 # 100)] "FEMA P58"
    = Ok (Some res)
    /\ Forall2 (Forall2 (RID.RID_cell_ok (1 # 100))) res
         [[1 # 200; 3 # 100]; [1 # 10; 0]].
Proof.
  apply (estimate_RID_bounded (fun r e => r * (1 + e * e)) (fun i j => 1 # 5)
           [[1 # 200; 3 # 100]; [1 # 10; 0]] [("yield_drift", 1 # 100)] (1 # 100)).
  - reflexivity.
  - reflexivity.
Defined.

(** C9 as stated fails for a negative peak drift: the cell is below the
    yield drift, and the value returned is the peak drift, not 0. *)
Lemma estimate_RID_negative_drift_not_zero :
  exists rid,
    RID.estimate_RID (fun r e => r) (fun i j => 0)
      [[- (1)]] [("yield_drift", 1 # 100)] "FEMA P58" = Ok (Some [[rid]])
    /\ 0 < 1 # 100
    /\ - (1) < 1 # 100
    /\ ~ rid == 0.
Proof.
  eexists. split; [reflexivity|].
  split; [reflexivity|]. split; [reflexivity|].
  vm_compute. discriminate.
Qed.

(** ** Tables *)

Section FrameFacts.

Import Frame.

Lemma label_eqb_eq (a b : label) : label_eqb a b = true <-> a = b.
Proof.
  revert b. induction a as [|x a IH]; intros [|y b]; simpl;
    try (split; [discriminate | congruence]); [tauto|].
  rewrite andb_true_iff, String.eqb_eq, IH.
  split; [intros [-> ->]; reflexivity | intros E; injection E; auto].
Qed.

Lemma label_eqb_refl (a : label) : label_eqb a a = true.
Proof. apply label_eqb_eq. reflexivity. Qed.

Lemma label_eqb_neq (a b : label) : label_eqb a b = false <-> a <> b.
Proof.
  rewrite <- label_eqb_eq. destruct (label_eqb a b); split; congruence.
Qed.

Lemma mem_In (k : label) (l : list label) : mem k l = true <-> In k l.
Proof.
  induction l as [|k' l IH]; simpl; [split; [discriminate | tauto]|].
  rewrite orb_true_iff, label_eqb_eq, IH. split; intros [H|H]; auto.
Qed.

Lemma mem_false (k : label) (l : list label) : mem k l = false <-> ~ In k l.
Proof.
  rewrite <- mem_In. destruct (mem k l); split; congruence.
Qed.

Lemma unique_from_In (l : list label) : forall seen k,
  In k (unique_from seen l) <-> In k l /\ ~ In k seen.
Proof.
  induction l as [|x l IH]; intros seen k; simpl; [tauto|].
  destruct (mem x seen) eqn:E.
  - apply mem_In in E. rewrite IH. split.
    + intros [H1 H2]; auto.
    + intros [[-> | H1] H2]; [contradiction | auto].
  - apply mem_false in E. simpl. rewrite IH. simpl. split.
    + intros [-> | [H1 H2]]; auto.
    + intros [[-> | H1] H2]; auto.
      destruct (list_eq_dec string_dec x k) as [->|N]; auto.
      right. split; auto. intros [?|?]; auto.
Qed.

Lemma unique_from_NoDup (l : list label) : forall seen,
  NoDup (unique_from seen l).
Proof.
  induction l as [|x l IH]; intros seen; simpl; [constructor|].
  destruct (mem x seen); [apply IH|].
  constructor; [|apply IH].
  rewrite unique_from_In. simpl. intros [_ H]. apply H. auto.
Qed.

Lemma unique_In (l : list label) (k : label) : In k (unique l) <-> In k l.
Proof. unfold unique. rewrite unique_from_In. simpl. tauto. Qed.

Lemma unique_NoDup (l : list label) : NoDup (unique l).
Proof. apply unique_from_NoDup. Qed.

Lemma insert_sorted_perm (k : label) (l : list label) :
  Permutation (insert_sorted k l) (k :: l).
Proof.
  induction l as [|k' l IH]; simpl; [apply Permutation_refl|].
  destruct (label_leb k k'); [apply Permutation_refl|].
  apply Permutation_trans with (k' :: k :: l);
    [apply perm_skip; exact IH | apply perm_swap].
Qed.

Lemma sort_perm (l : list label) : Permutation (sort l) l.
Proof.
  induction l as [|k l IH]; simpl; [apply Permutation_refl|].
  apply Permutation_trans with (k :: sort l);
    [apply insert_sorted_perm | apply perm_skip; exact IH].
Qed.

Lemma group_keys_In (levels : list nat) (cols : list label) (k : label) :
  In k (group_keys levels cols) <-> In k (map (project levels) cols).
Proof.
  unfold group_keys. rewrite <- (unique_In (map (project levels) cols)).
  split; intro H.
  - apply (Permutation_in k (sort_perm _)). exact H.
  - apply (Permutation_in k (Permutation_sym (sort_perm _))). exact H.
Qed.

Lemma group_keys_NoDup (levels : list nat) (cols : list label) :
  NoDup (group_keys levels cols).
Proof.
  unfold group_keys.
  apply (Permutation_NoDup (Permutation_sym (sort_perm _))).
  apply unique_NoDup.
Qed.

(** Selecting by label, in a row computed label by label, the one column
    of a duplicate-free index. *)
Lemma cells_where_key {A : Type} (f : label -> A) (k : label) (keys : list label) :
  NoDup keys -> In k keys ->
  cells_where (fun c => label_eqb c k) keys (map f keys) = [f k].
Proof.
  induction keys as [|k' keys IH]; intros Hnd Hin; [destruct Hin|].
  inversion Hnd as [|? ? Hnotin Hnd']; subst. simpl.
  destruct (label_eqb k' k) eqn:E.
  - apply label_eqb_eq in E. subst k'. f_equal.
    clear IH Hin Hnd Hnd'. induction keys as [|k2 keys IH]; [reflexivity|].
    simpl. destruct (label_eqb k2 k) eqn:E2.
    + apply label_eqb_eq in E2. subst. exfalso. apply Hnotin. left. reflexivity.
    + apply IH. intro H. apply Hnotin. right. exact H.
  - apply label_eqb_neq in E. destruct Hin as [Hin|Hin]; [congruence|].
    apply IH; assumption.
Qed.

Lemma cells_where_ext {A : Type} (p q : label -> bool) (cols : list label) :
  forall row : list A,
  (forall c, In c cols -> p c = q c) ->
  cells_where p cols row = cells_where q cols row.
Proof.
  induction cols as [|c cols IH]; intros row H; [reflexivity|].
  destruct row as [|v row]; [reflexivity|]. simpl.
  rewrite (H c (or_introl eq_refl)), (IH row); [reflexivity|].
  intros c' Hc'. apply H. right. exact Hc'.
Qed.

Lemma map_combine_map {A B C : Type} (g : A -> B) (f : B * A -> C) (l : list A) :
  map f (combine (map g l) l) = map (fun x => f (g x, x)) l.
Proof.
  induction l as [|a l IH]; simpl; [reflexivity|]. rewrite IH. reflexivity.
Qed.

End FrameFacts.

(** ** Replacement override *)

Section ReplacementFacts.

Import Frame Loss.

Lemma Qltb_compat (a x y : Q) : x == y -> Qltb a x = Qltb a y.
Proof.
  intro E. destruct (Qltb a y) eqn:Hy.
  - apply Qltb_true. apply Qltb_true in Hy. rewrite E. exact Hy.
  - apply Qltb_false. apply Qltb_false in Hy. rewrite E. exact Hy.
Qed.

Lemma cells_where_none {A : Type} (p : label -> bool) (cols : list label) :
  forall row : list A,
  (forall c, In c cols -> p c = false) -> cells_where p cols row = [].
Proof.
  induction cols as [|c cols IH]; intros row H; [reflexivity|].
  destruct row as [|v row]; [reflexivity|]. simpl.
  rewrite (H c (or_introl eq_refl)). apply IH.
  intros c' Hc'. apply H. right. exact Hc'.
Qed.

Lemma project1_replacement (c : label) :
  label_eqb (project [1%nat] c) ["replacement"]
  = String.eqb (level 1 c) "replacement".
Proof.
  unfold project, level. simpl. apply andb_true_r.
Qed.

(** The location levels the override writes to are the ones other
    than '0'. *)
Lemma override_locs (cols : list label) (c : label) :
  In c cols ->
  mem [level 4 c]
    (filter (fun l => negb (label_eqb l ["0"]))
       (unique (map (fun c => [level 4 c]) cols)))
  = negb (String.eqb (level 4 c) "0").
Proof.
  intro Hc.
  destruct (String.eqb (level 4 c) "0") eqn:E; simpl.
  - apply mem_false. rewrite filter_In. intros [_ H].
    apply String.eqb_eq in E. rewrite E in H. discriminate.
  - apply mem_In. rewrite filter_In. split.
    + apply unique_In. apply in_map_iff. exists c. auto.
    + simpl. rewrite E. reflexivity.
Qed.

(** What the override does to one realization. *)
Lemma replacement_override_values (DV : DataFrame Q) :
  values (replacement_override DV)
  = map (fun row =>
           if Qltb 0 (replacement_total (columns DV) row) then
             map (fun cv : label * Q =>
                    if String.eqb (level 4 (fst cv)) "0" then snd cv else 0)
               (combine (columns DV) row)
           else row)
      (values DV).
Proof.
  unfold replacement_override.
  destruct (mem ["replacement"] (columns (groupby_sum [1%nat] DV))) eqn:Hmem.
  - cbn [values columns groupby_sum] in *.
    rewrite map_map, map_combine_map. apply map_ext. intro row. cbn [fst snd].
    apply mem_In in Hmem.
    rewrite (cells_where_key _ _ _ (group_keys_NoDup _ _) Hmem).
    assert (E : Qltb 0 (Qsum [Qsum (cells_where
                  (fun c => label_eqb (project [1%nat] c) ["replacement"])
                  (columns DV) row)])
                = Qltb 0 (replacement_total (columns DV) row)).
    { apply Qltb_compat. unfold replacement_total. simpl.
      rewrite (cells_where_ext _ (fun c => String.eqb (level 1 c) "replacement"));
        [ring | intros; apply project1_replacement]. }
    rewrite E. destruct (Qltb 0 (replacement_total (columns DV) row)); [|reflexivity].
    assert (G : forall cols' row',
               (forall c, In c cols' -> In c (columns DV)) ->
               map (fun cv : label * Q =>
                      if mem [level 4 (fst cv)]
                           (filter (fun l => negb (label_eqb l ["0"]))
                              (unique (map (fun c => [level 4 c]) (columns DV))))
                      then 0 else snd cv) (combine cols' row')
               = map (fun cv : label * Q =>
                        if String.eqb (level 4 (fst cv)) "0" then snd cv else 0)
                   (combine cols' row')).
    { induction cols' as [|c cols' IH]; intros row' Hsub; [reflexivity|].
      destruct row' as [|v row']; [reflexivity|]. simpl.
      rewrite override_locs by (apply Hsub; left; reflexivity).
      rewrite IH by (intros; apply Hsub; right; assumption).
      destruct (String.eqb (level 4 c) "0"); reflexivity. }
    apply G. auto.
  - cbn [values columns groupby_sum] in *.
    apply mem_false in Hmem. rewrite group_keys_In in Hmem.
    rewrite <- (map_id (values DV)) at 1. apply map_ext. intro row.
    assert (E : replacement_total (columns DV) row = 0).
    { unfold replacement_total. rewrite cells_where_none; [reflexivity|].
      intros c Hc. rewrite <- project1_replacement.
      apply label_eqb_neq. intro Heq. apply Hmem.
      apply in_map_iff. exists c. auto. }
    rewrite E. reflexivity.
Qed.

Lemma replacement_override_columns (DV : DataFrame Q) :
  columns (replacement_override DV) = columns DV.
Proof.
  unfold replacement_override.
  destruct (mem ["replacement"] (columns (groupby_sum [1%nat] DV))); reflexivity.
Qed.

(** C4.  After the replacement override, a realization whose summed
    'replacement' consequence is positive has 0 in every cell whose
    location level is not '0' and keeps its cells at location '0'; any
    other realization is unchanged.  The columns of the sample stay as
    they are. *)
Theorem replacement_override_spec (DV : DataFrame Q) (Hwf : well_formed DV) :
  columns (replacement_override DV) = columns DV
  /\ Forall2
       (fun row row' =>
          List.length row' = List.length row
          /\ (~ 0 < replacement_total (columns DV) row -> row' = row)
          /\ (0 < replacement_total (columns DV) row ->
              forall j c v v',
                nth_error (columns DV) j = Some c ->
                nth_error row j = Some v ->
                nth_error row' j = Some v' ->
                (level 4 c <> "0" -> v' = 0) /\ (level 4 c = "0" -> v' = v)))
       (values DV) (values (replacement_override DV)).
Proof.
  split; [apply replacement_override_columns|].
  rewrite replacement_override_values.
  unfold well_formed in Hwf. revert Hwf.
  generalize (columns DV) as cols. intro cols.
  induction (values DV) as [|row rows IH]; intro Hwf; simpl; constructor.
  - inversion Hwf as [|? ? Hlen _]; subst.
    destruct (Qltb 0 (replacement_total cols row)) eqn:E.
    + apply Qltb_true in E. split; [|split].
      * rewrite length_map, length_combine, Hlen. apply Nat.min_id.
      * intro N. contradiction.
      * intros _. clear E Hlen Hwf IH. revert row.
        induction cols as [|c0 cols IHc]; intros row j c v v' Hc Hv Hv'.
        -- destruct j; discriminate.
        -- destruct row as [|v0 row]; [destruct j; discriminate|].
           destruct j as [|j]; simpl in *.
           ++ injection Hc as <-. injection Hv as <-. injection Hv' as <-.
              destruct (String.eqb (level 4 c0) "0") eqn:E0.
              ** apply String.eqb_eq in E0. split; [congruence | reflexivity].
              ** apply String.eqb_neq in E0. split; [reflexivity | congruence].
           ++ apply (IHc row j c v v'); assumption.
    + apply Qltb_false in E. split; [reflexivity|]. split; [reflexivity|].
      intro P. exfalso. exact (Qlt_not_le _ _ P E).
  - apply IH. inversion Hwf; assumption.
Qed.

End ReplacementFacts.

Lemma replacement_override_spec_witness :
  Frame.columns (Loss.replacement_override Loss.DV_example)
  = Frame.columns Loss.DV_example
  /\ Frame.values (Loss.replacement_override Loss.DV_example)
     = [ [100; 0; 0]; [0; 5; 2] ].
Proof.
  split.
  - apply (proj1 (replacement_override_spec Loss.DV_example
                    ltac:(repeat constructor))).
  - reflexivity.
Defined.

(** ** Loss aggregation *)

Section AggregateFacts.

Import Frame Loss.

Lemma Qsum_nonneg (l : list Q) : Forall (fun v => 0 <= v) l -> 0 <= Qsum l.
Proof.
  induction 1 as [|v l Hv _ IH]; simpl; [apply Qle_refl|].
  change 0 with (0 + 0). apply Qplus_le_compat; assumption.
Qed.

Lemma cells_where_Forall {A : Type} (P : A -> Prop) (p : label -> bool)
    (cols : list label) : forall row : list A,
  Forall P row -> Forall P (cells_where p cols row).
Proof.
  induction cols as [|c cols IH]; intros row H; [constructor|].
  destruct row as [|v row]; [constructor|]. simpl.
  inversion H; subst. destruct (p c); [constructor|]; auto.
Qed.

Lemma cells_where_map {A : Type} (p : label -> bool) (f : label -> A)
    (keys : list label) :
  cells_where p keys (map f keys) = map f (filter p keys).
Proof.
  induction keys as [|k keys IH]; [reflexivity|]. simpl.
  destruct (p k); simpl; rewrite IH; reflexivity.
Qed.

Lemma fold_left_Qmax_le (l : list Q) : forall x,
  0 <= x -> Forall (fun v => 0 <= v) l -> fold_left Qmax l x <= x + Qsum l.
Proof.
  induction l as [|v l IH]; intros x Hx H; simpl.
  - rewrite Qplus_0_r. apply Qle_refl.
  - inversion H as [|? ? Hv Hl]; subst.
    apply Qle_trans with (Qmax x v + Qsum l).
    + apply IH; [|assumption].
      apply Qle_trans with x; [assumption | apply Q.le_max_l].
    + assert (Qmax x v <= x + v).
      { apply Q.max_lub; lra. }
      lra.
Qed.

Lemma Qmax_list_le_Qsum (l : list Q) :
  Forall (fun v => 0 <= v) l -> Qmax_list l <= Qsum l.
Proof.
  destruct l as [|x l]; intro H; [apply Qle_refl|].
  inversion H; subst. simpl. apply fold_left_Qmax_le; assumption.
Qed.

(** The sum over a duplicate-free list of group keys [ks] of the group
    sums is the sum of the cells whose key is in [ks]. *)
Lemma Qsum_groups (key : label -> label) (ks : list label) (Hnd : NoDup ks)
    (cols : list label) : forall row : list Q,
  Qsum (map (fun k => Qsum (cells_where (fun c => label_eqb (key c) k) cols row)) ks)
  == Qsum (cells_where (fun c => mem (key c) ks) cols row).
Proof.
  induction cols as [|c cols IH]; intros row.
  - simpl. clear Hnd. induction ks as [|k ks IHk]; simpl; [reflexivity|].
    rewrite IHk. ring.
  - destruct row as [|v row].
    + simpl. clear. induction ks as [|k ks IHk]; simpl; [reflexivity|].
      rewrite IHk. ring.
    + cbn [cells_where].
      assert (E : Qsum (map (fun k => Qsum (if label_eqb (key c) k
                          then v :: cells_where (fun c0 => label_eqb (key c0) k) cols row
                          else cells_where (fun c0 => label_eqb (key c0) k) cols row)) ks)
                  == (if mem (key c) ks then v else 0)
                     + Qsum (map (fun k => Qsum (cells_where
                               (fun c0 => label_eqb (key c0) k) cols row)) ks)).
      { clear IH. induction Hnd as [|k ks Hnotin Hnd IHk]; simpl; [ring|].
        rewrite IHk. destruct (label_eqb (key c) k) eqn:Ek; simpl.
        - apply label_eqb_eq in Ek. subst k.
          apply mem_false in Hnotin. rewrite Hnotin. ring.
        - ring. }
      rewrite E, IH. destruct (mem (key c) ks); simpl; ring.
Qed.

Lemma combine_map_map {A B C : Type} (f : A -> B) (g : A -> C) (l : list A) :
  combine (map f l) (map g l) = map (fun x => (f x, g x)) l.
Proof.
  induction l as [|a l IH]; simpl; [reflexivity|]. rewrite IH. reflexivity.
Qed.

(** [DVG[dv]] exists as soon as one column of the sample has the
    decision-variable level [dv]. *)
Lemma getitem_groupby (dv : string) (DV : DataFrame Q) :
  (exists c, In c (columns DV) /\ level 0 c = dv) ->
  let p := fun c : label => match c with k :: _ => String.eqb k dv | [] => false end in
  getitem dv (groupby_sum [0%nat; 4%nat] DV)
  = Ok (mkDF (map (@tl string) (filter p (group_keys [0%nat; 4%nat] (columns DV))))
          (map (fun row => cells_where p (group_keys [0%nat; 4%nat] (columns DV)) row)
             (values (groupby_sum [0%nat; 4%nat] DV)))).
Proof.
  intros [c [Hc Hdv]] p. unfold getitem.
  change (columns (groupby_sum [0%nat; 4%nat] DV))
    with (group_keys [0%nat; 4%nat] (columns DV)).
  fold p.
  destruct (filter p (group_keys [0%nat; 4%nat] (columns DV))) eqn:E; [|reflexivity].
  exfalso.
  assert (Hin : In (project [0%nat; 4%nat] c)
                  (filter p (group_keys [0%nat; 4%nat] (columns DV)))).
  { apply filter_In. split.
    - apply group_keys_In. apply in_map. exact Hc.
    - unfold p, project. simpl. fold (level 0 c). rewrite Hdv. apply String.eqb_refl. }
  rewrite E in Hin. destruct Hin.
Qed.

(** The total of the groups of one decision variable is the total of
    its cells. *)
Lemma group_total (dv : string) (cols : list label) (row : list Q) :
  let p := fun c : label => match c with k :: _ => String.eqb k dv | [] => false end in
  let keys := group_keys [0%nat; 4%nat] cols in
  Qsum (cells_where p keys
          (map (fun k => Qsum (cells_where
                  (fun c => label_eqb (project [0%nat; 4%nat] c) k) cols row)) keys))
  == dv_total dv cols row.
Proof.
  intros p keys. rewrite cells_where_map.
  rewrite (Qsum_groups (project [0%nat; 4%nat]) (filter p keys)).
  - unfold dv_total.
    assert (G : forall cols' (row' : list Q), (forall c, In c cols' -> In c cols) ->
              cells_where (fun c => mem (project [0%nat; 4%nat] c) (filter p keys))
                cols' row'
              = cells_where (fun c => String.eqb (level 0 c) dv) cols' row').
    { intros cols' row' Hsub. apply cells_where_ext. intros c Hc.
      destruct (String.eqb (level 0 c) dv) eqn:E.
      - apply mem_In. apply filter_In. split.
        + apply group_keys_In. apply in_map. apply Hsub. exact Hc.
        + exact E.
      - apply mem_false. rewrite filter_In. intros [_ H].
        unfold p, project in H. simpl in H. unfold level in E. congruence. }
    rewrite G by auto. reflexivity.
  - apply NoDup_filter. apply group_keys_NoDup.
Qed.

End AggregateFacts.

(** ** Required demands *)

Section DemandFacts.

Import Frame Demand.

Lemma int_of_float_Z (q : Q) (z : Z) : q == inject_Z z -> int_of_float q = z.
Proof.
  intro E. unfold int_of_float.
  destruct (Qle_bool 0 q).
  - rewrite E. apply Qfloor_Z.
  - rewrite E. apply Qceiling_Z.
Qed.

Lemma Qmax_cases (x y : Q) : (Qmax x y = x /\ y <= x) \/ (Qmax x y = y /\ x <= y).
Proof.
  unfold Qmax, GenericMinMax.gmax.
  destruct (x ?= y) eqn:E.
  - left. split; [reflexivity|]. apply Qeq_alt in E. rewrite E. apply Qle_refl.
  - right. split; [reflexivity|]. apply Qlt_alt in E. apply Qlt_le_weak. exact E.
  - left. split; [reflexivity|]. apply Qgt_alt in E. apply Qlt_le_weak. exact E.
Qed.

Lemma fold_left_Qmax_is_max (l : list Q) : forall x,
  is_max (fold_left Qmax l x) (x :: l).
Proof.
  induction l as [|v l IH]; intros x; simpl.
  - split; [left; reflexivity | constructor; [apply Qle_refl | constructor]].
  - destruct (IH (Qmax x v)) as [Hin Hall].
    inversion Hall as [|? ? Hm Hl]; subst.
    destruct (Qmax_cases x v) as [[E Hle]|[E Hle]]; rewrite E in *.
    + split.
      * destruct Hin as [<- | Hin]; [left; reflexivity | right; right; exact Hin].
      * constructor; [exact Hm|]. constructor; [|exact Hl].
        apply Qle_trans with x; assumption.
    + split.
      * destruct Hin as [<- | Hin]; [right; left; reflexivity | right; right; exact Hin].
      * constructor; [|constructor; [exact Hm | exact Hl]].
        apply Qle_trans with v; assumption.
Qed.

Lemma Qmax_list_is_max (l : list Q) : l <> [] -> is_max (Qmax_list l) l.
Proof.
  destruct l as [|x l]; [congruence|]. intros _. apply fold_left_Qmax_is_max.
Qed.

Lemma cells_where_nonempty {A : Type} (p : label -> bool) (cols : list label) :
  forall row : list A,
  List.length row = List.length cols ->
  (exists c, In c cols /\ p c = true) ->
  cells_where p cols row <> [].
Proof.
  induction cols as [|c cols IH]; intros row Hlen [c' [Hin Hp]]; [destruct Hin|].
  destruct row as [|v row]; [discriminate|]. simpl.
  destruct (p c) eqn:E; [discriminate|].
  destruct Hin as [-> | Hin]; [congruence|].
  apply IH; [simpl in Hlen; congruence | exists c'; auto].
Qed.

Lemma loc_partial_found {A : Type} (key : label) (df : DataFrame A) :
  (exists c, In c (columns df) /\ is_prefix key c = true) ->
  loc_partial key df
  = Ok (mkDF (map (skipn (List.length key)) (filter (is_prefix key) (columns df)))
          (map (fun row => cells_where (is_prefix key) (columns df) row) (values df))).
Proof.
  intros [c [Hc Hp]]. unfold loc_partial.
  destruct (filter (is_prefix key) (columns df)) eqn:E; [|reflexivity].
  assert (Hin : In c (filter (is_prefix key) (columns df))) by (apply filter_In; auto).
  rewrite E in Hin. destruct Hin.
Qed.

(** C7.  For a component that is not directional, the required demand
    is (EDP type, location + offsets, '0'), where the offsets are the
    demand offset of the component and the global offset of the demand
    type; when the demand sample has columns of that type and location,
    the demand of a realization is the greatest value of these columns
    times the non-directional multiplier of the options, and the
    multiplier of the default configuration is 1.2. *)
Theorem nondirectional_demand (options : Options)
    (DP : list (string * demand_params)) (demand_source : DataFrame Q)
    (PG : label) (params : demand_params) (demand_type EDP_type : string)
    (loc o g : Z) (multi : Q)
    (Hcmp : dict_get DP (level 0 PG) = Ok params)
    (Hnondir : Directional params = false)
    (Htype : parse_demand_type (Type_ params) = Ok (demand_type, EDP_type))
    (Hloc : int_of_str (level 1 PG) = Ok loc)
    (Hoff : Offset params == inject_Z o)
    (Hglobal : global_offset options demand_type == inject_Z g)
    (Hwf : well_formed demand_source)
    (Hdata : exists c, In c (columns demand_source)
                       /\ is_prefix [EDP_type; str_of_int (loc + (o + g))] c = true)
    (Hmulti : nondir_multi options EDP_type = Ok multi) :
  let EDP_req := [EDP_type; str_of_int (loc + (o + g)); "0"] in
  get_required_demand_type options DP PG = Ok EDP_req
  /\ (exists demand,
        _assemble_required_demand_data options demand_source EDP_req
        = Ok (Some demand, [])
        /\ Forall2
             (fun row d =>
                exists M,
                  d = M * multi
                  /\ is_max M (cells_where
                                 (is_prefix [EDP_type; str_of_int (loc + (o + g))])
                                 (columns demand_source) row))
             (values demand_source) demand)
  /\ nondir_multi default_options EDP_type = Ok (12 # 10).
Proof.
  intro EDP_req.
  assert (Hoffset :
    match dict_get (demand_offset options) demand_type with
    | Ok global => int_of_float (Offset params + global)
    | Raise _ => int_of_float (Offset params)
    end = (o + g)%Z).
  { unfold global_offset in Hglobal.
    destruct (dict_get (demand_offset options) demand_type) as [global|e].
    - apply int_of_float_Z. rewrite Hoff, Hglobal, inject_Z_plus. reflexivity.
    - apply int_of_float_Z. rewrite Hoff, inject_Z_plus, <- Hglobal. ring. }
  split; [|split].
  - unfold get_required_demand_type. rewrite Hcmp. cbn [bind].
    rewrite Htype. cbn [bind fst snd]. rewrite Hoffset, Hnondir, Hloc.
    reflexivity.
  - unfold _assemble_required_demand_data, EDP_req.
    change (level 2 [EDP_type; str_of_int (loc + (o + g)); "0"]) with "0".
    change (level 0 [EDP_type; str_of_int (loc + (o + g)); "0"]) with EDP_type.
    change (level 1 [EDP_type; str_of_int (loc + (o + g)); "0"])
      with (str_of_int (loc + (o + g))).
    rewrite String.eqb_refl, (loc_partial_found _ _ Hdata). cbn [bind].
    rewrite Hmulti. cbn [bind]. eexists. split; [reflexivity|].
    unfold max_axis1. cbn [values]. rewrite !map_map.
    unfold well_formed in Hwf.
    induction Hwf as [|row rows Hrow _ IH]; simpl; constructor; [|exact IH].
    eexists. split; [reflexivity|].
    apply Qmax_list_is_max. apply cells_where_nonempty; assumption.
  - unfold nondir_multi, default_options, default_nondir_multi_dict.
    cbn [nondir_multi_dict dict_get].
    destruct (String.eqb "ALL" EDP_type) eqn:E; reflexivity.
Qed.

End DemandFacts.

Lemma nondirectional_demand_witness :
  Demand.get_required_demand_type Demand.options_example Demand.DP_nondir_example
    ["C"; "1"; "0"] = Ok ["PFA"; "2"; "0"]
  /\ (exists demand,
        Demand._assemble_required_demand_data Demand.options_example
          Demand.demand_example ["PFA"; "2"; "0"] = Ok (Some demand, [])
        /\ Forall2
             (fun row d =>
                exists M,
                  d = M * (12 # 10)
                  /\ Demand.is_max M
                       (Frame.cells_where (Frame.is_prefix ["PFA"; "2"])
                          (Frame.columns Demand.demand_example) row))
             (Frame.values Demand.demand_example) demand)
  /\ Demand.nondir_multi Demand.default_options "PFA" = Ok (12 # 10).
Proof.
  apply (nondirectional_demand Demand.options_example Demand.DP_nondir_example
           Demand.demand_example ["C"; "1"; "0"]
           (Demand.mkDemandParams false 0 "Peak Floor Acceleration")
           "PFA" "PFA" 1 0 1 (12 # 10)).
  - reflexivity.
  - reflexivity.
  - reflexivity.
  - reflexivity.
  - reflexivity.
  - reflexivity.
  - repeat constructor.
  - exists ["PFA"; "2"; "1"]. split; [simpl; tauto | reflexivity].
  - reflexivity.
Defined.

(** ** Damage states *)

Section DamageFacts.

Import Frame Demand Damage.

(** C1 (evaluation at the failing input).  A component with the limit
    states 1 to 10, limit state k having the capacity k and the damage
    state k: the columns of the samples come sorted by name, '10' before
    '2'; for the demand 100, which exceeds every capacity, the damage
    state assigned is 9, the pick of the limit state evaluated last,
    although limit state 10 is exceeded and its pick is 10. *)
Theorem evaluate_damage_state_ten_limit_states :
  exists capacity_sample lsds_sample,
    _generate_dmg_sample capacity_RV_sample_10 lsds_RV_sample_10
    = Ok (capacity_sample, lsds_sample)
    /\ map (level 4) (columns capacity_sample)
       = ["1"; "10"; "2"; "3"; "4"; "5"; "6"; "7"; "8"; "9"]
    /\ (exists row, values capacity_sample = [row]
                    /\ lookup (columns capacity_sample) row ["C"; "1"; "1"; "1"; "10"]
                       = Some 10
                    /\ 10 < 100)
    /\ (exists row, values lsds_sample = [row]
                    /\ lookup (columns lsds_sample) row ["C"; "1"; "1"; "1"; "10"]
                       = Some 10%Z)
    /\ _evaluate_damage_state (Some [100]) capacity_sample lsds_sample
       = Ok (mkDF [["C"; "1"; "1"; "1"]] [[9%Z]]).
Proof.
  eexists. eexists. split; [vm_compute; reflexivity|].
  split; [reflexivity|].
  split; [eexists; split; [reflexivity|]; split; reflexivity|].
  split; [eexists; split; reflexivity|].
  vm_compute. reflexivity.
Qed.

(** C2 (evaluation at the failing input).  A directional component whose
    required demand (PFA at location 1, direction 1) is not in the
    demand sample: the lookup raises KeyError, nothing is written to the
    log, and the calculation stops, whatever the samples and the rest
    of the calculation are. *)
Theorem calculate_missing_directional_demand (QuantitySample : Type)
    (samples : DataFrame Q * DataFrame Z)
    (prepare_dmg_quantities : label -> DataFrame Z -> result QuantitySample)
    (finish : list QuantitySample -> result QuantitySample)
    (other_PGs : list label) :
  get_required_demand_type default_options DP_example ["C"; "1"; "1"]
  = Ok ["PFA"; "1"; "1"]
  /\ mem ["PFA"; "1"; "1"] (columns demand_example) = false
  /\ calculate QuantitySample default_options DP_example demand_example
       (fun PG => Ok samples) prepare_dmg_quantities finish
       (["C"; "1"; "1"] :: other_PGs) []
     = (Raise KeyError, []).
Proof.
  split; [reflexivity|]. split; [reflexivity|].
  unfold calculate, bind_logged. cbn [calculate_PGs].
  unfold bind_logged, lift.
  change (get_required_demand_type default_options DP_example ["C"; "1"; "1"])
    with (@Ok label ["PFA"; "1"; "1"]).
  cbv beta iota.
  change (_assemble_required_demand_data default_options demand_example
            ["PFA"; "1"; "1"])
    with (@Raise (option (list Q) * list log_entry) KeyError).
  reflexivity.
Qed.

(** For a component that is not directional, the missing demand is
    logged as a warning, and the damage states are evaluated all the
    same, with no demand, which raises. *)
Lemma calculate_missing_nondirectional_demand (QuantitySample : Type)
    (samples : DataFrame Q * DataFrame Z)
    (prepare_dmg_quantities : label -> DataFrame Z -> result QuantitySample)
    (finish : list QuantitySample -> result QuantitySample)
    (other_PGs : list label) :
  _assemble_required_demand_data default_options demand_example ["PFA"; "1"; "0"]
  = Ok (None, [Warning_no_demand ["PFA"; "1"; "0"]])
  /\ calculate QuantitySample default_options DP_nondir_example demand_example
       (fun PG => Ok samples) prepare_dmg_quantities finish
       (["C"; "1"; "1"] :: other_PGs) []
     = (Raise TypeError, [Warning_no_demand ["PFA"; "1"; "0"]]).
Proof.
  split; [reflexivity|].
  unfold calculate, bind_logged. cbn [calculate_PGs].
  unfold bind_logged, lift, write_log.
  change (get_required_demand_type default_options DP_nondir_example ["C"; "1"; "1"])
    with (@Ok label ["PFA"; "1"; "0"]).
  cbv beta iota.
  change (_assemble_required_demand_data default_options demand_example
            ["PFA"; "1"; "0"])
    with (@Ok (option (list Q) * list log_entry)
            (None, [Warning_no_demand ["PFA"; "1"; "0"]])).
  reflexivity.
Qed.

End DamageFacts.

(** ** Names of the random variables *)

Section TagFacts.

Import Frame Demand Capacity.

Lemma append_inj_l (s x y : string) : s ++ x = s ++ y -> x = y.
Proof.
  induction s as [|c s IH]; simpl; intro H; [exact H|].
  injection H as H. apply IH. exact H.
Qed.

Lemma int_of_str_of_int (z : Z) : int_of_str (str_of_int z) = Ok z.
Proof.
  unfold int_of_str, str_of_int.
  rewrite NilZero.isi.
  - rewrite DecimalZ.of_to. reflexivity.
  - destruct z as [|p|p]; simpl; try discriminate.
    intro H. injection H as H. revert H. apply DecimalPos.Unsigned.to_uint_nonnil.
  - destruct z as [|p|p]; simpl; try discriminate.
    intro H. injection H as H. revert H. apply DecimalPos.Unsigned.to_uint_nonnil.
Qed.

Lemma str_of_int_inj (z z' : Z) : str_of_int z = str_of_int z' -> z = z'.
Proof.
  intro H. pose proof (int_of_str_of_int z) as E.
  rewrite H, int_of_str_of_int in E. congruence.
Qed.

Lemma string_of_uint_no_dash (d : Decimal.uint) :
  contains_char "-"%char (NilEmpty.string_of_uint d) = false.
Proof.
  induction d; simpl; auto.
Qed.

Lemma str_of_nat_no_dash (n : nat) :
  contains_char "-"%char (str_of_int (Z.of_nat n)) = false.
Proof.
  unfold str_of_int. destruct (Z.of_nat n) as [|p|p] eqn:E; try reflexivity.
  - simpl. unfold NilZero.string_of_uint.
    destruct (Pos.to_uint p); try reflexivity; apply string_of_uint_no_dash.
  - exfalso. pose proof (Nat2Z.is_nonneg n). lia.
Qed.

(** A name is split in one way only at its first dash. *)
Lemma split_at_first_dash (s : string) : forall s' l l',
  contains_char "-"%char s = false ->
  contains_char "-"%char s' = false ->
  s ++ "-" ++ l = s' ++ "-" ++ l' -> s = s' /\ l = l'.
Proof.
  induction s as [|c s IH]; intros [|c' s'] l l' Hs Hs' H.
  - simpl in H. injection H as H. auto.
  - simpl in H. injection H as Hc H. subst c'.
    simpl in Hs'. discriminate.
  - simpl in H. injection H as Hc H. subst c.
    simpl in Hs. discriminate.
  - simpl in H. injection H as Hc H. subst c'.
    simpl in Hs, Hs'.
    apply orb_false_iff in Hs. apply orb_false_iff in Hs'.
    destruct (IH s' l l') as [E1 E2]; try tauto. subst. auto.
Qed.

Lemma rv_tag_inj (prefix : string) (PG : label) (b b' : nat) (l l' : string) :
  rv_tag prefix PG b l = rv_tag prefix PG b' l' -> b = b' /\ l = l'.
Proof.
  unfold rv_tag. intro H.
  do 8 apply append_inj_l in H.
  apply split_at_first_dash in H; try apply str_of_nat_no_dash.
  destruct H as [Hb Hl]. apply str_of_int_inj in Hb. split; [lia | exact Hl].
Qed.

End TagFacts.

(** ** Capacity variables *)

Section CapacityFacts.

Import Frame Demand Capacity.

Variable is_defined : option Q -> bool.
Variable damage_function_quantities : nat -> string -> result unit.
Variable PG : label.
Variable frg_params : list (string * ls_params).

Hypothesis no_function :
  forall l p, In (l, p) frg_params -> Family p <> Some "function".

Let guard (l : string) : bool := is_defined (Theta_0 (params_of frg_params l)).

Lemma dict_get_In {V : Type} (d : list (string * V)) (k : string) (v : V) :
  dict_get d k = Ok v -> In (k, v) d.
Proof.
  induction d as [|[k' v'] d IH]; simpl; [discriminate|].
  destruct (String.eqb k' k) eqn:E.
  - apply String.eqb_eq in E. intro H. injection H as ->. subst. left. reflexivity.
  - intro H. right. apply IH. exact H.
Qed.

Lemma dict_get_key {V : Type} (d : list (string * V)) (k : string) :
  In k (map fst d) -> exists v, dict_get d k = Ok v.
Proof.
  induction d as [|[k' v'] d IH]; simpl; [tauto|].
  intros [-> | H].
  - rewrite String.eqb_refl. eauto.
  - destruct (String.eqb k' k); eauto.
Qed.

Lemma registered_fresh (reg : RandomVariableRegistry) (n : string) :
  ~ In n (map name (RV reg)) -> registered reg n = false.
Proof.
  unfold registered. induction (RV reg) as [|rv rvs IH]; simpl; intro H; [reflexivity|].
  apply orb_false_iff. split.
  - apply String.eqb_neq. intro E. apply H. left. exact E.
  - apply IH. intro H'. apply H. right. exact H'.
Qed.

Lemma add_RV_fresh (reg : RandomVariableRegistry) (rv : RandomVariable) :
  ~ In (name rv) (map name (RV reg)) ->
  add_RV reg rv = Ok (mkRegistry (RV reg ++ [rv]) (RV_set reg)).
Proof.
  intro H. unfold add_RV. rewrite (registered_fresh _ _ H). reflexivity.
Qed.

Lemma assign_lsds_fresh (ds_weights : option (list Q)) (ds : Z)
    (reg : RandomVariableRegistry) (tag : string) :
  ~ In tag (map name (RV reg)) ->
  exists ds' reg',
    assign_lsds ds_weights ds reg tag = Ok (ds', reg')
    /\ map name (RV reg') = (map name (RV reg) ++ [tag])%list
    /\ RV_set reg' = RV_set reg.
Proof.
  intro H. unfold assign_lsds. destruct ds_weights as [w|].
  - rewrite add_RV_fresh by exact H. simpl.
    eexists. eexists. split; [reflexivity|]. simpl.
    rewrite map_app. auto.
  - rewrite add_RV_fresh by exact H. simpl.
    eexists. eexists. split; [reflexivity|]. simpl.
    rewrite map_app. auto.
Qed.

Lemma is_family_false (family : option string) :
  family <> Some "function" -> is_family "function" family = false.
Proof.
  destruct family as [f|]; simpl; [|reflexivity].
  intro H. apply String.eqb_neq. congruence.
Qed.

(** One limit state of a block whose variables are new to the
    registries. *)
Lemma limit_state_step_ok (ls_count block_i : nat) (st : loop_state) (l : string) :
  In l (map fst frg_params) ->
  ~ In (rv_tag "FRG" PG (block_i + 1) l) (map name (RV (capacity_RV_reg st))) ->
  ~ In (rv_tag "LSDS" PG (block_i + 1) l) (map name (RV (lsds_RV_reg st))) ->
  exists st',
    limit_state_step is_defined damage_function_quantities PG frg_params
      ls_count block_i st l = Ok st'
    /\ RV (capacity_RV_reg st')
       = (RV (capacity_RV_reg st)
          ++ if guard l then [fragility_RV PG frg_params block_i l] else [])%list
    /\ RV_set (capacity_RV_reg st') = RV_set (capacity_RV_reg st)
    /\ map name (RV (lsds_RV_reg st'))
       = (map name (RV (lsds_RV_reg st))
          ++ if guard l then [rv_tag "LSDS" PG (block_i + 1) l] else [])%list
    /\ RV_set (lsds_RV_reg st') = RV_set (lsds_RV_reg st)
    /\ frg_rv_set_tags st'
       = (frg_rv_set_tags st
          ++ if guard l then [rv_tag "FRG" PG (block_i + 1) l] else [])%list.
Proof.
  intros Hkey Hcap Hlsds.
  destruct (dict_get_key _ _ Hkey) as [p Hp].
  unfold limit_state_step, guard, fragility_RV, params_of. rewrite Hp. cbn [bind].
  destruct (is_defined (Theta_0 p)) eqn:Eg.
  - rewrite (is_family_false _ (no_function _ _ (dict_get_In _ _ _ Hp))).
    destruct (assign_lsds_fresh (DamageStateWeights p) (ds_id st)
                (lsds_RV_reg st) _ Hlsds) as [ds' [reg' [Ea [En Es]]]].
    destruct (Family p) as [f|].
    + rewrite add_RV_fresh by exact Hcap. cbn [bind]. rewrite Ea. cbn [bind].
      eexists. split; [reflexivity|]. cbn. repeat split; auto.
    + rewrite add_RV_fresh by exact Hcap. cbn [bind]. rewrite Ea. cbn [bind].
      eexists. split; [reflexivity|]. cbn. repeat split; auto.
  - exists st. rewrite !app_nil_r. repeat split; auto.
Qed.

Lemma limit_states_loop_ok (ls_count block_i : nat) (ls : list string) :
  forall st,
  NoDup ls ->
  (forall l, In l ls -> In l (map fst frg_params)) ->
  (forall l, In l ls ->
     ~ In (rv_tag "FRG" PG (block_i + 1) l) (map name (RV (capacity_RV_reg st)))) ->
  (forall l, In l ls ->
     ~ In (rv_tag "LSDS" PG (block_i + 1) l) (map name (RV (lsds_RV_reg st)))) ->
  exists st',
    limit_states_loop is_defined damage_function_quantities PG frg_params
      ls_count block_i ls st = Ok st'
    /\ RV (capacity_RV_reg st')
       = (RV (capacity_RV_reg st)
          ++ map (fragility_RV PG frg_params block_i) (filter guard ls))%list
    /\ RV_set (capacity_RV_reg st') = RV_set (capacity_RV_reg st)
    /\ map name (RV (lsds_RV_reg st'))
       = (map name (RV (lsds_RV_reg st))
          ++ map (rv_tag "LSDS" PG (block_i + 1)) (filter guard ls))%list
    /\ RV_set (lsds_RV_reg st') = RV_set (lsds_RV_reg st)
    /\ frg_rv_set_tags st'
       = (frg_rv_set_tags st
          ++ map (rv_tag "FRG" PG (block_i + 1)) (filter guard ls))%list.
Proof.
  induction ls as [|l ls IH]; intros st Hnd Hkeys Hcap Hlsds.
  - exists st. simpl. rewrite !app_nil_r. repeat split; auto.
  - inversion Hnd as [|? ? Hnotin Hnd']; subst.
    destruct (limit_state_step_ok ls_count block_i st l
                (Hkeys l (or_introl eq_refl)) (Hcap l (or_introl eq_refl))
                (Hlsds l (or_introl eq_refl)))
      as [st1 [E1 [Hc1 [Hs1 [Hl1 [Hls1 Ht1]]]]]].
    destruct (IH st1 Hnd') as [st2 [E2 [Hc2 [Hs2 [Hl2 [Hls2 Ht2]]]]]].
    + intros l' Hl'. apply Hkeys. right. exact Hl'.
    + intros l' Hl'. rewrite Hc1, map_app, in_app_iff. intros [H|H].
      * revert H. apply Hcap. right. exact Hl'.
      * destruct (guard l); [|destruct H]. destruct H as [H|[]].
        simpl in H. apply rv_tag_inj in H. destruct H as [_ H]. subst. contradiction.
    + intros l' Hl'. rewrite Hl1, in_app_iff. intros [H|H].
      * revert H. apply Hlsds. right. exact Hl'.
      * destruct (guard l); [|destruct H]. destruct H as [H|[]].
        apply rv_tag_inj in H. destruct H as [_ H]. subst. contradiction.
    + exists st2. cbn [limit_states_loop]. rewrite E1. cbn [bind].
      split; [exact E2|].
      rewrite Hc2, Hs2, Hl2, Hls2, Ht2, Hc1, Hs1, Hl1, Hls1, Ht1.
      cbn [filter]. destruct (guard l); cbn [map];
        rewrite <- ?app_assoc; cbn [app]; rewrite ?app_nil_r; repeat split; auto.
Qed.

Lemma find_fragility_RV (block_i : nat) (l : string) (ls : list string)
    (old : list RandomVariable) :
  In l ls ->
  ~ In (rv_tag "FRG" PG (block_i + 1) l) (map name old) ->
  find (fun rv => String.eqb (name rv) (rv_tag "FRG" PG (block_i + 1) l))
    (old ++ map (fragility_RV PG frg_params block_i) ls)
  = Some (fragility_RV PG frg_params block_i l).
Proof.
  intros Hin Hold. induction old as [|rv old IH]; cbn [app find].
  - clear Hold. induction ls as [|l0 ls IH]; [destruct Hin|].
    cbn [map find name fragility_RV].
    destruct (String.eqb (rv_tag "FRG" PG (block_i + 1) l0)
                (rv_tag "FRG" PG (block_i + 1) l)) eqn:E.
    + apply String.eqb_eq in E. apply rv_tag_inj in E. destruct E as [_ ->].
      reflexivity.
    + destruct Hin as [-> | Hin]; [rewrite String.eqb_refl in E; discriminate|].
      apply IH. exact Hin.
  - destruct (String.eqb (name rv) (rv_tag "FRG" PG (block_i + 1) l)) eqn:E.
    + apply String.eqb_eq in E. exfalso. apply Hold. left. exact E.
    + apply IH. intro H. apply Hold. right. exact H.
Qed.

Lemma RVs_of_block (block_i : nat) (reg : RandomVariableRegistry)
    (old : list RandomVariable) (ls sub : list string) :
  RV reg = (old ++ map (fragility_RV PG frg_params block_i) ls)%list ->
  (forall l, In l sub -> In l ls) ->
  (forall l, In l ls -> ~ In (rv_tag "FRG" PG (block_i + 1) l) (map name old)) ->
  RVs reg (map (rv_tag "FRG" PG (block_i + 1)) sub)
  = Ok (map (fragility_RV PG frg_params block_i) sub).
Proof.
  intros Hreg Hsub Hold. induction sub as [|l sub IH]; [reflexivity|].
  cbn [map RVs]. rewrite Hreg.
  rewrite find_fragility_RV;
    [| apply Hsub; left; reflexivity | apply Hold; apply Hsub; left; reflexivity].
  rewrite IH; [reflexivity|].
  intros l' Hl'. apply Hsub. right. exact Hl'.
Qed.

(** The variables and the set that one block adds to the registries. *)
Lemma block_step_ok (ls : list string) (block_i : nat)
    (cap lsds : RandomVariableRegistry) (n : nat) :
  NoDup ls ->
  (forall l, In l ls -> In l (map fst frg_params)) ->
  (forall l, ~ In (rv_tag "FRG" PG (block_i + 1) l) (map name (RV cap))) ->
  (forall l, ~ In (rv_tag "LSDS" PG (block_i + 1) l) (map name (RV lsds))) ->
  exists cap' lsds' n',
    block_step is_defined damage_function_quantities PG frg_params ls
      (cap, lsds, n) block_i = Ok (cap', lsds', n')
    /\ RV cap' = (RV cap ++ map (fragility_RV PG frg_params block_i)
                              (filter guard ls))%list
    /\ RV_set cap'
       = (RV_set cap
          ++ match filter guard ls with
             | [] => []
             | _ => [block_set PG frg_params (filter guard ls) block_i]
             end)%list
    /\ map name (RV lsds')
       = (map name (RV lsds)
          ++ map (rv_tag "LSDS" PG (block_i + 1)) (filter guard ls))%list
    /\ RV_set lsds' = RV_set lsds.
Proof.
  intros Hnd Hkeys Hcap Hlsds.
  destruct (limit_states_loop_ok (List.length ls) block_i ls
              (mkState cap lsds n 0%Z []) Hnd Hkeys
              (fun l _ => Hcap l) (fun l _ => Hlsds l))
    as [st [E [Hc [Hs [Hl [Hls Ht]]]]]].
  cbn [capacity_RV_reg lsds_RV_reg frg_rv_set_tags app] in Hc, Hs, Hl, Hls, Ht.
  unfold block_step. cbn [fst snd]. rewrite E. cbn [bind].
  rewrite Ht, length_map.
  destruct (filter guard ls) as [|l0 ls'] eqn:Ef.
  - cbn [List.length Nat.ltb Nat.leb]. eexists. eexists. eexists.
    split; [reflexivity|]. rewrite Hc, Hs, Hl, Hls, !app_nil_r. repeat split; auto.
  - assert (Hr : RVs (capacity_RV_reg st) (map (rv_tag "FRG" PG (block_i + 1)) (l0 :: ls'))
                 = Ok (map (fragility_RV PG frg_params block_i) (l0 :: ls'))).
    { apply (RVs_of_block block_i _ (RV cap) (l0 :: ls')); auto. }
    change (0 <? List.length (l0 :: ls'))%nat with true. cbv iota.
    rewrite Hr. cbn [bind add_RV_set].
    eexists. eexists. eexists. split; [reflexivity|].
    cbn [RV RV_set]. rewrite Hc, Hs, Hl, Hls. repeat split; auto.
Qed.

Lemma name_fragility_RV (block_i : nat) (ls : list string) :
  map name (map (fragility_RV PG frg_params block_i) ls)
  = map (rv_tag "FRG" PG (block_i + 1)) ls.
Proof. rewrite map_map. reflexivity. Qed.

Lemma blocks_loop_ok (ls : list string) (count : nat) :
  forall (first : nat) (cap lsds : RandomVariableRegistry) (n : nat),
  NoDup ls ->
  (forall l, In l ls -> In l (map fst frg_params)) ->
  (forall b l, (first <= b)%nat ->
     ~ In (rv_tag "FRG" PG (b + 1) l) (map name (RV cap))) ->
  (forall b l, (first <= b)%nat ->
     ~ In (rv_tag "LSDS" PG (b + 1) l) (map name (RV lsds))) ->
  exists cap' lsds' n',
    blocks_loop is_defined damage_function_quantities PG frg_params ls
      (seq first count) (cap, lsds, n) = Ok (cap', lsds', n')
    /\ RV cap'
       = (RV cap ++ flat_map (fun block_i =>
                      map (fragility_RV PG frg_params block_i) (filter guard ls))
                    (seq first count))%list
    /\ RV_set cap'
       = (RV_set cap
          ++ match filter guard ls with
             | [] => []
             | _ => map (block_set PG frg_params (filter guard ls)) (seq first count)
             end)%list.
Proof.
  induction count as [|count IH]; intros first cap lsds n Hnd Hkeys Hcap Hlsds.
  - simpl. eexists. eexists. eexists. split; [reflexivity|].
    rewrite app_nil_r. destruct (filter guard ls); rewrite app_nil_r; auto.
  - destruct (block_step_ok ls first cap lsds n Hnd Hkeys
                (fun l => Hcap first l (Nat.le_refl _))
                (fun l => Hlsds first l (Nat.le_refl _)))
      as [cap1 [lsds1 [n1 [E1 [Hc1 [Hs1 [Hl1 Hls1]]]]]]].
    destruct (IH (S first) cap1 lsds1 n1 Hnd Hkeys)
      as [cap2 [lsds2 [n2 [E2 [Hc2 Hs2]]]]].
    + intros b l Hb. rewrite Hc1, map_app, name_fragility_RV, in_app_iff.
      intros [H|H].
      * revert H. apply Hcap. lia.
      * apply in_map_iff in H. destruct H as [l' [H _]].
        apply rv_tag_inj in H. lia.
    + intros b l Hb. rewrite Hl1, in_app_iff. intros [H|H].
      * revert H. apply Hlsds. lia.
      * apply in_map_iff in H. destruct H as [l' [H _]].
        apply rv_tag_inj in H. lia.
    + exists cap2, lsds2, n2. cbn [seq blocks_loop]. rewrite E1. cbn [bind].
      split; [exact E2|]. rewrite Hc2, Hs2, Hc1, Hs1. cbn [flat_map map].
      destruct (filter guard ls); rewrite <- ?app_assoc; auto.
Qed.

Lemma limit_states_of_NoDup : NoDup (limit_states_of frg_params).
Proof.
  unfold limit_states_of.
  apply NoDup_map_NoDup_ForallPairs; [|apply unique_NoDup].
  intros a b Ha Hb E.
  apply unique_In, in_map_iff in Ha. apply unique_In, in_map_iff in Hb.
  destruct Ha as [x [<- _]]. destruct Hb as [y [<- _]].
  unfold level in E. simpl in E. congruence.
Qed.

Lemma limit_states_of_keys (l : string) :
  In l (limit_states_of frg_params) -> In l (map fst frg_params).
Proof.
  unfold limit_states_of. intro H. apply in_map_iff in H.
  destruct H as [k [<- H]]. apply unique_In, in_map_iff in H.
  destruct H as [x [<- Hx]]. change (level 0 [fst x]) with (fst x).
  apply in_map. exact Hx.
Qed.

End CapacityFacts.

(** C6.  For a component none of whose limit states is a damage
    function, [_create_dmg_RVs] returns registries in which the capacity
    variables are those of the limit states of every block, and the
    sets are one set per block, holding all the capacity variables of
    the block, with a square correlation matrix of ones; this holds for
    every number of blocks and every parameter of the limit states. *)
Theorem create_dmg_RVs_perfectly_correlated
    (is_defined : option Q -> bool)
    (damage_function_quantities : nat -> string -> result unit)
    (PG : Frame.label)
    (damage_params : list (string * list (string * Capacity.ls_params)))
    (blocks : nat) (frg_params : list (string * Capacity.ls_params))
    (Hcmp : dict_get damage_params (Frame.level 0 PG) = Ok frg_params)
    (Hfamily : forall l p, In (l, p) frg_params ->
                           Capacity.Family p <> Some "function") :
  let ls := Capacity.defined_limit_states is_defined frg_params in
  exists capacity_RV_reg lsds_RV_reg,
    Capacity._create_dmg_RVs is_defined damage_function_quantities PG
      damage_params blocks = Ok (capacity_RV_reg, lsds_RV_reg)
    /\ Capacity.RV capacity_RV_reg
       = flat_map (fun block_i => map (Capacity.fragility_RV PG frg_params block_i) ls)
           (seq 0 blocks)
    /\ Capacity.RV_set capacity_RV_reg
       = match ls with
         | [] => []
         | _ => map (Capacity.block_set PG frg_params ls) (seq 0 blocks)
         end
    /\ Forall (fun s =>
                 Capacity.Rho s
                 = Capacity.ones (List.length (Capacity.set_RVs s))
                     (List.length (Capacity.set_RVs s)))
         (Capacity.RV_set capacity_RV_reg).
Proof.
  intro ls. unfold Capacity._create_dmg_RVs. rewrite Hcmp.
  destruct (blocks_loop_ok is_defined damage_function_quantities PG frg_params
              Hfamily (Capacity.limit_states_of frg_params) blocks 0
              Capacity.empty_registry Capacity.empty_registry 0
              (limit_states_of_NoDup frg_params)
              (limit_states_of_keys frg_params)
              (fun b l _ H => H) (fun b l _ H => H))
    as [cap [lsds [n [E [Hc Hs]]]]].
  exists cap, lsds.
  change (map (fun l => Frame.level 0 l)
            (Frame.unique (map (fun p => [fst p]) frg_params)))
    with (Capacity.limit_states_of frg_params).
  rewrite E. cbn [bind fst snd]. split; [reflexivity|].
  cbn [Capacity.RV Capacity.RV_set Capacity.empty_registry app] in Hc, Hs.
  fold (Capacity.defined_limit_states is_defined frg_params) in Hc, Hs.
  fold ls in Hc, Hs.
  split; [exact Hc|]. split; [exact Hs|].
  rewrite Hs. destruct ls as [|l0 ls']; [constructor|].
  apply Forall_forall. intros s Hin. apply in_map_iff in Hin.
  destruct Hin as [b [<- _]]. cbn [Capacity.block_set Capacity.Rho Capacity.set_RVs].
  rewrite length_map. reflexivity.
Qed.

Lemma create_dmg_RVs_perfectly_correlated_witness :
  exists capacity_RV_reg lsds_RV_reg,
    Capacity._create_dmg_RVs (fun _ => true) (fun _ _ => Ok tt) ["C"; "1"; "1"]
      Capacity.damage_params_example 2 = Ok (capacity_RV_reg, lsds_RV_reg)
    /\ map Capacity.name (Capacity.RV capacity_RV_reg)
       = ["FRG-C-1-1-1-1"; "FRG-C-1-1-1-2"; "FRG-C-1-1-1-3";
          "FRG-C-1-1-2-1"; "FRG-C-1-1-2-2"; "FRG-C-1-1-2-3"]
    /\ map (fun s => (Capacity.set_name s, map Capacity.name (Capacity.set_RVs s),
                      Capacity.Rho s))
         (Capacity.RV_set capacity_RV_reg)
       = [ ("FRG-C-1-1-1_set",
            ["FRG-C-1-1-1-1"; "FRG-C-1-1-1-2"; "FRG-C-1-1-1-3"],
            [[1; 1; 1]; [1; 1; 1]; [1; 1; 1]]);
           ("FRG-C-1-1-2_set",
            ["FRG-C-1-1-2-1"; "FRG-C-1-1-2-2"; "FRG-C-1-1-2-3"],
            [[1; 1; 1]; [1; 1; 1]; [1; 1; 1]]) ].
Proof.
  destruct (create_dmg_RVs_perfectly_correlated (fun _ => true) (fun _ _ => Ok tt)
              ["C"; "1"; "1"] Capacity.damage_params_example 2
              (snd (hd ("", []) Capacity.damage_params_example)))
    as [cap [lsds [E [Hc [Hs _]]]]].
  - reflexivity.
  - intros l p H. simpl in H.
    destruct H as [H | [H | [H | []]]]; injection H as _ <-; discriminate.
  - exists cap, lsds. split; [exact E|]. rewrite Hc, Hs. split; reflexivity.
Defined.

(** ** Median consequences *)

Section MedianFacts.

Import Frame Consequence.

(** C5 (evaluation at the failing input).  Component A is damaged in
    damage state 1 at the locations 1, 2 and 3.  Pooled across floors,
    the median table has the one column (A, 1); per floor and pooled
    across damage states it has one column per location; per floor and
    per damage state the quantities have the levels (cmp, loc, ds), the
    damage state id '1' is looked up among the locations, and the table
    has the columns (A, 1, 0) and (A, 1, 1), which are the damage states
    0 and 1 of location 1, labelled as (cmp, ds, loc): not one column
    per location. *)
Theorem calc_median_consequence_per_floor :
  median_columns true true dmg_quantities_example loss_map_example
    loss_params_example "COST" = Ok (Some [["A"; "1"]])
  /\ median_columns true false dmg_quantities_example loss_map_example
       loss_params_example "COST" = Ok (Some [["A"; "1"]])
  /\ median_columns false true dmg_quantities_example loss_map_example
       loss_params_example "COST"
     = Ok (Some [["A"; "1"; "1"]; ["A"; "1"; "2"]; ["A"; "1"; "3"]])
  /\ columns (table (eco_quantities (mkEcoScale false false) dmg_quantities_example))
     = [["A"; "1"; "0"]; ["A"; "1"; "1"]; ["A"; "2"; "0"]; ["A"; "2"; "1"];
        ["A"; "3"; "0"]; ["A"; "3"; "1"]]
  /\ median_columns false false dmg_quantities_example loss_map_example
       loss_params_example "COST"
     = Ok (Some [["A"; "1"; "0"]; ["A"; "1"; "1"]]).
Proof.
  repeat split; vm_compute; reflexivity.
Qed.

End MedianFacts.

(** ** Damage process *)

Section ProcessFacts.

Import Frame Demand Process.
Local Open Scope list_scope.

Lemma combine_map_ctx {C A B : Type} (ctx : list C) (f : C -> A -> B) :
  forall l : list A,
  combine ctx (map (fun cr : C * A => f (fst cr) (snd cr)) (combine ctx l))
  = map (fun cr : C * A => (fst cr, f (fst cr) (snd cr))) (combine ctx l).
Proof.
  induction ctx as [|c ctx IH]; intros [|a l]; simpl; try reflexivity.
  rewrite IH. reflexivity.
Qed.

(** Two operations that work realization by realization, one after the
    other. *)
Lemma rowwise_rowwise {C A : Type} (ctx : list C) (f1 f2 : C -> list A -> list A)
    (c1 c2 : list label) (df : DataFrame A) :
  rowwise ctx f2 c2 (rowwise ctx f1 c1 df)
  = rowwise ctx (fun c row => f2 c (f1 c row)) c2 df.
Proof.
  unfold rowwise. cbn [values]. rewrite combine_map_ctx, map_map. reflexivity.
Qed.

Lemma label_eqb_sym (a b : label) : label_eqb a b = label_eqb b a.
Proof.
  destruct (label_eqb a b) eqn:E.
  - apply label_eqb_eq in E. subst. symmetry. apply label_eqb_refl.
  - symmetry. apply label_eqb_neq. apply label_eqb_neq in E. congruence.
Qed.

Lemma lookup_set_cells (p : label -> bool) (v : cell) (cols : list label) :
  forall (row : list cell) (c : label),
  lookup cols (set_cells p v cols row) c
  = option_map (fun x => if p c then v else x) (lookup cols row c).
Proof.
  induction cols as [|k cols IH]; intros [|x row] c; try reflexivity.
  unfold set_cells. cbn [combine map lookup fst snd].
  destruct (label_eqb k c) eqn:E.
  - apply label_eqb_eq in E. subst. reflexivity.
  - apply IH.
Qed.

Lemma length_set_cells (p : label -> bool) (v : cell) (cols : list label)
    (row : list cell) :
  List.length row = List.length cols ->
  List.length (set_cells p v cols row) = List.length cols.
Proof.
  intro H. unfold set_cells. rewrite length_map, length_combine, H.
  apply Nat.min_id.
Qed.

Lemma lookup_none {A : Type} (cols : list label) : forall (row : list A) (c : label),
  mem c cols = false -> lookup cols row c = None.
Proof.
  induction cols as [|k cols IH]; intros [|x row] c H; try reflexivity.
  simpl in H. apply orb_false_iff in H. destruct H as [H1 H2].
  simpl. rewrite label_eqb_sym, H1. apply IH. exact H2.
Qed.

Lemma lookup_app_new {A : Type} (cols : list label) (k : label) (v : A) :
  forall (row : list A) (c : label),
  List.length row = List.length cols ->
  lookup (cols ++ [k]) (row ++ [v]) c
  = if mem c cols then lookup cols row c
    else if label_eqb k c then Some v else None.
Proof.
  induction cols as [|k' cols IH]; intros [|x row] c H; try discriminate.
  - simpl. destruct (label_eqb k c); reflexivity.
  - simpl in H. injection H as H. simpl.
    rewrite (label_eqb_sym c k').
    destruct (label_eqb k' c); [reflexivity|]. simpl. apply IH. exact H.
Qed.

Lemma lookup_some {A : Type} (cols : list label) : forall (row : list A) (c : label),
  List.length row = List.length cols ->
  mem c cols = true -> exists x, lookup cols row c = Some x.
Proof.
  induction cols as [|k cols IH]; intros [|x row] c Hlen H; try discriminate.
  simpl in *. rewrite (label_eqb_sym c k) in H.
  destruct (label_eqb k c); [eauto|]. apply IH; [congruence | exact H].
Qed.

Lemma mem_app (c : label) (l1 l2 : list label) :
  mem c (l1 ++ l2) = mem c l1 || mem c l2.
Proof.
  induction l1 as [|k l1 IH]; simpl; [reflexivity|].
  rewrite IH. apply orb_assoc.
Qed.

Section OneRealization.

Variable cmp_cols : list label.
Variable ds_i : string.
Variable m : bool.
Variable crow : list Q.

Lemma pg_step_fst (pg : label) (cols : list label) (row : list cell) :
  fst (pg_step cmp_cols ds_i (m, crow) pg (cols, row))
  = if negb (mem (pg ++ [ds_i]) cols) then (cols ++ [(pg ++ [ds_i])%list])%list
    else cols.
Proof.
  unfold pg_step. cbn [fst snd].
  destruct (negb (mem (pg ++ [ds_i]) cols)); reflexivity.
Qed.

Lemma pg_step_length (pg : label) (cols : list label) (row : list cell) :
  List.length row = List.length cols ->
  List.length (snd (pg_step cmp_cols ds_i (m, crow) pg (cols, row)))
  = List.length (fst (pg_step cmp_cols ds_i (m, crow) pg (cols, row))).
Proof.
  intro H. unfold pg_step. cbn [fst snd].
  assert (H1 : List.length
                 (snd (if negb (mem (pg ++ [ds_i]) cols)
                       then ((cols ++ [(pg ++ [ds_i])%list])%list,
                             (row ++ [Some 0])%list)
                       else (cols, row)))
               = List.length
                   (fst (if negb (mem (pg ++ [ds_i]) cols)
                         then ((cols ++ [(pg ++ [ds_i])%list])%list,
                               (row ++ [@Some Q 0])%list)
                         else (cols, row)))).
  { destruct (negb (mem (pg ++ [ds_i]) cols)); cbn [fst snd]; [|exact H].
    rewrite !length_app, H. reflexivity. }
  destruct m; [|exact H1].
  destruct (lookup cmp_cols crow pg); [|exact H1].
  apply length_set_cells. exact H1.
Qed.

Lemma pg_step_lookup (pg : label) (cols : list label) (row : list cell) (q : Q)
    (c : label) :
  List.length row = List.length cols ->
  lookup cmp_cols crow pg = Some q ->
  lookup (fst (pg_step cmp_cols ds_i (m, crow) pg (cols, row)))
    (snd (pg_step cmp_cols ds_i (m, crow) pg (cols, row))) c
  = if label_eqb (pg ++ [ds_i]) c then
      if m then Some (Some q)
      else if mem c cols then lookup cols row c else Some (Some 0)
    else lookup cols row c.
Proof.
  intros Hlen Hq. unfold pg_step. cbn [fst snd]. rewrite Hq.
  set (k := (pg ++ [ds_i])%list).
  assert (Hbase : forall c',
    lookup (fst (if negb (mem k cols)
                 then ((cols ++ [k])%list, (row ++ [Some 0])%list) else (cols, row)))
      (snd (if negb (mem k cols)
            then ((cols ++ [k])%list, (row ++ [@Some Q 0])%list) else (cols, row))) c'
    = if label_eqb k c' then (if mem c' cols then lookup cols row c' else Some (Some 0))
      else lookup cols row c').
  { intro c'. destruct (mem k cols) eqn:Ek; cbn [negb fst snd].
    - destruct (label_eqb k c') eqn:E; [|reflexivity].
      apply label_eqb_eq in E. subst c'. rewrite Ek. reflexivity.
    - rewrite lookup_app_new by exact Hlen.
      destruct (label_eqb k c') eqn:E.
      + apply label_eqb_eq in E. subst c'. rewrite Ek. reflexivity.
      + destruct (mem c' cols) eqn:Ec; [reflexivity|].
        symmetry. apply lookup_none. exact Ec. }
  destruct m.
  - rewrite lookup_set_cells, Hbase. rewrite (label_eqb_sym c k).
    destruct (label_eqb k c) eqn:E.
    + destruct (mem c cols) eqn:Ec; [|reflexivity].
      destruct (lookup_some cols row c Hlen Ec) as [x ->]. reflexivity.
    + destruct (lookup cols row c); reflexivity.
  - apply Hbase.
Qed.

Lemma removelast_app_one {A : Type} (l : list A) (x : A) :
  removelast (l ++ [x]) = l.
Proof.
  rewrite removelast_app by discriminate. simpl. apply app_nil_r.
Qed.

(** The cells of a realization after the loop over the pairs. *)
Lemma pgs_fold_spec (pgs : list label) : forall (cols : list label) (row : list cell),
  List.length row = List.length cols ->
  (forall pg, In pg pgs -> exists q, lookup cmp_cols crow pg = Some q) ->
  fst (pgs_fold cmp_cols ds_i (m, crow) pgs (cols, row)) = cols_after ds_i pgs cols
  /\ List.length (snd (pgs_fold cmp_cols ds_i (m, crow) pgs (cols, row)))
     = List.length (cols_after ds_i pgs cols)
  /\ forall c,
       lookup (cols_after ds_i pgs cols)
         (snd (pgs_fold cmp_cols ds_i (m, crow) pgs (cols, row))) c
       = if is_target_column ds_i pgs c then
           if m then option_map (@Some Q) (lookup cmp_cols crow (removelast c))
           else if mem c cols then lookup cols row c else Some (Some 0)
         else lookup cols row c.
Proof.
  induction pgs as [|pg pgs IH]; intros cols row Hlen Hq.
  - simpl. auto.
  - destruct (Hq pg (or_introl eq_refl)) as [q Hpg].
    cbn [pgs_fold cols_after].
    pose proof (pg_step_fst pg cols row) as Hfst.
    pose proof (pg_step_length pg cols row Hlen) as Hlen1.
    pose proof (fun c => pg_step_lookup pg cols row q c Hlen Hpg) as Hlook.
    destruct (pg_step cmp_cols ds_i (m, crow) pg (cols, row)) as [cols1 row2].
    cbn [fst snd] in Hfst, Hlen1, Hlook.
    destruct (IH cols1 row2 Hlen1 (fun pg' H => Hq pg' (or_intror H)))
      as [IH1 [IH2 IH3]].
    rewrite <- Hfst. split; [exact IH1|]. split; [exact IH2|].
    intro c. rewrite IH3, Hlook.
    assert (Hmem : mem c cols1 = mem c cols || label_eqb (pg ++ [ds_i]) c).
    { rewrite Hfst. destruct (mem (pg ++ [ds_i]) cols) eqn:Ek; cbn [negb].
      - destruct (label_eqb (pg ++ [ds_i]) c) eqn:E; [|rewrite orb_false_r; reflexivity].
        apply label_eqb_eq in E. subst c. rewrite Ek. reflexivity.
      - rewrite mem_app. simpl. rewrite orb_false_r, (label_eqb_sym c). reflexivity. }
    rewrite Hmem. cbn [is_target_column existsb].
    fold (is_target_column ds_i pgs c).
    destruct (label_eqb (pg ++ [ds_i]) c) eqn:E.
    + apply label_eqb_eq in E. subst c. rewrite removelast_app_one, Hpg.
      cbn [orb option_map]. rewrite orb_true_r.
      destruct (is_target_column ds_i pgs (pg ++ [ds_i])), m;
        try reflexivity; destruct (mem (pg ++ [ds_i]) cols); reflexivity.
    + cbn [orb]. rewrite orb_false_r.
      destruct (is_target_column ds_i pgs c); reflexivity.
Qed.

End OneRealization.

Lemma rowwise_ext {C A : Type} (ctx : list C) (f g : C -> list A -> list A)
    (cols : list label) (df : DataFrame A) :
  (forall c row, f c row = g c row) -> rowwise ctx f cols df = rowwise ctx g cols df.
Proof.
  intro H. unfold rowwise. f_equal. apply map_ext. intro cr. apply H.
Qed.

Lemma pgs_fold_fst (cmp_cols : list label) (ds_i : string) (c : context)
    (pgs : list label) : forall (cols : list label) (row : list cell),
  fst (pgs_fold cmp_cols ds_i c pgs (cols, row)) = cols_after ds_i pgs cols.
Proof.
  induction pgs as [|pg pgs IH]; intros cols row; [reflexivity|].
  cbn [pgs_fold cols_after]. destruct c as [m crow].
  pose proof (pg_step_fst cmp_cols ds_i m crow pg cols row) as H.
  destruct (pg_step cmp_cols ds_i (m, crow) pg (cols, row)) as [cols1 row1].
  cbn [fst] in H. subst cols1. apply IH.
Qed.

Lemma pgs_fold_app (cmp_cols : list label) (ds_i : string) (c : context)
    (l1 l2 : list label) : forall cr,
  pgs_fold cmp_cols ds_i c (l1 ++ l2) cr
  = pgs_fold cmp_cols ds_i c l2 (pgs_fold cmp_cols ds_i c l1 cr).
Proof.
  induction l1 as [|pg l1 IH]; intro cr; [reflexivity|]. apply IH.
Qed.

Lemma cols_after_app (ds_i : string) (l1 l2 : list label) : forall cols,
  cols_after ds_i (l1 ++ l2) cols = cols_after ds_i l2 (cols_after ds_i l1 cols).
Proof.
  induction l1 as [|pg l1 IH]; intro cols; [reflexivity|]. apply IH.
Qed.

Lemma cols_after_In (ds_i : string) (pgs : list label) : forall cols c,
  In c (cols_after ds_i pgs cols)
  <-> In c cols \/ is_target_column ds_i pgs c = true.
Proof.
  induction pgs as [|pg pgs IH]; intros cols c.
  - simpl. split; [auto | intros [H|H]; [exact H | discriminate]].
  - cbn [cols_after is_target_column existsb]. rewrite IH.
    fold (is_target_column ds_i pgs c). rewrite orb_true_iff, label_eqb_eq.
    destruct (mem (pg ++ [ds_i]) cols) eqn:E; cbn [negb].
    + apply mem_In in E. split; [tauto|].
      intros [H | [H | H]]; auto. subst c. auto.
    + rewrite in_app_iff. simpl. split; [tauto|].
      intros [H | [H | H]]; auto.
Qed.

Lemma existsb_cols_after (p : label -> bool) (ds_i : string) (pgs : list label)
    (cols : list label) :
  existsb p cols = true -> existsb p (cols_after ds_i pgs cols) = true.
Proof.
  intro H. apply existsb_exists in H. destruct H as [c [Hc Hp]].
  apply existsb_exists. exists c. split; [|exact Hp].
  apply cols_after_In. left. exact Hc.
Qed.

Section Frames.

Variable ctx : list context.
Variable cmp_cols : list label.
Variable ds_i : string.

(** The loop over the pairs of a target component, realization by
    realization. *)
Lemma set_damage_state_rowwise (pgs : list label) :
  forall (f : context -> list cell -> list cell) (cols : list label)
         (q0 : QuantitySample),
  (forall pg, In pg pgs -> existsb (is_prefix pg) cols = true) ->
  set_damage_state ctx cmp_cols ds_i pgs (rowwise ctx f cols q0)
  = Ok (rowwise ctx
          (fun c row => snd (pgs_fold cmp_cols ds_i c pgs (cols, f c row)))
          (cols_after ds_i pgs cols) q0).
Proof.
  induction pgs as [|pg pgs IH]; intros f cols q0 Hcheck.
  - reflexivity.
  - cbn [set_damage_state]. change (columns (rowwise ctx f cols q0)) with cols.
    rewrite (Hcheck pg (or_introl eq_refl)). cbn [negb].
    cbn [pgs_fold cols_after]. unfold pg_step. cbn [fst snd].
    destruct (mem (pg ++ [ds_i]) cols) eqn:Ek; cbn [negb fst snd].
    + unfold set_from_quantities.
      change (columns (rowwise ctx f cols q0)) with cols.
      rewrite rowwise_rowwise, IH; [reflexivity|].
      intros pg' H. apply Hcheck. right. exact H.
    + unfold add_column, set_from_quantities.
      change (columns (rowwise ctx f cols q0)) with cols.
      rewrite rowwise_rowwise.
      change (columns (rowwise ctx (fun c row => f c row ++ [Some 0])
                         (cols ++ [pg ++ [ds_i]]) q0))
        with (cols ++ [pg ++ [ds_i]]).
      rewrite rowwise_rowwise, IH; [reflexivity|].
      intros pg' H. unfold rowwise. cbn [columns].
      rewrite existsb_app, (Hcheck pg' (or_intror H)). reflexivity.
Qed.

(** The loop over the target components. *)
Lemma set_damage_states_rowwise (targets : list string) :
  forall (f : context -> list cell -> list cell) (cols : list label)
         (q0 : QuantitySample),
  (forall t, In t targets -> filter (is_prefix [t]) cmp_cols <> []) ->
  (forall pg, In pg (target_pgs cmp_cols targets) ->
              existsb (is_prefix pg) cols = true) ->
  set_damage_states ctx cmp_cols ds_i targets (rowwise ctx f cols q0)
  = Ok (rowwise ctx
          (fun c row =>
             snd (pgs_fold cmp_cols ds_i c (target_pgs cmp_cols targets) (cols, f c row)))
          (cols_after ds_i (target_pgs cmp_cols targets) cols) q0).
Proof.
  induction targets as [|t targets IH]; intros f cols q0 Hne Hcheck.
  - reflexivity.
  - cbn [set_damage_states target_pgs flat_map].
    fold (target_pgs cmp_cols targets).
    destruct (filter (is_prefix [t]) cmp_cols) as [|pg0 pgs0] eqn:Ef.
    + exfalso. apply (Hne t (or_introl eq_refl)). exact Ef.
    + rewrite set_damage_state_rowwise.
      * cbn [bind]. rewrite IH.
        -- f_equal. rewrite cols_after_app.
           apply rowwise_ext. intros c row.
           rewrite pgs_fold_app. f_equal. f_equal.
           rewrite <- (pgs_fold_fst cmp_cols ds_i c (pg0 :: pgs0) cols (f c row)).
           destruct (pgs_fold cmp_cols ds_i c (pg0 :: pgs0) (cols, f c row));
             reflexivity.
        -- intros t' H. apply Hne. right. exact H.
        -- intros pg H. apply existsb_cols_after. apply Hcheck.
           cbn [target_pgs flat_map]. rewrite Ef. apply in_or_app. right. exact H.
      * intros pg H. apply Hcheck. cbn [target_pgs flat_map]. rewrite Ef.
        apply in_or_app. left. exact H.
Qed.

End Frames.

Lemma Qltb_0_Qmax (x y : Q) : Qltb 0 (Qmax x y) = Qltb 0 x || Qltb 0 y.
Proof.
  destruct (Qmax_cases x y) as [[E H]|[E H]]; rewrite E.
  - destruct (Qltb 0 x) eqn:Ex; [reflexivity|]. simpl.
    apply Qltb_false in Ex. symmetry. apply Qltb_false.
    apply Qle_trans with x; assumption.
  - destruct (Qltb 0 y) eqn:Ey; [rewrite orb_true_r; reflexivity|].
    rewrite orb_false_r. apply Qltb_false in Ey. symmetry. apply Qltb_false.
    apply Qle_trans with y; assumption.
Qed.

Lemma positive_max_skipna (l : list cell) :
  positive (max_skipna l) = existsb positive l.
Proof.
  induction l as [|c l IH]; [reflexivity|]. cbn [max_skipna existsb].
  rewrite <- IH. destruct c as [x|]; [|reflexivity].
  destruct (max_skipna l) as [y|]; cbn [positive].
  - apply Qltb_0_Qmax.
  - rewrite orb_false_r. reflexivity.
Qed.

Lemma cells_where_sub {A : Type} (p1 p2 : label -> bool) (h : label -> label)
    (cols : list label) : forall row : list A,
  cells_where p2 (map h (filter p1 cols)) (cells_where p1 cols row)
  = cells_where (fun c => p1 c && p2 (h c)) cols row.
Proof.
  induction cols as [|c cols IH]; intros [|x row]; try reflexivity.
  - cbn [cells_where]. destruct (map h (filter p1 (c :: cols))); reflexivity.
  - cbn [cells_where filter]. destruct (p1 c); cbn [map cells_where andb].
    + destruct (p2 (h c)); rewrite IH; reflexivity.
    + apply IH.
Qed.

Lemma lookup_map_keys {A : Type} (g : label -> A) (keys : list label) (k : label) :
  In k keys -> lookup keys (map g keys) k = Some (g k).
Proof.
  induction keys as [|k' keys IH]; intro H; [destruct H|]. simpl.
  destruct (label_eqb k' k) eqn:E.
  - apply label_eqb_eq in E. subst. reflexivity.
  - destruct H as [H|H]; [subst; rewrite label_eqb_refl in E; discriminate|].
    apply IH. exact H.
Qed.

Lemma level3_of_rest (s : string) (c : label) :
  is_prefix [s] c = true -> nth 2 (skipn 1 c) "" = level 3 c.
Proof.
  destruct c as [|x c]; [discriminate|]. reflexivity.
Qed.

(** The source mask is the source condition of the realizations. *)
Lemma source_mask_of_spec (source_cmp ds : string) (cols : list label)
    (rows : list (list cell)) :
  (exists c, In c cols /\ is_prefix [source_cmp] c = true /\ level 3 c = ds) ->
  source_mask_of
    (mkDF (map (skipn 1) (filter (is_prefix [source_cmp]) cols))
       (map (fun row => cells_where (is_prefix [source_cmp]) cols row) rows)) ds
  = Some (map (source_holds source_cmp ds cols) rows).
Proof.
  intros [c [Hc [Hp Hds]]]. unfold source_mask_of.
  change (columns (groupby_max [2%nat] ?d)) with (group_keys [2%nat] (columns d)).
  cbn [columns values groupby_max].
  set (subcols := map (skipn 1) (filter (is_prefix [source_cmp]) cols)).
  assert (Hin : In [ds] (group_keys [2%nat] subcols)).
  { apply group_keys_In. apply in_map_iff. exists (skipn 1 c). split.
    - unfold project. cbn [map]. rewrite (level3_of_rest source_cmp c Hp), Hds.
      reflexivity.
    - apply in_map. apply filter_In. auto. }
  assert (Hmem : mem [ds] (group_keys [2%nat] subcols) = true) by (apply mem_In; exact Hin).
  rewrite Hmem. f_equal. rewrite !map_map. apply map_ext. intro row.
  rewrite (lookup_map_keys _ _ _ Hin), positive_max_skipna.
  unfold source_holds, subcols. rewrite cells_where_sub. f_equal.
  apply cells_where_ext. intros c' _.
  destruct (is_prefix [source_cmp] c') eqn:E; [|reflexivity]. cbn [andb].
  unfold project. cbn [map label_eqb]. rewrite (level3_of_rest source_cmp c' E).
  apply andb_true_r.
Qed.

Lemma zip_mask {A B C : Type} (h : B -> bool) (G : bool * A * B -> C) :
  forall (rows : list B) (crows : list A),
  map G (combine (combine (map h rows) crows) rows)
  = map (fun x : A * B => G (h (snd x), fst x, snd x)) (combine crows rows).
Proof.
  induction rows as [|row rows IH]; intros [|crow crows]; try reflexivity.
  simpl. rewrite IH. reflexivity.
Qed.

Lemma Forall2_map_r {A B : Type} (P : A -> B -> Prop) (g : A -> B) (l : list A) :
  (forall x, In x l -> P x (g x)) -> Forall2 P l (map g l).
Proof.
  induction l as [|a l IH]; intro H; simpl; constructor.
  - apply H. left. reflexivity.
  - apply IH. intros x Hx. apply H. right. exact Hx.
Qed.

Lemma existsb_eqb_In (x : string) (l : list string) :
  existsb (String.eqb x) l = true <-> In x l.
Proof.
  rewrite existsb_exists. split.
  - intros [y [Hy E]]. apply String.eqb_eq in E. subst. exact Hy.
  - intro H. exists x. split; [exact H | apply String.eqb_refl].
Qed.

Lemma level0_of_prefix (s : string) (c : label) :
  is_prefix [s] c = true -> level 0 c = s.
Proof.
  destruct c as [|x c]; [discriminate|]. simpl. rewrite andb_true_r.
  intro H. apply String.eqb_eq in H. subst. reflexivity.
Qed.

Lemma cmp_list_of_In (q : QuantitySample) (s : string) :
  In s (cmp_list_of q) <-> exists c, In c (columns q) /\ level 0 c = s.
Proof.
  unfold cmp_list_of. rewrite in_map_iff. split.
  - intros [k [<- H]]. apply unique_In, in_map_iff in H.
    destruct H as [c [<- Hc]]. exists c. auto.
  - intros [c [Hc <-]]. exists [level 0 c]. split; [reflexivity|].
    apply unique_In. apply in_map_iff. exists c. auto.
Qed.

Section Rule.

Variable unknown_target : cell -> string -> QuantitySample -> result QuantitySample.
Variable cmp_qnt : DataFrame Q.
Variable qnt_sample : QuantitySample.
Variables task_name before source_cmp ds_source target_info target_cmp : string.
Variable rest : list string.
Variable targets : list string.

Hypothesis Hname : split "_"%char task_name = before :: source_cmp :: rest.
Hypothesis Hsource :
  exists c, In c (columns qnt_sample)
            /\ is_prefix [source_cmp] c = true /\ level 3 c = ds_source.
Hypothesis Hresolve :
  resolve_target (cmp_list_of qnt_sample) source_cmp target_cmp = Some targets.

(** The realizations, with the source condition and the component
    quantities of each. *)
Let ctx : list context :=
  combine (map (source_holds source_cmp ds_source (columns qnt_sample))
             (values qnt_sample))
    (values cmp_qnt).

Lemma perform_rule_start (target_event : string) :
  split "_"%char target_info = [target_cmp; target_event] ->
  _perform_dmg_task unknown_target cmp_qnt
    (task_name, [(("DS" ++ ds_source)%string, [target_info])]) qnt_sample
  = let* q := apply_target unknown_target cmp_qnt (cmp_list_of qnt_sample) source_cmp
                (Some (map (source_holds source_cmp ds_source (columns qnt_sample))
                         (values qnt_sample)))
                qnt_sample target_info in
    Ok q.
Proof.
  intro Htarget. unfold _perform_dmg_task. cbn [fst snd]. rewrite Hname. cbn [bind].
  fold (cmp_list_of qnt_sample).
  assert (Hin : existsb (String.eqb source_cmp) (cmp_list_of qnt_sample) = true).
  { apply existsb_eqb_In. apply cmp_list_of_In.
    destruct Hsource as [c [Hc [Hp _]]]. exists c. split; [exact Hc|].
    apply level0_of_prefix. exact Hp. }
  rewrite Hin. cbn [negb].
  rewrite loc_partial_found.
  - cbn [bind apply_events].
    change (starts_with "LS" ("DS" ++ ds_source)%string) with false.
    change (starts_with "DS" ("DS" ++ ds_source)%string) with true.
    change (drop2 ("DS" ++ ds_source)%string) with ds_source.
    cbv iota. change (List.length [source_cmp]) with 1%nat.
    rewrite (source_mask_of_spec source_cmp ds_source _ _ Hsource).
    cbn [apply_targets].
    destruct (apply_target unknown_target cmp_qnt (cmp_list_of qnt_sample) source_cmp
                (Some (map (source_holds source_cmp ds_source (columns qnt_sample))
                         (values qnt_sample))) qnt_sample target_info);
      reflexivity.
  - destruct Hsource as [c [Hc [Hp _]]]. exists c. auto.
Qed.

(** A rule with the target event 'DS<ds_i>', realization by
    realization. *)
Lemma perform_rule_DS (ds_i : string) :
  split "_"%char target_info = [target_cmp; ("DS" ++ ds_i)%string] ->
  (forall t, In t targets -> filter (is_prefix [t]) (columns cmp_qnt) <> []) ->
  (forall pg, In pg (target_pgs (columns cmp_qnt) targets) ->
              existsb (is_prefix pg) (columns qnt_sample) = true) ->
  _perform_dmg_task unknown_target cmp_qnt
    (task_name, [(("DS" ++ ds_source)%string, [target_info])]) qnt_sample
  = Ok (rowwise ctx
          (fun c row =>
             snd (pgs_fold (columns cmp_qnt) ds_i c
                    (target_pgs (columns cmp_qnt) targets)
                    (columns qnt_sample,
                     if fst c then
                       set_cells (fun k => existsb (String.eqb (level 0 k)) targets)
                         (Some 0) (columns qnt_sample) row
                     else row)))
          (cols_after ds_i (target_pgs (columns cmp_qnt) targets) (columns qnt_sample))
          qnt_sample).
Proof.
  intros Htarget Hne Hcheck. rewrite (perform_rule_start _ Htarget).
  unfold apply_target. rewrite Htarget, Hresolve.
  change (starts_with "LS" ("DS" ++ ds_i)%string) with false.
  change (starts_with "DS" ("DS" ++ ds_i)%string) with true.
  change (drop2 ("DS" ++ ds_i)%string) with ds_i.
  cbv iota. unfold set_components. fold ctx.
  rewrite (set_damage_states_rowwise ctx (columns cmp_qnt) ds_i targets _ _ _ Hne Hcheck).
  reflexivity.
Qed.

(** A rule with the target event 'NA'. *)
Lemma perform_rule_NA :
  split "_"%char target_info = [target_cmp; "NA"] ->
  _perform_dmg_task unknown_target cmp_qnt
    (task_name, [(("DS" ++ ds_source)%string, [target_info])]) qnt_sample
  = Ok (set_components ctx targets None qnt_sample).
Proof.
  intros Htarget. rewrite (perform_rule_start _ Htarget).
  unfold apply_target. rewrite Htarget, Hresolve. reflexivity.
Qed.

End Rule.

Lemma cols_after_new (ds_i : string) (pgs : list label) : forall cols,
  exists new,
    cols_after ds_i pgs cols = cols ++ new
    /\ forall c, In c new <-> ~ In c cols /\ is_target_column ds_i pgs c = true.
Proof.
  induction pgs as [|pg pgs IH]; intro cols.
  - exists []. split; [symmetry; apply app_nil_r|].
    intro c. simpl. split; [tauto | intros [_ H]; discriminate].
  - cbn [cols_after is_target_column existsb].
    destruct (mem (pg ++ [ds_i]) cols) eqn:Ek; cbn [negb].
    + destruct (IH cols) as [new [E H]]. exists new. split; [exact E|].
      intro c. rewrite H. fold (is_target_column ds_i pgs c).
      rewrite orb_true_iff, label_eqb_eq. apply mem_In in Ek.
      split; [tauto|]. intros [Hc [Hk|Ht]]; [subst; contradiction | auto].
    + destruct (IH (cols ++ [pg ++ [ds_i]])) as [new [E H]].
      exists ((pg ++ [ds_i]) :: new). split; [rewrite E, <- app_assoc; reflexivity|].
      intro c. cbn [In]. rewrite H, in_app_iff. fold (is_target_column ds_i pgs c).
      rewrite orb_true_iff, label_eqb_eq. apply mem_false in Ek. cbn [In].
      destruct (list_eq_dec string_dec (pg ++ [ds_i]) c) as [Heq|Hneq].
      * subst c. tauto.
      * tauto.
Qed.

Lemma target_column_level0 (ds_i : string) (cmp_cols : list label)
    (targets : list string) (c : label) :
  is_target_column ds_i (target_pgs cmp_cols targets) c = true ->
  In (level 0 c) targets.
Proof.
  unfold is_target_column, target_pgs. rewrite existsb_exists.
  intros [pg [Hpg E]]. apply label_eqb_eq in E. subst c.
  apply in_flat_map in Hpg. destruct Hpg as [t [Ht Hpg]].
  apply filter_In in Hpg. destruct Hpg as [_ Hp].
  destruct pg as [|x pg]; [discriminate|].
  apply (level0_of_prefix t (x :: pg)) in Hp. simpl in *. subst. exact Ht.
Qed.

Lemma remove_first_In (s t : string) (l : list string) :
  NoDup l -> (In t (remove_first s l) <-> In t l /\ t <> s).
Proof.
  induction 1 as [|y l Hy Hnd IH]; simpl; [tauto|].
  destruct (String.eqb y s) eqn:E.
  - apply String.eqb_eq in E. subst y. split.
    + intro H. split; [auto|]. intro. subst. contradiction.
    + intros [[H|H] N]; [congruence | exact H].
  - apply String.eqb_neq in E. simpl. rewrite IH. split.
    + intros [H|[H N]]; [subst; auto | auto].
    + intros [[H|H] N]; auto.
Qed.

Lemma cmp_list_of_NoDup (q : QuantitySample) : NoDup (cmp_list_of q).
Proof.
  unfold cmp_list_of.
  apply NoDup_map_NoDup_ForallPairs; [|apply unique_NoDup].
  intros a b Ha Hb E.
  apply unique_In, in_map_iff in Ha. apply unique_In, in_map_iff in Hb.
  destruct Ha as [x [<- _]]. destruct Hb as [y [<- _]].
  change (level 0 x = level 0 y) in E. rewrite E. reflexivity.
Qed.

(** C3.  A task with one rule, from the damage state [ds_source] of the
    source component to one target.  The target 'ALL' stands for the
    components of the damage sample other than the source component.
    With the target event 'NA' the task returns the sample with the
    cells of the target components undefined in the realizations where
    the source condition holds, and nothing else changed.  With the
    target event 'DS<ds_i>' it returns the sample with the columns of
    that damage state added for the location-direction pairs of the
    target components that had none, and, in the realizations where the
    source condition holds, the quantity of every pair of a target
    component in its column of that damage state and 0 in the other
    columns of the target components; the other realizations keep their
    cells, with 0 in the columns added. *)
Theorem perform_dmg_task_rule
    (unknown_target : cell -> string -> QuantitySample -> result QuantitySample)
    (cmp_qnt : DataFrame Q) (qnt_sample : QuantitySample)
    (task_name before source_cmp ds_source target_info target_cmp : string)
    (rest : list string) (targets : list string)
    (Hname : split "_"%char task_name = before :: source_cmp :: rest)
    (Hsource : exists c, In c (columns qnt_sample)
                         /\ is_prefix [source_cmp] c = true
                         /\ level 3 c = ds_source)
    (Hresolve : resolve_target (cmp_list_of qnt_sample) source_cmp target_cmp
                = Some targets)
    (Hwf : well_formed qnt_sample) (Hwfc : well_formed cmp_qnt)
    (Hrows : List.length (values cmp_qnt) = List.length (values qnt_sample)) :
  let task := (task_name, [(("DS" ++ ds_source)%string, [target_info])]) in
  let holds := source_holds source_cmp ds_source (columns qnt_sample) in
  (target_cmp = "ALL" ->
   forall t, In t targets <-> In t (cmp_list_of qnt_sample) /\ t <> source_cmp)
  /\ (split "_"%char target_info = [target_cmp; "NA"] ->
      exists qnt',
        _perform_dmg_task unknown_target cmp_qnt task qnt_sample = Ok qnt'
        /\ columns qnt' = columns qnt_sample
        /\ Forall2 (fun row row' =>
                      cleared targets (columns qnt_sample) (holds row) row row')
             (values qnt_sample) (values qnt'))
  /\ (forall ds_i,
      split "_"%char target_info = [target_cmp; ("DS" ++ ds_i)%string] ->
      (forall t, In t targets ->
         exists pg, In pg (columns cmp_qnt) /\ is_prefix [t] pg = true) ->
      (forall pg, In pg (target_pgs (columns cmp_qnt) targets) ->
         exists c, In c (columns qnt_sample) /\ is_prefix pg c = true) ->
      exists qnt',
        _perform_dmg_task unknown_target cmp_qnt task qnt_sample = Ok qnt'
        /\ (exists new,
              columns qnt' = columns qnt_sample ++ new
              /\ forall c, In c new <->
                           ~ In c (columns qnt_sample)
                           /\ is_target_column ds_i
                                (target_pgs (columns cmp_qnt) targets) c = true)
        /\ Forall2 (fun (cr : list Q * list cell) row' =>
                      forced ds_i (columns cmp_qnt) targets (columns qnt_sample)
                        (columns qnt') (holds (snd cr)) (fst cr) (snd cr) row')
             (combine (values cmp_qnt) (values qnt_sample)) (values qnt')).
Proof.
  intros task holds. subst task. split; [|split].
  - (* ALL *)
    intros -> t. unfold resolve_target in Hresolve. simpl in Hresolve.
    injection Hresolve as <-.
    destruct (existsb (String.eqb source_cmp) (cmp_list_of qnt_sample)) eqn:E.
    + apply remove_first_In. apply cmp_list_of_NoDup.
    + split; [|tauto]. intro H. split; [exact H|]. intros ->.
      apply existsb_eqb_In in H. congruence.
  - (* NA *)
    intro Htarget.
    rewrite (perform_rule_NA unknown_target cmp_qnt qnt_sample task_name before
               source_cmp ds_source target_info target_cmp rest targets
               Hname Hsource Hresolve Htarget).
    eexists. split; [reflexivity|]. split; [reflexivity|].
    unfold set_components, rowwise. cbn [values].
    rewrite (zip_mask holds
               (fun cr : bool * list Q * list cell =>
                  if fst (fst cr)
                  then set_cells (fun k => existsb (String.eqb (level 0 k)) targets)
                         None (columns qnt_sample) (snd cr)
                  else snd cr)).
    cbn [fst snd].
    unfold well_formed in Hwf. revert Hrows Hwf.
    generalize (values cmp_qnt) as crows. generalize (values qnt_sample) as rows.
    induction rows as [|row rows IH]; intros [|crow crows] Hrows Hwf;
      try discriminate; [constructor|].
    inversion Hwf as [|? ? Hlen Hwf']; subst. injection Hrows as Hrows.
    cbn [combine map fst snd]. constructor; [|apply IH; assumption].
    unfold cleared. destruct (holds row) eqn:Eh.
    + split; [rewrite length_set_cells; [symmetry|]; exact Hlen|].
      intros c Hc. rewrite lookup_set_cells.
      destruct (lookup_some _ row c Hlen (proj2 (mem_In c _) Hc)) as [x Hx].
      rewrite Hx. cbn [option_map]. split.
      * intros _ Hin. apply existsb_eqb_In in Hin. rewrite Hin. reflexivity.
      * intros [H|H]; [discriminate|].
        destruct (existsb (String.eqb (level 0 c)) targets) eqn:E; [|reflexivity].
        apply existsb_eqb_In in E. contradiction.
    + split; [reflexivity|]. intros c Hc. split; [discriminate | reflexivity].
  - (* DS *)
    intros ds_i Htarget Hpgs Hcols.
    assert (Hne : forall t, In t targets ->
                            filter (is_prefix [t]) (columns cmp_qnt) <> []).
    { intros t Ht E. destruct (Hpgs t Ht) as [pg [Hin Hp]].
      assert (H : In pg (filter (is_prefix [t]) (columns cmp_qnt)))
        by (apply filter_In; auto).
      rewrite E in H. destruct H. }
    assert (Hcheck : forall pg, In pg (target_pgs (columns cmp_qnt) targets) ->
                                existsb (is_prefix pg) (columns qnt_sample) = true).
    { intros pg Hpg. apply existsb_exists. apply Hcols. exact Hpg. }
    rewrite (perform_rule_DS unknown_target cmp_qnt qnt_sample task_name before
               source_cmp ds_source target_info target_cmp rest targets
               Hname Hsource Hresolve ds_i Htarget Hne Hcheck).
    eexists. split; [reflexivity|]. split; [apply cols_after_new|].
    unfold rowwise. cbn [values columns].
    rewrite (zip_mask holds
               (fun cr : bool * list Q * list cell =>
                  snd (pgs_fold (columns cmp_qnt) ds_i (fst cr)
                         (target_pgs (columns cmp_qnt) targets)
                         (columns qnt_sample,
                          if fst (fst cr)
                          then set_cells
                                 (fun k => existsb (String.eqb (level 0 k)) targets)
                                 (Some 0) (columns qnt_sample) (snd cr)
                          else snd cr)))).
    cbn [fst snd].
    apply Forall2_map_r. intros [crow row] Hin. cbn [fst snd].
    assert (Hlen : List.length row = List.length (columns qnt_sample)).
    { apply in_combine_r in Hin. unfold well_formed in Hwf.
      rewrite Forall_forall in Hwf. apply Hwf. exact Hin. }
    assert (Hclen : List.length crow = List.length (columns cmp_qnt)).
    { apply in_combine_l in Hin. unfold well_formed in Hwfc.
      rewrite Forall_forall in Hwfc. apply Hwfc. exact Hin. }
    set (pgs := target_pgs (columns cmp_qnt) targets).
    set (row0 := if holds row
                 then set_cells (fun k => existsb (String.eqb (level 0 k)) targets)
                        (Some 0) (columns qnt_sample) row
                 else row).
    assert (Hlen0 : List.length row0 = List.length (columns qnt_sample)).
    { unfold row0. destruct (holds row); [apply length_set_cells|]; exact Hlen. }
    assert (Hq : forall pg, In pg pgs ->
                            exists q, lookup (columns cmp_qnt) crow pg = Some q).
    { intros pg Hpg. apply lookup_some; [exact Hclen|]. apply mem_In.
      unfold pgs, target_pgs in Hpg. apply in_flat_map in Hpg.
      destruct Hpg as [t [_ Hpg]]. apply filter_In in Hpg. tauto. }
    destruct (pgs_fold_spec (columns cmp_qnt) ds_i (holds row) crow pgs
                (columns qnt_sample) row0 Hlen0 Hq) as [_ [Hl Hlook]].
    unfold forced. split; [exact Hl|].
    intros c Hc. rewrite Hlook. split.
    + intro Eh. unfold row0. rewrite Eh. split; [|split].
      * intros pg Hpg ->. destruct (Hq pg Hpg) as [q Hpgq]. exists q.
        split; [exact Hpgq|].
        assert (Et : is_target_column ds_i pgs (pg ++ [ds_i]) = true).
        { apply existsb_exists. exists pg. split; [exact Hpg | apply label_eqb_refl]. }
        rewrite Et, removelast_app_one, Hpgq. reflexivity.
      * intros Et Hin0. fold pgs in Et. rewrite Et, lookup_set_cells.
        assert (Hmem : mem c (columns qnt_sample) = true).
        { apply mem_In. apply cols_after_In in Hc. destruct Hc as [Hc|Hc]; [exact Hc|].
          fold pgs in Hc. congruence. }
        destruct (lookup_some _ row c Hlen Hmem) as [x Hx]. rewrite Hx.
        cbn [option_map]. apply existsb_eqb_In in Hin0. rewrite Hin0. reflexivity.
      * intro Hnot.
        destruct (is_target_column ds_i pgs c) eqn:Et.
        -- exfalso. apply Hnot. apply (target_column_level0 ds_i (columns cmp_qnt)).
           exact Et.
        -- rewrite lookup_set_cells.
           destruct (existsb (String.eqb (level 0 c)) targets) eqn:E.
           ++ apply existsb_eqb_In in E. contradiction.
           ++ destruct (lookup (columns qnt_sample) row c); reflexivity.
    + intro Eh. unfold row0. rewrite Eh. split.
      * intro Hin0. apply mem_In in Hin0. rewrite Hin0.
        destruct (is_target_column ds_i pgs c); reflexivity.
      * intro Hnot.
        assert (Et : is_target_column ds_i pgs c = true).
        { apply cols_after_In in Hc. destruct Hc as [Hc|Hc]; [contradiction | exact Hc]. }
        rewrite Et. apply mem_false in Hnot. rewrite Hnot. reflexivity.
Qed.

End ProcessFacts.

Lemma perform_dmg_task_rule_witness :
  exists qnt',
    Process._perform_dmg_task (fun _ _ _ => Raise KeyError) Process.cmp_qnt_example
      ("1_A", [("DS1", ["B_DS2"])]) Process.qnt_sample_example = Ok qnt'
    /\ (exists new,
          Frame.columns qnt' = (Frame.columns Process.qnt_sample_example ++ new)%list
          /\ forall c, In c new <->
                       ~ In c (Frame.columns Process.qnt_sample_example)
                       /\ Process.is_target_column "2"
                            (Process.target_pgs
                               (Frame.columns Process.cmp_qnt_example) ["B"]) c
                          = true)
    /\ Forall2 (fun (cr : list Q * list Process.cell) row' =>
                  Process.forced "2" (Frame.columns Process.cmp_qnt_example) ["B"]
                    (Frame.columns Process.qnt_sample_example) (Frame.columns qnt')
                    (Process.source_holds "A" "1"
                       (Frame.columns Process.qnt_sample_example) (snd cr))
                    (fst cr) (snd cr) row')
         (combine (Frame.values Process.cmp_qnt_example)
            (Frame.values Process.qnt_sample_example))
         (Frame.values qnt').
Proof.
  refine (proj2 (proj2 (perform_dmg_task_rule (fun _ _ _ => Raise KeyError)
                          Process.cmp_qnt_example Process.qnt_sample_example
                          "1_A" "1" "A" "1" "B_DS2" "B" [] ["B"] _ _ _ _ _ _))
            "2" _ _ _).
  - reflexivity.
  - exists ["A"; "1"; "1"; "1"]. split; [simpl; tauto | split; reflexivity].
  - reflexivity.
  - repeat constructor.
  - repeat constructor.
  - reflexivity.
  - reflexivity.
  - intros t [<- | []]. exists ["B"; "1"; "1"]. split; [simpl; tauto | reflexivity].
  - intros pg H. simpl in H. destruct H as [<- | [<- | []]].
    + exists ["B"; "1"; "1"; "0"]. split; [simpl; tauto | reflexivity].
    + exists ["B"; "2"; "1"; "0"]. split; [simpl; tauto | reflexivity].
Defined.

(** ** Damage states, in general *)

Section DamageStateFacts.

Import Frame Damage.
Local Open Scope list_scope.

Lemma last_pick_none (picks : list (option Z)) :
  Forall (fun p => p = None) picks -> last_pick picks = 0%Z.
Proof.
  unfold last_pick. generalize 0%Z as acc.
  induction picks as [|p picks IH]; intros acc H; [reflexivity|].
  inversion H; subst. simpl. apply IH. assumption.
Qed.

(** The last pick wins, whatever the picks before it are. *)
Lemma last_pick_last (before after : list (option Z)) (z : Z) :
  Forall (fun p => p = None) after ->
  last_pick (before ++ Some z :: after) = z.
Proof.
  intro H. unfold last_pick. rewrite fold_left_app. cbn [fold_left].
  generalize z as acc. clear z.
  induction H as [|p after Hp _ IH]; intro acc; [reflexivity|].
  subst p. simpl. apply IH.
Qed.

Lemma find_cell_map {A B : Type} (p : label -> bool) (g : A -> B) (cols : list label) :
  forall row : list A,
  find_cell p cols (map g row)
  = option_map (fun cv : label * A => (fst cv, g (snd cv))) (find_cell p cols row).
Proof.
  induction cols as [|c cols IH]; intros [|v row]; try reflexivity.
  simpl. destruct (p c); [reflexivity | apply IH].
Qed.

Lemma combine_map_self {A B : Type} (h : A -> B) (l : list A) :
  combine l (map h l) = map (fun a => (a, h a)) l.
Proof.
  induction l as [|a l IH]; simpl; [reflexivity|]. rewrite IH. reflexivity.
Qed.

Section OneRow.

Variables cap_cols lsds_cols ds_cols : list label.
Variable d : Q.
Variable cap_row : list Q.
Variable lsds_row : list Z.

Let dmg_eval_row : list bool := map (fun c => Qltb (c - d) 0) cap_row.

(** The loop over the limit states, seen from one realization: the cell
    of every block is the last pick among its exceeded limit states. *)
Lemma update_ds_rows_last_pick (ls_list : list string) :
  forall h : label -> Z,
  fold_left (fun ds_row LS_id =>
               update_ds_row cap_cols lsds_cols ds_cols LS_id dmg_eval_row lsds_row ds_row)
    ls_list (map h ds_cols)
  = map (fun k =>
           fold_left (fun acc p => match p with Some z => z | None => acc end)
             (map (exceeded_pick cap_cols lsds_cols d cap_row lsds_row k) ls_list)
             (h k))
      ds_cols.
Proof.
  induction ls_list as [|LS ls_list IH]; intro h; [reflexivity|].
  cbn [fold_left map]. unfold update_ds_row at 2.
  rewrite combine_map_self, map_map. cbn [fst snd].
  rewrite (IH (fun k =>
                 match find_cell (fun c => label_eqb (block_of c) k
                                           && String.eqb (level 4 c) LS)
                         cap_cols dmg_eval_row with
                 | Some (c, true) =>
                     match lookup lsds_cols lsds_row c with
                     | Some pick => pick
                     | None => h k
                     end
                 | _ => h k
                 end)).
  apply map_ext. intro k. f_equal.
  unfold exceeded_pick, dmg_eval_row. rewrite find_cell_map.
  destruct (find_cell (fun c => label_eqb (block_of c) k && String.eqb (level 4 c) LS)
              cap_cols cap_row) as [[c capacity]|]; [|reflexivity].
  cbn [option_map fst snd]. destruct (Qltb (capacity - d) 0); reflexivity.
Qed.

End OneRow.

Lemma evaluate_limit_states_rowwise {X : Type} (cap_cols lsds_cols ds_cols : list label)
    (ctx : list (list bool * list Z)) (ls_list : list string) :
  forall (g : list bool * list Z -> X -> list Z) (D0 : list X),
  (forall c, In c cap_cols -> In c lsds_cols) ->
  evaluate_limit_states cap_cols lsds_cols ds_cols (map fst ctx) (map snd ctx) ls_list
    (map (fun r : (list bool * list Z) * X => g (fst r) (snd r)) (combine ctx D0))
  = Ok (map (fun r : (list bool * list Z) * X =>
               fold_left (fun ds_row LS_id =>
                            update_ds_row cap_cols lsds_cols ds_cols LS_id
                              (fst (fst r)) (snd (fst r)) ds_row)
                 ls_list (g (fst r) (snd r)))
          (combine ctx D0)).
Proof.
  induction ls_list as [|LS ls_list IH]; intros g D0 Hsub; [reflexivity|].
  cbn [evaluate_limit_states].
  assert (Hall : forallb (fun c => mem c lsds_cols)
                   (filter (fun c => String.eqb (level 4 c) LS) cap_cols) = true).
  { apply forallb_forall. intros c Hc. apply filter_In in Hc.
    apply mem_In. apply Hsub. tauto. }
  rewrite Hall.
  assert (Hctx : combine (map fst ctx) (map snd ctx) = ctx).
  { clear. induction ctx as [|[e l] ctx' IH]; simpl; [reflexivity|].
    rewrite IH. reflexivity. }
  rewrite Hctx, combine_map_ctx, map_map. cbn [fst snd].
  apply (IH (fun c row => update_ds_row cap_cols lsds_cols ds_cols LS
                            (fst c) (snd c) (g c row)) D0 Hsub).
Qed.

Lemma map_const_combine {A B C : Type} (z : C) (l1 : list A) (l2 : list B) :
  List.length l1 = List.length l2 ->
  map (fun _ => z) l2 = map (fun _ : A * B => z) (combine l1 l2).
Proof.
  revert l2. induction l1 as [|a l1 IH]; intros [|b l2] H; try discriminate;
    [reflexivity|].
  simpl. f_equal. apply IH. simpl in H. congruence.
Qed.

(** X14.  What [_evaluate_damage_state] computes, for samples that cover the
    same realizations and limit states: the damage state of a block in a
    realization is the pick of the limit state that is evaluated last
    among the limit states of the block whose capacity is below the
    demand, and 0 when there is none; the limit states are evaluated in
    the order in which their ids first appear in the columns of the
    capacity sample. *)
Lemma evaluate_damage_state_last_exceeded (demand : list Q)
    (capacity_sample : DataFrame Q) (lsds_sample : DataFrame Z) :
  List.length demand = List.length (values capacity_sample) ->
  List.length (values lsds_sample) = List.length (values capacity_sample) ->
  (forall c, In c (columns capacity_sample) -> In c (columns lsds_sample)) ->
  _evaluate_damage_state (Some demand) capacity_sample lsds_sample
  = Ok (mkDF (group_keys [0; 1; 2; 3]%nat (columns capacity_sample))
          (map (fun r : (Q * list Q) * list Z =>
                  map (fun k =>
                         last_pick
                           (map (exceeded_pick (columns capacity_sample)
                                   (columns lsds_sample)
                                   (fst (fst r)) (snd (fst r)) (snd r) k)
                              (ls_list_of (columns capacity_sample))))
                    (group_keys [0; 1; 2; 3]%nat (columns capacity_sample)))
             (combine (combine demand (values capacity_sample))
                (values lsds_sample)))).
Proof.
  intros Hd Hl Hsub. unfold _evaluate_damage_state.
  rewrite Hd, Nat.eqb_refl. cbn [negb].
  fold (ls_list_of (columns capacity_sample)).
  set (cap_cols := columns capacity_sample).
  set (lsds_cols := columns lsds_sample).
  set (ds_cols := group_keys [0; 1; 2; 3]%nat cap_cols).
  set (rows := combine (combine demand (values capacity_sample)) (values lsds_sample)).
  set (ctx := map (fun r : (Q * list Q) * list Z =>
                     (map (fun c => Qltb (c - fst (fst r)) 0) (snd (fst r)), snd r))
                rows).
  assert (Hlen1 : List.length (combine demand (values capacity_sample))
                  = List.length (values capacity_sample)).
  { rewrite length_combine, Hd. apply Nat.min_id. }
  assert (Hlen2 : List.length rows = List.length (values capacity_sample)).
  { unfold rows. rewrite length_combine, Hlen1, Hl. apply Nat.min_id. }
  assert (HE : map (fun dr : Q * list Q => map (fun c => Qltb (c - fst dr) 0) (snd dr))
                 (combine demand (values capacity_sample))
               = map fst ctx).
  { unfold ctx, rows. rewrite map_map. cbn [fst].
    revert Hl Hlen1. generalize (values lsds_sample) as L.
    generalize (combine demand (values capacity_sample)) as DC.
    generalize (values capacity_sample) as CR. clear.
    intros CR DC. revert CR. induction DC as [|x DC IH]; intros CR L Hl H1.
    - reflexivity.
    - destruct CR as [|y CR]; [discriminate|]. destruct L as [|z L]; [discriminate|].
      simpl. f_equal. apply (IH CR); simpl in *; congruence. }
  assert (HL : values lsds_sample = map snd ctx).
  { unfold ctx, rows. rewrite map_map. cbn [snd].
    revert Hl Hlen1. generalize (values lsds_sample) as L.
    generalize (combine demand (values capacity_sample)) as DC.
    generalize (values capacity_sample) as CR. clear.
    intros CR DC. revert CR. induction DC as [|x DC IH]; intros CR L Hl H1.
    - destruct CR; [|discriminate]. destruct L; [reflexivity | discriminate].
    - destruct CR as [|y CR]; [discriminate|]. destruct L as [|z L]; [discriminate|].
      simpl. f_equal. apply (IH CR); simpl in *; congruence. }
  rewrite HE, HL.
  assert (HD : map (fun _ : list Q => map (fun _ : label => 0%Z) ds_cols)
                 (values capacity_sample)
               = map (fun r : (list bool * list Z) * list Q =>
                        map (fun _ : label => 0%Z) ds_cols)
                   (combine ctx (values capacity_sample))).
  { apply map_const_combine. unfold ctx. rewrite length_map. exact Hlen2. }
  rewrite HD.
  rewrite (evaluate_limit_states_rowwise cap_cols lsds_cols ds_cols ctx
             (ls_list_of cap_cols)
             (fun _ _ => map (fun _ : label => 0%Z) ds_cols)
             (values capacity_sample) Hsub).
  cbn [bind]. f_equal. f_equal.
  assert (Hrows : combine ctx (values capacity_sample)
                  = map (fun r : (Q * list Q) * list Z =>
                           ((map (fun c => Qltb (c - fst (fst r)) 0) (snd (fst r)),
                             snd r), snd (fst r)))
                      rows).
  { unfold ctx, rows. revert Hd Hl.
    generalize (values lsds_sample) as L. generalize (values capacity_sample) as CR.
    generalize demand as D. clear.
    induction D as [|x D IH]; intros [|y CR] L Hd Hl; try discriminate.
    - reflexivity.
    - destruct L as [|z L]; [discriminate|]. simpl. f_equal.
      apply IH; simpl in *; congruence. }
  rewrite Hrows, map_map. apply map_ext. intros [[dv cap_row] lsds_row].
  cbn [fst snd].
  rewrite (update_ds_rows_last_pick cap_cols lsds_cols ds_cols dv cap_row lsds_row
             (ls_list_of cap_cols) (fun _ => 0%Z)).
  reflexivity.
Qed.

End DamageStateFacts.

(** ** Python strings *)

Section PyStrFacts.

Import Demand PyStr.

Lemma string_ind2 (P : string -> Prop) :
  P EmptyString ->
  (forall c, P (String c EmptyString)) ->
  (forall c c' s, P s -> P (String c' s) -> P (String c (String c' s))) ->
  forall s, P s.
Proof.
  intros H0 H1 H2 s.
  assert (H : P s /\ forall c, P (String c s)).
  { induction s as [|c' s [IH1 IH2]]; [split; [exact H0 | exact H1]|].
    split; [apply IH2|]. intro c. apply H2; [exact IH1 | apply IH2]. }
  apply H.
Qed.

Lemma digit_chars (c : ascii) :
  is_digit c = true ->
  is_space c = false /\ Ascii.eqb c "-" = false /\ Ascii.eqb c "+" = false
  /\ Ascii.eqb c "_" = false.
Proof.
  destruct c as [b0 b1 b2 b3 b4 b5 b6 b7].
  destruct b0, b1, b2, b3, b4, b5, b6, b7; vm_compute; intro H;
    try discriminate H; repeat split.
Qed.

Lemma all_chars_weaken (p q : ascii -> bool) (s : string) :
  (forall c, p c = true -> q c = true) ->
  all_chars p s = true -> all_chars q s = true.
Proof.
  intro H. induction s as [|c s IH]; simpl; [reflexivity|].
  intro E. apply andb_true_iff in E. destruct E as [E1 E2].
  rewrite (H c E1), (IH E2). reflexivity.
Qed.

Lemma all_chars_app (p : ascii -> bool) (s t : string) :
  all_chars p (s ++ t) = all_chars p s && all_chars p t.
Proof.
  induction s as [|c s IH]; simpl; [reflexivity|].
  rewrite IH, andb_assoc. reflexivity.
Qed.

Lemma uint_digits (d : Decimal.uint) :
  all_chars is_digit (NilEmpty.string_of_uint d) = true.
Proof.
  induction d; simpl; auto.
Qed.

Lemma rstrip_none (p : ascii -> bool) (s : string) :
  all_chars (fun c => negb (p c)) s = true -> rstrip p s = s.
Proof.
  induction s as [|c s IH]; simpl; [reflexivity|].
  intro E. apply andb_true_iff in E. destruct E as [E1 E2].
  rewrite (IH E2). destruct s; [|reflexivity].
  apply negb_true_iff in E1. rewrite E1. reflexivity.
Qed.

Lemma lstrip_none (p : ascii -> bool) (s : string) :
  all_chars (fun c => negb (p c)) s = true -> lstrip p s = s.
Proof.
  destruct s as [|c s]; simpl; [reflexivity|].
  intro E. apply andb_true_iff in E. destruct E as [E1 _].
  apply negb_true_iff in E1. rewrite E1. reflexivity.
Qed.

Lemma strip_none (p : ascii -> bool) (s : string) :
  all_chars (fun c => negb (p c)) s = true -> strip p s = s.
Proof.
  intro H. unfold strip. rewrite (lstrip_none p s H). apply rstrip_none. exact H.
Qed.

Lemma digits_of_digits (s : string) :
  forall b, all_chars is_digit s = true -> (s <> EmptyString \/ b = true) ->
  digits_of b s = Some s.
Proof.
  induction s as [|c s IH]; intros b E Hb.
  - destruct Hb as [Hb | ->]; [congruence | reflexivity].
  - simpl in E. apply andb_true_iff in E. destruct E as [E1 E2].
    simpl. rewrite E1, (IH true E2); [reflexivity | right; reflexivity].
Qed.

(** A literal broken by a dash is no integer. *)
Lemma digits_of_dash (s r : string) :
  forall b, all_chars is_digit s = true ->
  digits_of b (s ++ String "-" r) = None.
Proof.
  induction s as [|c s IH]; intros b E.
  - reflexivity.
  - simpl in E. apply andb_true_iff in E. destruct E as [E1 E2].
    simpl. rewrite E1, (IH true E2). reflexivity.
Qed.

Lemma string_of_uint_nonnil (d : Decimal.uint) :
  d <> Decimal.Nil ->
  NilZero.string_of_uint d = NilEmpty.string_of_uint d
  /\ NilEmpty.string_of_uint d <> EmptyString.
Proof.
  destruct d; intro H; try congruence; split; try reflexivity; discriminate.
Qed.

(** The decimal string of a number that is not negative. *)
Lemma str_of_int_digits (z : Z) : (0 <= z)%Z -> digit_string (str_of_int z).
Proof.
  intro Hz. unfold str_of_int, digit_string. destruct z as [|p|p]; [| |lia].
  - split; [discriminate | reflexivity].
  - cbn [Z.to_int NilZero.string_of_int].
    destruct (string_of_uint_nonnil _ (Unsigned.to_uint_nonnil p)) as [-> Hne].
    split; [exact Hne | apply uint_digits].
Qed.

Lemma py_int_digits (u : Decimal.uint) :
  u <> Decimal.Nil ->
  py_int (NilEmpty.string_of_uint u) = Ok (Z.of_uint u).
Proof.
  intro Hu. destruct (string_of_uint_nonnil u Hu) as [_ Hne].
  pose proof (uint_digits u) as Hd. unfold py_int.
  rewrite strip_none
    by (apply (all_chars_weaken is_digit); [|exact Hd];
        intros c Hc; apply digit_chars in Hc; destruct Hc as [-> _]; reflexivity).
  destruct (NilEmpty.string_of_uint u) as [|c s] eqn:E; [congruence|].
  assert (Hc : is_digit c = true)
    by (simpl in Hd; apply andb_true_iff in Hd; tauto).
  apply digit_chars in Hc. destruct Hc as [_ [-> [-> _]]]. cbn [fst snd].
  rewrite digits_of_digits; [| exact Hd | left; discriminate].
  rewrite <- E, NilEmpty.usu. reflexivity.
Qed.

(** [int(str(z))] is [z]. *)
Lemma py_int_str_of_int (z : Z) : py_int (str_of_int z) = Ok z.
Proof.
  unfold str_of_int. destruct z as [|p|p].
  - reflexivity.
  - cbn [Z.to_int NilZero.string_of_int].
    destruct (string_of_uint_nonnil _ (Unsigned.to_uint_nonnil p)) as [-> _].
    rewrite py_int_digits by apply Unsigned.to_uint_nonnil.
    unfold Z.of_uint. rewrite DecimalPos.Unsigned.of_to. reflexivity.
  - cbn [Z.to_int NilZero.string_of_int].
    destruct (string_of_uint_nonnil _ (Unsigned.to_uint_nonnil p)) as [-> Hne].
    pose proof (uint_digits (Pos.to_uint p)) as Hd. unfold py_int.
    rewrite strip_none.
    + cbn [Ascii.eqb Bool.eqb fst snd].
      rewrite digits_of_digits; [| exact Hd | left; exact Hne].
      rewrite NilEmpty.usu. unfold Z.of_uint.
      rewrite DecimalPos.Unsigned.of_to. reflexivity.
    + cbn [all_chars]. apply andb_true_iff. split; [reflexivity|].
      apply (all_chars_weaken is_digit); [|exact Hd].
      intros c Hc. apply digit_chars in Hc. destruct Hc as [-> _]. reflexivity.
Qed.

End PyStrFacts.

(** ** Locations and directions of the components *)

Section AssetFacts.

Import Frame Demand PyStr Asset.
Local Open Scope list_scope.

Lemma split_dashes_cons2 (c c' : ascii) (s : string) :
  split_dashes (String c (String c' s))
  = if Ascii.eqb c "-" && Ascii.eqb c' "-" then EmptyString :: split_dashes s
    else cons_char c (split_dashes (String c' s)).
Proof. reflexivity. Qed.

Lemma contains_dashes_cons2 (c c' : ascii) (s : string) :
  contains_dashes (String c (String c' s))
  = (Ascii.eqb c "-" && Ascii.eqb c' "-") || contains_dashes (String c' s).
Proof. reflexivity. Qed.

Lemma contains_char_dashes (s : string) :
  contains_char "-"%char s = false -> contains_dashes s = false.
Proof.
  induction s as [|c s IH]; [reflexivity|].
  cbn [contains_char]. intro H. apply orb_false_iff in H. destruct H as [Hc Hs].
  destruct s as [|c' s']; [reflexivity|].
  rewrite contains_dashes_cons2, (IH Hs), Hc. reflexivity.
Qed.

(** A string without '--' is its own single part. *)
Lemma split_dashes_none (s : string) :
  contains_dashes s = false -> split_dashes s = [s].
Proof.
  induction s as [| c | c c' s IH1 IH2] using string_ind2; try reflexivity.
  intro H. rewrite contains_dashes_cons2 in H. apply orb_false_iff in H.
  destruct H as [Hcc H]. rewrite split_dashes_cons2, Hcc, (IH2 H). reflexivity.
Qed.

(** The first part of a split begins as the string does. *)
Lemma split_dashes_head (s : string) :
  match split_dashes s with
  | String a _ :: _ => exists r, s = String a r
  | _ => True
  end.
Proof.
  induction s as [| c | c c' s IH1 IH2] using string_ind2.
  - exact I.
  - simpl. eauto.
  - rewrite split_dashes_cons2.
    destruct (Ascii.eqb c "-" && Ascii.eqb c' "-"); [exact I|].
    destruct (split_dashes (String c' s)) as [|w ws]; simpl; eauto.
Qed.

(** No part of a split contains '--'. *)
Lemma split_dashes_parts (s : string) :
  Forall (fun part => contains_dashes part = false) (split_dashes s).
Proof.
  induction s as [| c | c c' s IH1 IH2] using string_ind2.
  - repeat constructor.
  - repeat constructor.
  - rewrite split_dashes_cons2.
    destruct (Ascii.eqb c "-" && Ascii.eqb c' "-") eqn:Ecc.
    + constructor; [reflexivity | exact IH1].
    + pose proof (split_dashes_head (String c' s)) as Hh.
      destruct (split_dashes (String c' s)) as [|w ws]; [repeat constructor|].
      inversion IH2 as [|? ? Hw Hws]; subst. cbn [cons_char].
      constructor; [|exact Hws].
      destruct w as [|a w']; [reflexivity|].
      destruct Hh as [r Hr]. injection Hr as -> _.
      rewrite contains_dashes_cons2, Ecc. exact Hw.
Qed.

Lemma split_dashes_app (a b : string) :
  contains_char "-"%char a = false ->
  split_dashes (a ++ "--" ++ b) = a :: split_dashes b.
Proof.
  induction a as [|c a IH]; intro H.
  - reflexivity.
  - cbn [contains_char] in H. apply orb_false_iff in H. destruct H as [Hc Ha].
    specialize (IH Ha).
    change ((String c a ++ "--" ++ b)%string) with (String c (a ++ "--" ++ b)%string).
    destruct ((a ++ "--" ++ b)%string) as [|c' r] eqn:E.
    + destruct a; discriminate E.
    + rewrite split_dashes_cons2, Hc, IH. reflexivity.
Qed.

Lemma contains_dashes_app (a b : string) :
  contains_dashes (a ++ "--" ++ b) = true.
Proof.
  induction a as [|c a IH]; [reflexivity|].
  change ((String c a ++ "--" ++ b)%string) with (String c (a ++ "--" ++ b)%string).
  destruct ((a ++ "--" ++ b)%string) as [|c' r] eqn:E.
  - destruct a; discriminate E.
  - rewrite contains_dashes_cons2, IH. apply orb_true_r.
Qed.

Lemma digit_string_no_dash (s : string) :
  all_chars is_digit s = true -> contains_char "-"%char s = false.
Proof.
  induction s as [|c s IH]; [reflexivity|].
  cbn [all_chars contains_char]. intro H. apply andb_true_iff in H.
  destruct H as [Hc Hs]. rewrite (IH Hs).
  apply digit_chars in Hc. destruct Hc as [_ [-> _]]. reflexivity.
Qed.

(** A range 'a--b' of two decimal strings is no integer. *)
Lemma py_int_range (a b : string) :
  digit_string a -> digit_string b -> py_int (a ++ "--" ++ b) = Raise ValueError.
Proof.
  intros [Hna Ha] [Hnb Hb]. unfold py_int.
  rewrite strip_none.
  - destruct a as [|c a']; [congruence|].
    assert (Hc : is_digit c = true)
      by (simpl in Ha; apply andb_true_iff in Ha; tauto).
    apply digit_chars in Hc. destruct Hc as [_ [Hm [Hp _]]].
    change ((String c a' ++ "--" ++ b)%string)
      with (String c (a' ++ "--" ++ b)%string).
    cbv beta iota. rewrite Hm, Hp. cbn [fst snd].
    change (String c (a' ++ "--" ++ b)%string)
      with ((String c a' ++ String "-" (String "-" b))%string).
    rewrite digits_of_dash by exact Ha. reflexivity.
  - rewrite !all_chars_app. apply andb_true_iff. split; [|apply andb_true_iff; split].
    + apply (all_chars_weaken is_digit); [|exact Ha].
      intros c Hc. apply digit_chars in Hc. destruct Hc as [-> _]. reflexivity.
    + reflexivity.
    + apply (all_chars_weaken is_digit); [|exact Hb].
      intros c Hc. apply digit_chars in Hc. destruct Hc as [-> _]. reflexivity.
Qed.

Section Parsing.

Variable np_int : string -> result Z.
Variable stories : Z.

(** A string without '--' is parsed without a recursive call. *)
Lemma locations_of_flat (roof : Z) (rec rec' : string -> result (list string))
    (loc_str : string) :
  contains_dashes loc_str = false ->
  locations_of np_int stories roof rec loc_str
  = locations_of np_int stories roof rec' loc_str.
Proof.
  intro H. unfold locations_of. rewrite H. reflexivity.
Qed.

Lemma directions_of_flat (rec rec' : string -> result (list string))
    (dir_str : string) :
  contains_dashes dir_str = false ->
  directions_of np_int rec dir_str = directions_of np_int rec' dir_str.
Proof.
  intro H. unfold directions_of. rewrite H. reflexivity.
Qed.

(** The parser of the locations satisfies the recursive equation of
    the source: it is its body applied to itself. *)
Lemma locations_unfold (roof : Z) (loc_str : string) :
  locations np_int stories roof loc_str
  = locations_of np_int stories roof (locations np_int stories roof) loc_str.
Proof.
  unfold locations at 1. unfold locations_of at 1 3.
  destruct (py_int loc_str); [reflexivity|].
  destruct (contains_dashes loc_str); [|reflexivity].
  pose proof (split_dashes_parts loc_str) as Hp.
  destruct (split_dashes loc_str) as [|s_low [|s_high [|x l]]]; try reflexivity.
  inversion Hp as [|? ? Hlow Hp']; subst. inversion Hp' as [|? ? Hhigh _]; subst.
  unfold locations.
  rewrite (locations_of_flat roof
             (locations_of np_int stories roof (fun _ => Raise ValueError))
             (fun _ => Raise ValueError) s_low Hlow).
  rewrite (locations_of_flat roof
             (locations_of np_int stories roof (fun _ => Raise ValueError))
             (fun _ => Raise ValueError) s_high Hhigh).
  reflexivity.
Qed.

Lemma directions_unfold (dir_str : string) :
  directions np_int dir_str = directions_of np_int (directions np_int) dir_str.
Proof.
  unfold directions at 1. unfold directions_of at 1 3.
  destruct (py_int dir_str); [reflexivity|].
  destruct (contains_char ","%char dir_str); [reflexivity|].
  destruct (contains_dashes dir_str); [|reflexivity].
  pose proof (split_dashes_parts dir_str) as Hp.
  destruct (split_dashes dir_str) as [|d_low [|d_high [|x l]]]; try reflexivity.
  inversion Hp as [|? ? Hlow Hp']; subst. inversion Hp' as [|? ? Hhigh _]; subst.
  unfold directions.
  rewrite (directions_of_flat
             (directions_of np_int (fun _ => Raise ValueError))
             (fun _ => Raise ValueError) d_low Hlow).
  rewrite (directions_of_flat
             (directions_of np_int (fun _ => Raise ValueError))
             (fun _ => Raise ValueError) d_high Hhigh).
  reflexivity.
Qed.

Lemma locations_of_digits (roof : Z) (rec : string -> result (list string)) (z : Z) :
  locations_of np_int stories roof rec (str_of_int z) = Ok [str_of_int z].
Proof.
  unfold locations_of. rewrite py_int_str_of_int. reflexivity.
Qed.

Lemma directions_of_digits (rec : string -> result (list string)) (z : Z) :
  directions_of np_int rec (str_of_int z) = Ok [str_of_int z].
Proof.
  unfold directions_of. rewrite py_int_str_of_int. reflexivity.
Qed.

Lemma length_arange_str (lo hi : Z) :
  List.length (arange_str lo hi) = Z.to_nat (hi - lo).
Proof.
  unfold arange_str, arange. rewrite !length_map, length_seq. reflexivity.
Qed.

Lemma locations_range (roof a b : Z) :
  (0 <= a)%Z -> (0 <= b)%Z ->
  locations np_int stories roof (str_of_int a ++ "--" ++ str_of_int b)
  = Ok (arange_str a (b + 1)).
Proof.
  intros Ha Hb.
  pose proof (str_of_int_digits a Ha) as Da.
  pose proof (str_of_int_digits b Hb) as Db.
  unfold locations. unfold locations_of at 1.
  rewrite (py_int_range _ _ Da Db), contains_dashes_app.
  rewrite split_dashes_app by (apply digit_string_no_dash; apply Da).
  rewrite split_dashes_none
    by (apply contains_char_dashes, digit_string_no_dash; apply Db).
  rewrite !locations_of_digits. cbn [bind].
  rewrite !py_int_str_of_int. reflexivity.
Qed.

Lemma contains_char_none (p : ascii -> bool) (x : ascii) (s : string) :
  (forall c, p c = true -> Ascii.eqb c x = false) ->
  all_chars p s = true -> contains_char x s = false.
Proof.
  intro Hp. induction s as [|c s IH]; [reflexivity|].
  cbn [all_chars contains_char]. intro H. apply andb_true_iff in H.
  destruct H as [Hc Hs]. rewrite (Hp c Hc), (IH Hs). reflexivity.
Qed.

Lemma contains_char_app (x : ascii) (s r : string) :
  contains_char x (s ++ r) = contains_char x s || contains_char x r.
Proof.
  induction s as [|c s IH]; [reflexivity|].
  cbn [append contains_char]. rewrite IH, orb_assoc. reflexivity.
Qed.

Lemma digits_no_comma (s : string) :
  all_chars is_digit s = true -> contains_char ","%char s = false.
Proof.
  apply contains_char_none. intros c.
  destruct c as [b0 b1 b2 b3 b4 b5 b6 b7].
  destruct b0, b1, b2, b3, b4, b5, b6, b7; vm_compute; intro H;
    try discriminate H; reflexivity.
Qed.

Lemma directions_range (a b : Z) :
  (0 <= a)%Z -> (0 <= b)%Z ->
  directions np_int (str_of_int a ++ "--" ++ str_of_int b)
  = Ok (arange_str a (b + 1)).
Proof.
  intros Ha Hb.
  pose proof (str_of_int_digits a Ha) as Da.
  pose proof (str_of_int_digits b Hb) as Db.
  unfold directions. unfold directions_of at 1.
  rewrite (py_int_range _ _ Da Db), contains_dashes_app.
  assert (Hcomma : contains_char ","%char (str_of_int a ++ "--" ++ str_of_int b)
                   = false).
  { rewrite !contains_char_app, (digits_no_comma _ (proj2 Da)),
      (digits_no_comma _ (proj2 Db)). reflexivity. }
  rewrite Hcomma.
  rewrite split_dashes_app by (apply digit_string_no_dash; apply Da).
  rewrite split_dashes_none
    by (apply contains_char_dashes, digit_string_no_dash; apply Db).
  rewrite !directions_of_digits. cbn [bind].
  rewrite !py_int_str_of_int. reflexivity.
Qed.

End Parsing.

End AssetFacts.

(** The two parsers on a range, for the use of other proofs. *)
Lemma range_parsers (np_int : string -> result Z)
    (stories a b : Z) :
  (0 <= a)%Z -> (0 <= b)%Z ->
  Asset.get_locations np_int stories
    (Demand.str_of_int a ++ "--" ++ Demand.str_of_int b)
  = Ok (PyStr.arange_str a (b + 1))
  /\ Asset.get_directions np_int
       (Some (Demand.str_of_int a ++ "--" ++ Demand.str_of_int b)%string)
     = Ok (PyStr.arange_str a (b + 1)).
Proof.
  intros Ha Hb. unfold Asset.get_locations, Asset.get_directions.
  rewrite locations_range, directions_range by assumption. split; reflexivity.
Qed.

(** X1.  A range 'a--b' of two numbers that are not negative, as the
    location or as the direction of a component, stands for the numbers
    from a to b, both included, in increasing order, each written as a
    decimal string; there are b + 1 - a of them, and none when b is less
    than a: such a range gives no location and no error.  This holds
    for the parsers of model.py and of model/pelicun_model.py. *)
Theorem locations_and_directions_of_a_range (np_int : string -> result Z)
    (stories a b : Z) (Ha : (0 <= a)%Z) (Hb : (0 <= b)%Z) :
  let range := (Demand.str_of_int a ++ "--" ++ Demand.str_of_int b)%string in
  Asset.get_locations np_int stories range = Ok (PyStr.arange_str a (b + 1))
  /\ Asset._get_locations np_int stories range = Ok (PyStr.arange_str a (b + 1))
  /\ Asset.get_directions np_int (Some range) = Ok (PyStr.arange_str a (b + 1))
  /\ PyStr.arange_str a (b + 1)
     = map (fun i => Demand.str_of_int (a + Z.of_nat i)) (seq 0 (Z.to_nat (b + 1 - a))).
Proof.
  intro range. unfold Asset.get_locations, Asset._get_locations, Asset.get_directions.
  subst range. rewrite !locations_range, directions_range by assumption.
  repeat split. unfold PyStr.arange_str, PyStr.arange. rewrite map_map. reflexivity.
Qed.

Lemma locations_and_directions_of_a_range_witness :
  Asset.get_locations PyStr.py_int 10 "3--5" = Ok ["3"; "4"; "5"]
  /\ Asset.get_directions PyStr.py_int (Some "5--3") = Ok [].
Proof.
  split.
  - exact (proj1 (locations_and_directions_of_a_range PyStr.py_int 10 3 5
                    ltac:(lia) ltac:(lia))).
  - exact (proj1 (proj2 (proj2 (locations_and_directions_of_a_range PyStr.py_int 10 5 3
                                  ltac:(lia) ltac:(lia))))).
Defined.

Section LocationFacts.

Import Frame Demand PyStr Asset.
Local Open Scope list_scope.

Variable np_int : string -> result Z.
Variable stories : Z.

Lemma canonical_str_of_int (z : Z) : canonical (str_of_int z).
Proof.
  exists z. split; [reflexivity|]. split;
    [apply int_of_str_of_int | apply py_int_str_of_int].
Qed.

Lemma canonical_map (l : list Z) : Forall canonical (map str_of_int l).
Proof.
  induction l as [|z l IH]; simpl; constructor;
    [apply canonical_str_of_int | exact IH].
Qed.

Lemma bind_ok {A B : Type} (r : result A) (k : A -> result B) (b : B) :
  bind r k = Ok b -> exists a, r = Ok a /\ k a = Ok b.
Proof.
  destruct r as [a|e]; simpl; [eauto | discriminate].
Qed.

Lemma locations_of_canonical (roof : Z) (rec : string -> result (list string))
    (loc_str : string) (l : list string) :
  locations_of np_int stories roof rec loc_str = Ok l -> Forall canonical l.
Proof.
  unfold locations_of. destruct (py_int loc_str) as [n|e].
  - intro H. injection H as <-. repeat constructor. apply canonical_str_of_int.
  - destruct (contains_dashes loc_str).
    + destruct (split_dashes loc_str) as [|s_low [|s_high [|x r]]]; try discriminate.
      intro H.
      apply bind_ok in H. destruct H as [lo [_ H]].
      apply bind_ok in H. destruct H as [hi [_ H]].
      apply bind_ok in H. destruct H as [low [_ H]].
      apply bind_ok in H. destruct H as [high [_ H]].
      injection H as <-. apply canonical_map.
    + destruct (contains_char ","%char loc_str).
      * intro H. apply bind_ok in H. destruct H as [a [_ H]].
        injection H as <-. apply canonical_map.
      * destruct (String.eqb loc_str "all");
          [intro H; injection H as <-; apply canonical_map|].
        destruct (String.eqb loc_str "top");
          [intro H; injection H as <-; repeat constructor;
           apply canonical_str_of_int|].
        destruct (String.eqb loc_str "roof");
          [intro H; injection H as <-; repeat constructor;
           apply canonical_str_of_int | discriminate].
Qed.

Lemma directions_of_canonical (rec : string -> result (list string))
    (dir_str : string) (l : list string) :
  directions_of np_int rec dir_str = Ok l -> Forall canonical l.
Proof.
  unfold directions_of. destruct (py_int dir_str) as [n|e].
  - intro H. injection H as <-. repeat constructor. apply canonical_str_of_int.
  - destruct (contains_char ","%char dir_str).
    + intro H. apply bind_ok in H. destruct H as [a [_ H]].
      injection H as <-. apply canonical_map.
    + destruct (contains_dashes dir_str); [|discriminate].
      destruct (split_dashes dir_str) as [|d_low [|d_high [|x r]]]; try discriminate.
      intro H.
      apply bind_ok in H. destruct H as [lo [_ H]].
      apply bind_ok in H. destruct H as [hi [_ H]].
      apply bind_ok in H. destruct H as [low [_ H]].
      apply bind_ok in H. destruct H as [high [_ H]].
      injection H as <-. apply canonical_map.
Qed.

(** The version of model/pelicun_model.py differs from the one of
    model.py in the location of the roof only. *)
Lemma locations_of_roof (r1 r2 : Z) (rec1 rec2 : string -> result (list string))
    (loc_str : string) :
  String.eqb loc_str "roof" = false ->
  (forall part, In part (split_dashes loc_str) -> rec1 part = rec2 part) ->
  locations_of np_int stories r1 rec1 loc_str
  = locations_of np_int stories r2 rec2 loc_str.
Proof.
  intros Hroof Hrec. unfold locations_of. rewrite Hroof.
  destruct (py_int loc_str); [reflexivity|].
  destruct (contains_dashes loc_str); [|reflexivity].
  destruct (split_dashes loc_str) as [|s_low [|s_high [|x r]]]; try reflexivity.
  rewrite (Hrec s_low), (Hrec s_high); simpl; auto.
Qed.

End LocationFacts.

(** X2.  Every location and every direction that the parsers return for
    a string is the decimal string of an integer, whatever the form of
    the input: [int] reads it back, as [get_required_demand_type] does
    with the location of a performance group. *)
Theorem locations_and_directions_are_integers (np_int : string -> result Z)
    (stories : Z) (s : string) (l : list string)
    (H : Asset.get_locations np_int stories s = Ok l
         \/ Asset._get_locations np_int stories s = Ok l
         \/ Asset.get_directions np_int (Some s) = Ok l) :
  Forall PyStr.canonical l.
Proof.
  destruct H as [H | [H | H]].
  - apply (locations_of_canonical np_int stories _ _ _ _ H).
  - apply (locations_of_canonical np_int stories _ _ _ _ H).
  - apply (directions_of_canonical np_int _ _ _ H).
Qed.

Lemma locations_and_directions_are_integers_witness :
  Forall PyStr.canonical ["7"].
Proof.
  apply (locations_and_directions_are_integers PyStr.py_int 3 " +0_7 " ["7"]).
  left. reflexivity.
Defined.

(** X3.  The location parsers of model.py and of
    model/pelicun_model.py agree on every string that is not 'roof' and
    is not a range with 'roof' as a bound; on 'roof' the first gives the
    last story, as for 'top', and the second the location above it. *)
Theorem get_locations_versions (np_int : string -> result Z) (stories : Z) :
  (forall loc_str,
     forallb (fun part => negb (String.eqb part "roof")) (PyStr.split_dashes loc_str)
     = true ->
     Asset.get_locations np_int stories loc_str
     = Asset._get_locations np_int stories loc_str)
  /\ Asset.get_locations np_int stories "roof" = Ok [Demand.str_of_int stories]
  /\ Asset.get_locations np_int stories "top" = Ok [Demand.str_of_int stories]
  /\ Asset._get_locations np_int stories "roof" = Ok [Demand.str_of_int (stories + 1)]
  /\ Asset._get_locations np_int stories "top" = Ok [Demand.str_of_int stories].
Proof.
  split; [|repeat split].
  intros loc_str H. rewrite forallb_forall in H.
  unfold Asset.get_locations, Asset._get_locations, Asset.locations.
  assert (Hne : forall part, In part (PyStr.split_dashes loc_str) ->
                             String.eqb part "roof" = false).
  { intros part Hp. apply negb_true_iff. apply H. exact Hp. }
  apply locations_of_roof.
  - destruct (PyStr.contains_dashes loc_str) eqn:E.
    + destruct (String.eqb loc_str "roof") eqn:Er; [|reflexivity].
      apply String.eqb_eq in Er. subst. discriminate E.
    + apply Hne. rewrite (split_dashes_none _ E). left. reflexivity.
  - intros part Hp. apply locations_of_roof; [apply Hne; exact Hp | reflexivity].
Qed.

Section PerformanceGroupFacts.

Import Frame Demand PyStr Asset.
Local Open Scope list_scope.

Lemma arange_str_NoDup (lo hi : Z) : NoDup (arange_str lo hi).
Proof.
  unfold arange_str, arange. rewrite map_map.
  apply NoDup_map_NoDup_ForallPairs; [|apply seq_NoDup].
  intros i j _ _ E. apply str_of_int_inj in E. lia.
Qed.

Lemma arange_str_In (lo hi : Z) (x : string) :
  In x (arange_str lo hi) <-> exists i, (lo <= i < hi)%Z /\ x = str_of_int i.
Proof.
  unfold arange_str, arange. rewrite map_map, in_map_iff. split.
  - intros [n [<- Hn]]. apply in_seq in Hn. exists (lo + Z.of_nat n)%Z.
    split; [lia | reflexivity].
  - intros [i [Hi ->]]. exists (Z.to_nat (i - lo)). split.
    + f_equal. lia.
    + apply in_seq. lia.
Qed.

(** The product of locations and directions has no label twice. *)
Lemma product_NoDup (cmp : string) (dirs : list string) :
  NoDup dirs ->
  forall locs, NoDup locs ->
  NoDup (flat_map (fun loc => map (fun dir => [cmp; loc; dir]) dirs) locs).
Proof.
  intros Hd locs. induction locs as [|loc locs IH]; intro Hl; [constructor|].
  inversion Hl as [|? ? Hnotin Hl']; subst. cbn [flat_map].
  apply NoDup_app.
  - apply NoDup_map_NoDup_ForallPairs; [|exact Hd].
    intros x y _ _ E. congruence.
  - apply IH. exact Hl'.
  - intros pg H1 H2. apply in_map_iff in H1. destruct H1 as [d [<- _]].
    apply in_flat_map in H2. destruct H2 as [loc' [Hloc' H2]].
    apply in_map_iff in H2. destruct H2 as [d' [E _]].
    injection E as -> _. contradiction.
Qed.

Lemma length_product (cmp : string) (dirs locs : list string) :
  List.length (flat_map (fun loc => map (fun dir => [cmp; loc; dir]) dirs) locs)
  = (List.length locs * List.length dirs)%nat.
Proof.
  induction locs as [|loc locs IH]; [reflexivity|].
  cbn [flat_map]. rewrite length_app, length_map, IH. reflexivity.
Qed.

End PerformanceGroupFacts.

(** X4.  A row of the component table whose location and direction
    are ranges 'a--b' and 'c--d' of numbers that are not negative is
    expanded into the performance groups (component, i, j) for every
    location i from a to b and every direction j from c to d: each of
    them once, (b + 1 - a)(d + 1 - c) in all. *)
Theorem performance_groups_of_ranges (np_int : string -> result Z)
    (stories : Z) (cmp : string) (a b c d : Z)
    (Ha : (0 <= a)%Z) (Hb : (0 <= b)%Z) (Hc : (0 <= c)%Z) (Hd : (0 <= d)%Z) :
  exists PGs,
    Asset.performance_groups np_int stories cmp
      (Demand.str_of_int a ++ "--" ++ Demand.str_of_int b)
      (Some (Demand.str_of_int c ++ "--" ++ Demand.str_of_int d)%string)
    = Ok PGs
    /\ NoDup PGs
    /\ List.length PGs = (Z.to_nat (b + 1 - a) * Z.to_nat (d + 1 - c))%nat
    /\ forall PG, In PG PGs <->
         exists i j, (a <= i <= b)%Z /\ (c <= j <= d)%Z
                     /\ PG = [cmp; Demand.str_of_int i; Demand.str_of_int j].
Proof.
  destruct (range_parsers np_int stories a b Ha Hb)
    as [El _].
  destruct (range_parsers np_int stories c d Hc Hd)
    as [_ Ed].
  unfold Asset.performance_groups. rewrite El, Ed. cbn [bind].
  eexists. split; [reflexivity|]. split; [|split].
  - apply product_NoDup; apply arange_str_NoDup.
  - rewrite length_product, !length_arange_str. reflexivity.
  - intro PG. rewrite in_flat_map. split.
    + intros [loc [Hloc H]]. apply in_map_iff in H. destruct H as [dir [<- Hdir]].
      apply arange_str_In in Hloc. apply arange_str_In in Hdir.
      destruct Hloc as [i [Hi ->]]. destruct Hdir as [j [Hj ->]].
      exists i, j. repeat split; lia.
    + intros [i [j [Hi [Hj ->]]]]. exists (Demand.str_of_int i). split.
      * apply arange_str_In. exists i. split; [lia | reflexivity].
      * apply in_map_iff. exists (Demand.str_of_int j). split; [reflexivity|].
        apply arange_str_In. exists j. split; [lia | reflexivity].
Qed.

Lemma performance_groups_of_ranges_witness :
  exists PGs,
    Asset.performance_groups PyStr.py_int 4 "B.10" "1--2" (Some "1--2") = Ok PGs
    /\ NoDup PGs
    /\ List.length PGs = 4%nat
    /\ forall PG, In PG PGs <->
         exists i j, (1 <= i <= 2)%Z /\ (1 <= j <= 2)%Z
                     /\ PG = ["B.10"; Demand.str_of_int i; Demand.str_of_int j].
Proof.
  exact (performance_groups_of_ranges PyStr.py_int 4 "B.10" 1 2 1 2
           ltac:(lia) ltac:(lia) ltac:(lia) ltac:(lia)).
Defined.

(** ** Configuration dictionaries *)

Section ConfigFacts.

Import Config.
Local Open Scope list_scope.

Context {A : Type}.

Lemma dict_lookup_set_same {V : Type} (d : list (string * V)) (k : string) (v : V) :
  dict_lookup (dict_set d k v) k = Some v.
Proof.
  induction d as [|[k' v'] d IH]; simpl.
  - rewrite String.eqb_refl. reflexivity.
  - destruct (String.eqb k' k) eqn:E; simpl.
    + rewrite String.eqb_refl. reflexivity.
    + rewrite E. exact IH.
Qed.

Lemma dict_lookup_set_other {V : Type} (d : list (string * V)) (k k' : string) (v : V) :
  k <> k' -> dict_lookup (dict_set d k v) k' = dict_lookup d k'.
Proof.
  intro Hne. induction d as [|[k0 v0] d IH]; simpl.
  - apply String.eqb_neq in Hne. rewrite Hne. reflexivity.
  - destruct (String.eqb k0 k) eqn:E; simpl.
    + apply String.eqb_eq in E. subst k0.
      apply String.eqb_neq in Hne. rewrite Hne. reflexivity.
    + destruct (String.eqb k0 k'); [reflexivity | exact IH].
Qed.

(** Induction on a value, with the property for the values of a
    dictionary. *)
Lemma value_ind' (P : value A -> Prop) :
  (forall a, P (Leaf a)) ->
  (forall d, Forall (fun kv => P (snd kv)) d -> P (Dict d)) ->
  forall v, P v.
Proof.
  intros HLeaf HDict. fix IH 1. intros [a|d]; [apply HLeaf|].
  apply HDict. induction d as [|kv d IHd]; constructor; [apply IH | exact IHd].
Qed.

Lemma kept_refl (u : value A) : kept u u.
Proof.
  intros keys x H. exists x. auto.
Qed.

Lemma kept_trans (u v w : value A) : kept u v -> kept v w -> kept u w.
Proof.
  intros H1 H2 keys x Hx.
  destruct (H1 keys x Hx) as [y [Hy [Hd Hl]]].
  destruct (H2 keys y Hy) as [z [Hz [Hd' Hl']]].
  exists z. split; [exact Hz|]. split; [congruence|].
  intros a ->. apply Hl'. apply (Hl a). reflexivity.
Qed.

(** Setting a key to a value that keeps what was under it keeps the
    dictionary. *)
Lemma kept_set (d : list (string * value A)) (k : string) (v : value A) :
  match dict_lookup d k with
  | Some u => kept u v
  | None => True
  end ->
  kept (Dict d) (Dict (dict_set d k v)).
Proof.
  intros H [|k0 rest] x Hx.
  - injection Hx as <-. eexists. split; [reflexivity|]. split; [reflexivity|].
    discriminate.
  - cbn [at_keys] in *. destruct (String.eqb k k0) eqn:E.
    + apply String.eqb_eq in E. subst k0. rewrite dict_lookup_set_same.
      destruct (dict_lookup d k) as [u|]; [|discriminate]. apply H. exact Hx.
    + apply String.eqb_neq in E. rewrite (dict_lookup_set_other d k k0 v E).
      destruct (dict_lookup d k0) as [u|]; [|discriminate].
      exists x. auto.
Qed.

Section Entries.

Variable merge : value A -> option (value A) -> result (value A).

(** The loop over the entries of [primary], when the body of the loop
    keeps and fills. *)
Lemma update_entries_kept (primary : list (string * value A)) :
  Forall (fun kv => forall u v, merge (snd kv) (Some u) = Ok v -> kept u v) primary ->
  forall update r,
  update_entries merge primary update = Ok r -> kept (Dict update) (Dict r).
Proof.
  induction primary as [|[k pv] primary IH]; intros HM update r H.
  - injection H as <-. apply kept_refl.
  - inversion HM as [|? ? Hpv HM']; subst. cbn [update_entries] in H.
    apply bind_ok in H. destruct H as [v [Hv H]].
    apply (kept_trans _ (Dict (dict_set update k v))).
    + apply kept_set. destruct (dict_lookup update k) as [u|] eqn:E; [|exact I].
      apply (Hpv u v Hv).
    + apply (IH HM' _ _ H).
Qed.

Lemma update_entries_filled (primary : list (string * value A)) :
  Forall (fun kv => forall u v, merge (snd kv) (Some u) = Ok v -> kept u v) primary ->
  Forall (fun kv => forall u v, merge (snd kv) u = Ok v -> filled (snd kv) u v) primary ->
  forall update r,
  update_entries merge primary update = Ok r ->
  forall k0 rest x, at_keys (Dict primary) (k0 :: rest) = Some x ->
  exists w, at_keys (Dict r) (k0 :: rest) = Some w /\ is_dict w = is_dict x
            /\ (forall a, x = Leaf a -> at_keys (Dict update) (k0 :: rest) = None ->
                w = Leaf a).
Proof.
  induction primary as [|[k pv] primary IH]; intros HK HF update r H k0 rest x Hx.
  - discriminate Hx.
  - inversion HK as [|? ? Hk HK']; subst. inversion HF as [|? ? Hf HF']; subst.
    cbn [update_entries] in H. apply bind_ok in H. destruct H as [v [Hv H]].
    cbn [snd] in Hk, Hf.
    pose proof (update_entries_kept primary HK' _ _ H) as Hkept.
    cbn [at_keys dict_lookup] in Hx. destruct (String.eqb k k0) eqn:E.
    + apply String.eqb_eq in E. subst k0.
      destruct (Hf _ _ Hv rest x Hx) as [w [Hw [Hd Hl]]].
      destruct (Hkept (k :: rest) w) as [z [Hz [Hd' Hl']]].
      { cbn [at_keys]. rewrite dict_lookup_set_same. exact Hw. }
      exists z. split; [exact Hz|]. split; [congruence|].
      intros a -> Hnone. apply Hl'. apply (Hl a); [reflexivity|].
      cbn [at_keys] in Hnone. destruct (dict_lookup update k); [exact Hnone | exact I].
    + apply String.eqb_neq in E.
      destruct (IH HK' HF' _ _ H k0 rest x Hx) as [w [Hw [Hd Hl]]].
      exists w. split; [exact Hw|]. split; [exact Hd|].
      intros a -> Hnone. apply (Hl a); [reflexivity|].
      cbn [at_keys]. rewrite (dict_lookup_set_other update k k0 v E). exact Hnone.
Qed.

End Entries.

(** The body of the loop keeps what [update] has and fills in what
    [primary] has. *)
Lemma merge_value_kept_filled (pv : value A) :
  (forall u v, merge_value pv (Some u) = Ok v -> kept u v)
  /\ (forall u v, merge_value pv u = Ok v -> filled pv u v).
Proof.
  induction pv as [a | pd IH] using value_ind'.
  - split.
    + intros [b|ud] v H; [|discriminate]. injection H as <-. apply kept_refl.
    + intros [[b|ud]|] v H; try discriminate; injection H as <-.
      * intros [|k rest] x Hx; [|discriminate]. injection Hx as <-.
        exists (Leaf b). split; [reflexivity|]. split; [reflexivity|].
        intros a' _ Hnone. discriminate Hnone.
      * intros [|k rest] x Hx; [|discriminate]. injection Hx as <-.
        exists (Leaf a). auto.
  - assert (HK : Forall (fun kv => forall u v,
                           merge_value (snd kv) (Some u) = Ok v -> kept u v) pd).
    { apply Forall_forall. intros kv Hin. rewrite Forall_forall in IH.
      apply (IH kv Hin). }
    assert (HF : Forall (fun kv => forall u v,
                           merge_value (snd kv) u = Ok v -> filled (snd kv) u v) pd).
    { apply Forall_forall. intros kv Hin. rewrite Forall_forall in IH.
      apply (IH kv Hin). }
    split.
    + intros [b|ud] v H; [discriminate|]. cbn [merge_value] in H.
      apply bind_ok in H. destruct H as [d [Hd H]]. injection H as <-.
      apply (update_entries_kept merge_value pd HK _ _ Hd).
    + intros u v H.
      assert (Hud : exists ud d,
                 update_entries merge_value pd ud = Ok d /\ v = Dict d
                 /\ match u with
                    | Some u => u = Dict ud
                    | None => ud = []
                    end).
      { destruct u as [[b|ud]|]; cbn [merge_value] in H; try discriminate;
          apply bind_ok in H; destruct H as [d [Hd H]]; injection H as <-; eauto. }
      destruct Hud as [ud [d [Hd [-> Hu]]]].
      intros [|k0 rest] x Hx.
      * injection Hx as <-. exists (Dict d). split; [reflexivity|].
        split; [reflexivity | discriminate].
      * destruct (update_entries_filled merge_value pd HK HF _ _ Hd k0 rest x Hx)
          as [w [Hw [Hdw Hl]]].
        exists w. split; [exact Hw|]. split; [exact Hdw|].
        intros a -> Hnone. apply (Hl a); [reflexivity|].
        destruct u as [u|]; subst; [exact Hnone | reflexivity].
Qed.

Lemma update_vals_kept (update primary r : list (string * value A)) :
  update_vals update primary = Ok r -> kept (Dict update) (Dict r).
Proof.
  apply update_entries_kept. apply Forall_forall. intros kv _.
  apply merge_value_kept_filled.
Qed.

Lemma update_vals_filled (update primary r : list (string * value A)) :
  update_vals update primary = Ok r ->
  forall keys x, at_keys (Dict primary) keys = Some x ->
  exists w, at_keys (Dict r) keys = Some w /\ is_dict w = is_dict x
            /\ (forall a, x = Leaf a -> at_keys (Dict update) keys = None ->
                w = Leaf a).
Proof.
  intros H [|k0 rest] x Hx.
  - injection Hx as <-. exists (Dict r). split; [reflexivity|].
    split; [reflexivity | discriminate].
  - revert H k0 rest x Hx. apply update_entries_filled;
      apply Forall_forall; intros kv _; apply merge_value_kept_filled.
Qed.

(** [update_vals] raises nothing but ValueError. *)
Lemma merge_value_raises (pv : value A) :
  forall u e, merge_value pv u = Raise e -> e = ValueError.
Proof.
  induction pv as [a | pd IH] using value_ind'.
  - intros [[b|ud]|] e H; try discriminate. injection H as <-. reflexivity.
  - assert (HE : forall ud e, update_entries merge_value pd ud = Raise e ->
                              e = ValueError).
    { induction pd as [|[k pv] pd IHpd]; intros ud e H; [discriminate|].
      inversion IH as [|? ? Hpv IH']; subst. cbn [update_entries] in H.
      destruct (merge_value pv (dict_lookup ud k)) as [v|e'] eqn:Ev.
      - cbn [bind] in H. apply (IHpd IH' _ _ H).
      - cbn [bind] in H. injection H as <-. apply (Hpv _ _ Ev). }
    intros [[b|ud]|] e H; cbn [merge_value] in H.
    + injection H as <-. reflexivity.
    + destruct (update_entries merge_value pd ud) as [d|e'] eqn:Ed;
        [discriminate|]. injection H as <-. apply (HE _ _ Ed).
    + destruct (update_entries merge_value pd []) as [d|e'] eqn:Ed;
        [discriminate|]. injection H as <-. apply (HE _ _ Ed).
Qed.

Lemma update_vals_raises (update primary : list (string * value A)) (e : exn) :
  update_vals update primary = Raise e -> e = ValueError.
Proof.
  unfold update_vals. revert update.
  induction primary as [|[k pv] primary IH]; intros update H; [discriminate|].
  cbn [update_entries] in H.
  destruct (merge_value pv (dict_lookup update k)) as [v|e'] eqn:Ev.
  - cbn [bind] in H. apply (IH _ H).
  - cbn [bind] in H. injection H as <-. apply (merge_value_raises _ _ _ Ev).
Qed.

End ConfigFacts.

Section MergeFacts.

Import Config.
Local Open Scope list_scope.

Context {A : Type}.

Lemma dict_set_fresh {V : Type} (d : list (string * V)) (k : string) (v : V) :
  ~ In k (map fst d) -> dict_set d k v = d ++ [(k, v)].
Proof.
  induction d as [|[k' v'] d IH]; simpl; intro H; [reflexivity|].
  destruct (String.eqb k' k) eqn:E.
  - apply String.eqb_eq in E. tauto.
  - rewrite IH; [reflexivity | tauto].
Qed.

Lemma dict_lookup_fresh {V : Type} (d : list (string * V)) (k : string) :
  ~ In k (map fst d) -> dict_lookup d k = None.
Proof.
  induction d as [|[k' v'] d IH]; simpl; intro H; [reflexivity|].
  destruct (String.eqb k' k) eqn:E.
  - apply String.eqb_eq in E. tauto.
  - apply IH. tauto.
Qed.

(** Entries whose keys are new are added in their order. *)
Lemma update_entries_fresh (primary : list (string * value A)) :
  Forall (fun kv => merge_value (snd kv) None = Ok (snd kv)) primary ->
  NoDup (map fst primary) ->
  forall update,
  (forall k, In k (map fst primary) -> ~ In k (map fst update)) ->
  update_entries merge_value primary update = Ok (update ++ primary).
Proof.
  induction primary as [|[k pv] primary IH]; intros HM Hnd update Hfresh.
  - rewrite app_nil_r. reflexivity.
  - inversion HM as [|? ? Hpv HM']; subst. cbn [map fst] in Hnd.
    inversion Hnd as [|? ? Hnotin Hnd']; subst. cbn [snd] in Hpv.
    assert (Hk : ~ In k (map fst update)) by (apply Hfresh; left; reflexivity).
    cbn [update_entries]. rewrite (dict_lookup_fresh _ _ Hk), Hpv. cbn [bind].
    rewrite (dict_set_fresh _ _ _ Hk), IH; [| exact HM' | exact Hnd' |].
    + rewrite <- app_assoc. reflexivity.
    + intros k' Hk'. rewrite map_app, in_app_iff. intros [H | [H | []]].
      * revert H. apply Hfresh. right. exact Hk'.
      * cbn [fst] in H. subst k'. contradiction.
Qed.

Lemma merge_value_new (pv : value A) :
  unique_keys pv -> merge_value pv None = Ok pv.
Proof.
  induction pv as [a | pd IH] using value_ind'; intro Hu; [reflexivity|].
  cbn [merge_value]. destruct Hu as [Hnd Hall].
  rewrite update_entries_fresh; [reflexivity | | exact Hnd | intros k _ []].
  clear Hnd. induction pd as [|kv pd IHpd]; constructor.
  - inversion IH; subst. destruct Hall as [Hkv _]. auto.
  - inversion IH; subst. destruct Hall as [_ Hall]. auto.
Qed.

End MergeFacts.

(** X5.  When [update_vals] returns, every setting of the user is as it
    was, every default that the user did not set is filled in, and a
    dictionary of either side is a dictionary of the result. *)
Theorem update_vals_keeps_and_fills {A : Type}
    (update primary r : list (string * Config.value A))
    (H : Config.update_vals update primary = Ok r) :
  (forall keys a,
     Config.at_keys (Config.Dict update) keys = Some (Config.Leaf a) ->
     Config.at_keys (Config.Dict r) keys = Some (Config.Leaf a))
  /\ (forall keys a,
        Config.at_keys (Config.Dict primary) keys = Some (Config.Leaf a) ->
        Config.at_keys (Config.Dict update) keys = None ->
        Config.at_keys (Config.Dict r) keys = Some (Config.Leaf a))
  /\ (forall keys d,
        Config.at_keys (Config.Dict update) keys = Some (Config.Dict d)
        \/ Config.at_keys (Config.Dict primary) keys = Some (Config.Dict d) ->
        exists d', Config.at_keys (Config.Dict r) keys = Some (Config.Dict d')).
Proof.
  pose proof (update_vals_kept _ _ _ H) as Hk.
  pose proof (update_vals_filled _ _ _ H) as Hf.
  split; [|split].
  - intros keys a Ha. destruct (Hk keys _ Ha) as [w [Hw [_ Hl]]].
    rewrite Hw, (Hl a eq_refl). reflexivity.
  - intros keys a Ha Hnone. destruct (Hf keys _ Ha) as [w [Hw [_ Hl]]].
    rewrite Hw, (Hl a eq_refl Hnone). reflexivity.
  - intros keys d [Hd | Hd].
    + destruct (Hk keys _ Hd) as [w [Hw [Hdict _]]].
      destruct w as [a|d']; [discriminate | eauto].
    + destruct (Hf keys _ Hd) as [w [Hw [Hdict _]]].
      destruct w as [a|d']; [discriminate | eauto].
Qed.

Lemma update_vals_keeps_and_fills_witness :
  Config.at_keys
    (Config.Dict [("Sampling", Config.Dict [("SampleSize", Config.Leaf 500%Z);
                                         ("Seed", Config.Leaf 1%Z)]);
                  ("Verbose", Config.Leaf 0%Z)])
    ["Sampling"; "SampleSize"] = Some (Config.Leaf 500%Z).
Proof.
  exact (proj1 (update_vals_keeps_and_fills
                  [("Sampling", Config.Dict [("SampleSize", Config.Leaf 500%Z)])]
                  [("Verbose", Config.Leaf 0%Z);
                   ("Sampling", Config.Dict [("SampleSize", Config.Leaf 1000%Z);
                                             ("Seed", Config.Leaf 1%Z)])]
                  _ eq_refl)
           ["Sampling"; "SampleSize"] 500%Z eq_refl).
Defined.

(** X6.  [update_vals] raises ValueError whenever, at some chain of
    keys, one of the two dictionaries has a dictionary and the other a
    value that is not a dictionary. *)
Theorem update_vals_type_conflict {A : Type}
    (update primary : list (string * Config.value A)) (keys : list string)
    (u p : Config.value A)
    (Hu : Config.at_keys (Config.Dict update) keys = Some u)
    (Hp : Config.at_keys (Config.Dict primary) keys = Some p)
    (Hconflict : Config.is_dict u = negb (Config.is_dict p)) :
  Config.update_vals update primary = Raise ValueError.
Proof.
  destruct (Config.update_vals update primary) as [r|e] eqn:E.
  - exfalso.
    destruct (update_vals_kept _ _ _ E keys u Hu) as [w [Hw [Hd _]]].
    destruct (update_vals_filled _ _ _ E keys p Hp) as [w' [Hw' [Hd' _]]].
    rewrite Hw in Hw'. injection Hw' as <-.
    rewrite Hd' in Hd. rewrite <- Hd in Hconflict.
    destruct (Config.is_dict p); discriminate.
  - rewrite (update_vals_raises _ _ _ E). reflexivity.
Qed.

Lemma update_vals_type_conflict_witness :
  Config.update_vals
    [("Sampling", Config.Dict [("SampleSize", Config.Dict [("N", Config.Leaf 5%Z)])])]
    [("Sampling", Config.Dict [("SampleSize", Config.Leaf 1000%Z)])]
  = Raise ValueError.
Proof.
  apply (update_vals_type_conflict _ _ ["Sampling"; "SampleSize"]
           (Config.Dict [("N", Config.Leaf 5%Z)]) (Config.Leaf 1000%Z));
    reflexivity.
Defined.

(** X7.  Without a configuration of the user, and with one that is
    empty, [merge_default_config] returns the default options as they
    are. *)
Theorem merge_default_config_of_nothing {A : Type}
    (default_config : list (string * Config.value A))
    (Hkeys : Config.unique_keys (Config.Dict default_config)) :
  Config.merge_default_config default_config None = Ok default_config
  /\ Config.merge_default_config default_config (Some []) = Ok default_config.
Proof.
  pose proof (merge_value_new (Config.Dict default_config) Hkeys) as H.
  cbn [Config.merge_value] in H.
  destruct (Config.update_entries Config.merge_value default_config []) as [d|e] eqn:E;
    [|discriminate].
  injection H as ->.
  unfold Config.merge_default_config, Config.update_vals. rewrite E. auto.
Qed.

Lemma merge_default_config_of_nothing_witness :
  Config.merge_default_config
    [("Verbose", Config.Leaf 0%Z);
     ("Sampling", Config.Dict [("SampleSize", Config.Leaf 1000%Z)])] None
  = Ok [("Verbose", Config.Leaf 0%Z);
        ("Sampling", Config.Dict [("SampleSize", Config.Leaf 1000%Z)])].
Proof.
  apply (merge_default_config_of_nothing
           [("Verbose", Config.Leaf 0%Z);
            ("Sampling", Config.Dict [("SampleSize", Config.Leaf 1000%Z)])]).
  cbn. repeat split; repeat constructor; simpl; intuition discriminate.
Defined.

Section PathFacts.

Import Demand PyStr Config.
Local Open Scope list_scope.

Context {A : Type}.
Variable unspecified : A -> result bool.

Lemma split_nonempty (sep : ascii) (s : string) : split sep s <> [].
Proof.
  destruct s as [|c s]; simpl; [discriminate|].
  destruct (Ascii.eqb c sep); [discriminate|].
  destruct (split sep s); discriminate.
Qed.

Lemma dict_set_same {V : Type} (d : list (string * V)) (k : string) (v : V) :
  dict_lookup d k = Some v -> dict_set d k v = d.
Proof.
  induction d as [|[k' v'] d IH]; simpl; [discriminate|].
  destruct (String.eqb k' k) eqn:E.
  - apply String.eqb_eq in E. intro H. injection H as ->. subst. reflexivity.
  - intro H. rewrite (IH H). reflexivity.
Qed.

(** The walk along the keys sets the value at the end of the chain and
    leaves the other keys of the dictionary alone. *)
Lemma update_keys_sets (keys : list string) (v : value A) :
  forall (d : list (string * value A)) (key : string),
  exists d',
    update_keys unspecified d key keys v false = Ok d'
    /\ at_keys (Dict d') (key :: keys) = Some v
    /\ forall k, k <> key -> dict_lookup d' k = dict_lookup d k.
Proof.
  induction keys as [|key' keys IH]; intros d key.
  - cbn [update_keys]. eexists. split; [reflexivity|]. split.
    + cbn [at_keys]. rewrite dict_lookup_set_same. reflexivity.
    + intros k Hk. apply dict_lookup_set_other. congruence.
  - cbn [update_keys].
    destruct (IH (match dict_lookup d key with
                  | Some (Dict sub) => sub
                  | _ => []
                  end) key') as [sub' [E [Hat _]]].
    rewrite E. cbn [bind]. eexists. split; [reflexivity|]. split.
    + change (at_keys (Dict (dict_set d key (Dict sub'))) (key :: key' :: keys))
        with (match dict_lookup (dict_set d key (Dict sub')) key with
              | Some v' => at_keys v' (key' :: keys)
              | None => None
              end).
      rewrite dict_lookup_set_same. exact Hat.
    + intros k Hk. apply dict_lookup_set_other. congruence.
Qed.

Lemma split_no_sep (sep : ascii) (s : string) :
  Forall (fun k => contains_char sep k = false) (split sep s).
Proof.
  induction s as [|c s IH]; [repeat constructor|].
  cbn [split]. destruct (Ascii.eqb c sep) eqn:E.
  - constructor; [reflexivity | exact IH].
  - destruct (split sep s) as [|w ws]; [repeat constructor; simpl; rewrite E; reflexivity|].
    inversion IH; subst. constructor; [|assumption].
    cbn [contains_char]. rewrite E. assumption.
Qed.

Lemma split_plain (sep : ascii) (s : string) :
  contains_char sep s = false -> split sep s = [s].
Proof.
  induction s as [|c s IH]; [reflexivity|].
  cbn [contains_char split]. intro H. apply orb_false_iff in H.
  destruct H as [-> Hs]. rewrite (IH Hs). reflexivity.
Qed.

Lemma keys_of_plain (k : string) :
  contains_char "/"%char k = false -> keys_of k = [k].
Proof.
  intro H. unfold keys_of. rewrite strip_none; [apply split_plain; exact H|].
  clear -H. induction k as [|c k IH]; [reflexivity|].
  cbn [contains_char all_chars] in *. apply orb_false_iff in H.
  destruct H as [-> Hk]. rewrite (IH Hk). reflexivity.
Qed.

(** With [only_if_empty_or_none], the walk along a chain of keys that
    ends at a specified value changes nothing. *)
Lemma update_keys_specified (keys : list string) (v x : value A) :
  forall (d : list (string * value A)) (key : string),
  Forall (fun k => contains_char "/"%char k = false) (key :: keys) ->
  at_keys (Dict d) (key :: keys) = Some x ->
  specified unspecified x ->
  update_keys unspecified d key keys v true = Ok d.
Proof.
  induction keys as [|key' keys IH]; intros d key Hplain Hx Hs.
  - inversion Hplain as [|? ? Hk _]; subst.
    cbn [update_keys]. unfold is_unspecified. rewrite (keys_of_plain key Hk), Hx.
    destruct x as [a|[|kv sub]]; cbn [specified] in Hs.
    + rewrite Hs. reflexivity.
    + destruct Hs.
    + reflexivity.
  - inversion Hplain as [|? ? _ Hplain']; subst.
    cbn [update_keys].
    change (at_keys (Dict d) (key :: key' :: keys))
      with (match dict_lookup d key with
            | Some v' => at_keys v' (key' :: keys)
            | None => None
            end) in Hx.
    destruct (dict_lookup d key) as [[a|sub]|] eqn:E; try discriminate.
    rewrite (IH sub key' Hplain' Hx Hs). cbn [bind].
    rewrite (dict_set_same _ _ _ E). reflexivity.
Qed.

End PathFacts.

(** X8.  [update] with a path and a value returns, and [get] with the
    same path then gives that value, whatever the dictionary held
    before; the keys of the dictionary other than the first key of the
    path keep their values. *)
Theorem update_then_get {A : Type} (unspecified : A -> result bool)
    (d : list (string * Config.value A)) (path : string)
    (v default : Config.value A) :
  exists d',
    Config.update unspecified d path v false = Ok d'
    /\ Config.get d' path default = v
    /\ forall k, hd_error (Config.keys_of path) <> Some k ->
         Config.dict_lookup d' k = Config.dict_lookup d k.
Proof.
  unfold Config.update, Config.get.
  destruct (Config.keys_of path) as [|key keys] eqn:E.
  - exfalso. revert E. apply split_nonempty.
  - destruct (update_keys_sets unspecified keys v d key) as [d' [Hd [Hat Hother]]].
    exists d'. split; [exact Hd|]. split; [rewrite Hat; reflexivity|].
    intros k Hk. apply Hother. intros ->. apply Hk. reflexivity.
Qed.

(** X9.  With [only_if_empty_or_none], [update] leaves the dictionary
    exactly as it was when the path leads to a value that is
    specified: a dictionary that is not empty, or another value that
    passes the test. *)
Theorem update_only_if_unspecified {A : Type} (unspecified : A -> result bool)
    (d : list (string * Config.value A)) (path : string) (v x : Config.value A)
    (Hx : Config.at_keys (Config.Dict d) (Config.keys_of path) = Some x)
    (Hs : Config.specified unspecified x) :
  Config.update unspecified d path v true = Ok d.
Proof.
  unfold Config.update. pose proof (split_no_sep "/"%char
    (PyStr.strip (fun c => Ascii.eqb c "/") path)) as Hplain.
  fold (Config.keys_of path) in Hplain.
  destruct (Config.keys_of path) as [|key keys] eqn:E;
    [exfalso; revert E; apply split_nonempty|].
  apply (update_keys_specified unspecified keys v x d key Hplain Hx Hs).
Qed.

Lemma update_only_if_unspecified_witness :
  Config.update (fun z : Z => Ok (z =? 0)%Z)
    [("DL", Config.Dict [("Outputs", Config.Leaf 3%Z)])] "/DL/Outputs"
    (Config.Leaf 7%Z) true
  = Ok [("DL", Config.Dict [("Outputs", Config.Leaf 3%Z)])].
Proof.
  apply (update_only_if_unspecified _ _ _ _ (Config.Leaf 3%Z)); reflexivity.
Defined.

(** ** Dictionaries built from pairs *)

Section MappingFacts.

Import Config Mapping.
Local Open Scope list_scope.

Lemma has_key_In {V : Type} (d : list (string * V)) (k : string) :
  has_key d k = true <-> In k (map fst d).
Proof.
  unfold has_key. rewrite existsb_exists, in_map_iff. split.
  - intros [kv [Hin E]]. apply String.eqb_eq in E. eauto.
  - intros [kv [E Hin]]. exists kv. split; [exact Hin | apply String.eqb_eq; exact E].
Qed.

(** The loop over the pairs adds them in their order when no key comes
    twice, and raises ValueError when one does. *)
Lemma raise_on_duplicates_from_spec {V : Type} (pairs : list (string * V)) :
  forall d, NoDup (map fst d) ->
  (NoDup (map fst (d ++ pairs)) /\ raise_on_duplicates_from d pairs = Ok (d ++ pairs))
  \/ (~ NoDup (map fst (d ++ pairs))
      /\ raise_on_duplicates_from d pairs = Raise ValueError).
Proof.
  induction pairs as [|[k v] pairs IH]; intros d Hd.
  - left. rewrite app_nil_r. auto.
  - cbn [raise_on_duplicates_from]. destruct (has_key d k) eqn:E.
    + right. split; [|reflexivity]. apply has_key_In in E.
      rewrite map_app. cbn [map fst]. intro Hnd.
      apply NoDup_remove_2 in Hnd. apply Hnd. apply in_or_app. left. exact E.
    + assert (Hk : ~ In k (map fst d)).
      { intro H. apply has_key_In in H. congruence. }
      rewrite (dict_set_fresh _ _ _ Hk).
      replace (d ++ (k, v) :: pairs) with ((d ++ [(k, v)]) ++ pairs)
        by (rewrite <- app_assoc; reflexivity).
      apply IH. rewrite map_app. cbn [map fst].
      apply NoDup_app; [exact Hd | repeat constructor; intros [] |].
      intros a Ha [<- | []]. contradiction.
Qed.

Lemma raise_on_duplicates_from_app {V : Type} (l1 l2 : list (string * V)) :
  forall d,
  raise_on_duplicates_from d (l1 ++ l2)
  = bind (raise_on_duplicates_from d l1) (fun d' => raise_on_duplicates_from d' l2).
Proof.
  induction l1 as [|[k v] l1 IH]; intro d; [reflexivity|].
  cbn [app raise_on_duplicates_from]. destruct (has_key d k); [reflexivity | apply IH].
Qed.

Lemma invert_values_pairs (key : string) (value_list : list string) :
  forall d,
  invert_values d key value_list
  = raise_on_duplicates_from d (map (fun v => (v, key)) value_list).
Proof.
  induction value_list as [|v vl IH]; intro d; [reflexivity|].
  cbn [invert_values map raise_on_duplicates_from].
  destruct (has_key d v); [reflexivity | apply IH].
Qed.

(** Inverting a mapping is building a dictionary from its pairs
    (value, key). *)
Lemma invert_items_pairs (items : list (string * list string)) :
  forall d,
  invert_items d items = raise_on_duplicates_from d (inverted_pairs items).
Proof.
  induction items as [|[key vl] items IH]; intro d; [reflexivity|].
  cbn [invert_items]. unfold inverted_pairs. cbn [flat_map fst snd].
  rewrite raise_on_duplicates_from_app, invert_values_pairs.
  destruct (raise_on_duplicates_from d (map (fun v => (v, key)) vl)); [|reflexivity].
  cbn [bind]. apply IH.
Qed.

Lemma keys_inverted_pairs (items : list (string * list string)) :
  map fst (inverted_pairs items) = List.concat (map snd items).
Proof.
  induction items as [|[key vl] items IH]; [reflexivity|].
  unfold inverted_pairs in *. cbn [flat_map map fst snd List.concat].
  rewrite map_app, IH, map_map. cbn [fst]. rewrite map_id. reflexivity.
Qed.

Lemma dict_lookup_In {V : Type} (d : list (string * V)) (k : string) (v : V) :
  NoDup (map fst d) -> (dict_lookup d k = Some v <-> In (k, v) d).
Proof.
  induction d as [|[k' v'] d IH]; intro Hnd; [simpl; split; [discriminate | tauto]|].
  cbn [map fst] in Hnd. inversion Hnd as [|? ? Hnotin Hnd']; subst.
  cbn [dict_lookup In]. destruct (String.eqb k' k) eqn:E.
  - apply String.eqb_eq in E. subst k'. split.
    + intro H. injection H as ->. left. reflexivity.
    + intros [H | H]; [congruence|].
      exfalso. apply Hnotin. apply in_map_iff. exists (k, v). auto.
  - apply String.eqb_neq in E. rewrite (IH Hnd'). split; [tauto|].
    intros [H | H]; [congruence | exact H].
Qed.

Lemma dict_raise_on_duplicates_from_parts {V : Type} (pairs : list (string * V)) :
  (NoDup (map fst pairs) -> dict_raise_on_duplicates pairs = Ok pairs)
  /\ (~ NoDup (map fst pairs) -> dict_raise_on_duplicates pairs = Raise ValueError).
Proof.
  unfold dict_raise_on_duplicates.
  destruct (raise_on_duplicates_from_spec pairs [] (NoDup_nil _))
    as [[Hnd E] | [Hnd E]]; cbn [app] in *; rewrite E; split;
    try reflexivity; contradiction.
Qed.

End MappingFacts.

(** X10.  [dict_raise_on_duplicates] returns the pairs as a dictionary,
    in their order, when their keys are distinct, and raises ValueError
    when a key comes twice: it never drops or overwrites a pair. *)
Theorem dict_raise_on_duplicates_spec {V : Type} (ordered_pairs : list (string * V)) :
  (NoDup (map fst ordered_pairs) ->
   Mapping.dict_raise_on_duplicates ordered_pairs = Ok ordered_pairs)
  /\ (~ NoDup (map fst ordered_pairs) ->
      Mapping.dict_raise_on_duplicates ordered_pairs = Raise ValueError)
  /\ (forall d, Mapping.dict_raise_on_duplicates ordered_pairs = Ok d ->
                d = ordered_pairs /\ NoDup (map fst ordered_pairs)).
Proof.
  unfold Mapping.dict_raise_on_duplicates.
  destruct (raise_on_duplicates_from_spec ordered_pairs [] (NoDup_nil _))
    as [[Hnd E] | [Hnd E]]; cbn [app] in *; rewrite E.
  - split; [reflexivity|]. split; [contradiction|].
    intros d H. injection H as <-. auto.
  - split; [contradiction|]. split; [reflexivity | discriminate].
Qed.

(** X11.  [invert_mapping] is [dict_raise_on_duplicates] on the pairs
    (value, key): when no value is listed twice, under one key or under
    two, it returns the dictionary that sends every listed value to the
    key that lists it; otherwise it raises ValueError. *)
Theorem invert_mapping_spec (original_dict : list (string * list string)) :
  Mapping.invert_mapping original_dict
  = Mapping.dict_raise_on_duplicates (Mapping.inverted_pairs original_dict)
  /\ (NoDup (List.concat (map snd original_dict)) ->
      exists inverted_dict,
        Mapping.invert_mapping original_dict = Ok inverted_dict
        /\ forall v k,
             Config.dict_lookup inverted_dict v = Some k
             <-> exists value_list, In (k, value_list) original_dict /\ In v value_list)
  /\ (~ NoDup (List.concat (map snd original_dict)) ->
      Mapping.invert_mapping original_dict = Raise ValueError).
Proof.
  assert (E : Mapping.invert_mapping original_dict
              = Mapping.dict_raise_on_duplicates
                  (Mapping.inverted_pairs original_dict))
    by apply invert_items_pairs.
  split; [exact E|]. rewrite E, <- keys_inverted_pairs.
  destruct (dict_raise_on_duplicates_from_parts (Mapping.inverted_pairs original_dict))
    as [Hok Hraise].
  split; [|exact Hraise].
  intro Hnd. exists (Mapping.inverted_pairs original_dict). split; [apply Hok; exact Hnd|].
  intros v k. rewrite (dict_lookup_In _ _ _ Hnd).
  unfold Mapping.inverted_pairs. rewrite in_flat_map. split.
  - intros [[key vl] [Hin H]]. cbn [fst snd] in H. apply in_map_iff in H.
    destruct H as [v' [Hv Hin']]. injection Hv as -> ->. eauto.
  - intros [vl [Hin Hv]]. exists (k, vl). split; [exact Hin|].
    cbn [fst snd]. apply in_map_iff. eauto.
Qed.

(** ** Index conversion and headers *)

Section IndexFacts.

Import Frame Demand Damage Index.
Local Open Scope list_scope.

Lemma split_app (sep : ascii) (x rest : string) :
  contains_char sep x = false ->
  split sep (x ++ String sep rest) = x :: split sep rest.
Proof.
  induction x as [|c x IH]; intro H.
  - cbn [append split]. rewrite Ascii.eqb_refl. reflexivity.
  - cbn [contains_char] in H. apply orb_false_iff in H. destruct H as [Hc Hx].
    cbn [append split]. rewrite Hc, (IH Hx). reflexivity.
Qed.

(** Splitting at the dashes undoes joining with dashes, for levels
    without a dash. *)
Lemma split_concat (l : list string) :
  l <> [] ->
  Forall (fun s => contains_char "-"%char s = false) l ->
  split "-"%char (String.concat "-" l) = l.
Proof.
  induction l as [|x l IH]; intros Hne Hl; [congruence|].
  inversion Hl as [|? ? Hx Hl']; subst.
  destruct l as [|y l].
  - cbn [String.concat]. apply split_plain. exact Hx.
  - change (String.concat "-" (x :: y :: l))
      with ((x ++ String "-" (String.concat "-" (y :: l)))%string).
    rewrite (split_app _ _ _ Hx), IH; [reflexivity | discriminate | exact Hl'].
Qed.

Lemma list_max_const (n : nat) (l : list nat) :
  l <> [] -> Forall (fun x => x = n) l -> list_max l = n.
Proof.
  induction l as [|x l IH]; intros Hne Hl; [congruence|].
  inversion Hl as [|? ? Hx Hl']; subst. cbn [list_max fold_right].
  destruct l as [|y l]; [simpl; lia|].
  change (fold_right Nat.max 0%nat (y :: l)) with (list_max (y :: l)).
  rewrite IH; [lia | discriminate | exact Hl'].
Qed.

Lemma remove_blanks_none (s : string) :
  contains_char " "%char (remove_blanks s) = false.
Proof.
  induction s as [|c s IH]; [reflexivity|].
  cbn [remove_blanks]. destruct (Ascii.eqb c " ") eqn:E; [exact IH|].
  cbn [contains_char]. rewrite E, IH. reflexivity.
Qed.

Lemma remove_blanks_plain (s : string) :
  contains_char " "%char s = false -> remove_blanks s = s.
Proof.
  induction s as [|c s IH]; [reflexivity|].
  cbn [contains_char remove_blanks]. intro H. apply orb_false_iff in H.
  destruct H as [-> Hs]. rewrite (IH Hs). reflexivity.
Qed.

Lemma project_tl (l : label) :
  project [1; 2; 3]%nat l = project [0; 1; 2]%nat (tl l).
Proof.
  destruct l as [|x l]; [reflexivity|]. reflexivity.
Qed.

Lemma project_three (l : label) :
  List.length l = 3%nat -> project [0; 1; 2]%nat l = l.
Proof.
  destruct l as [|a [|b [|c [|d l]]]]; simpl; intro H; try discriminate; reflexivity.
Qed.

End IndexFacts.

(** X12.  The names that [convert_to_SimpleIndex] gives to the columns
    of a MultiIndex are turned back into the same labels by
    [convert_to_MultiIndex], when the labels have two levels or more
    and no level value contains a dash. *)
Theorem simple_index_round_trip (labels : list Frame.label) (n : nat)
    (Hne : labels <> [])
    (Hn : (2 <= n)%nat)
    (Hlevels : Forall (fun l => List.length l = n) labels)
    (Hdash : Forall (Forall (fun s => Demand.contains_char "-"%char s = false)) labels) :
  Damage.convert_to_MultiIndex (Index.convert_to_SimpleIndex labels) = Ok labels.
Proof.
  unfold Index.convert_to_SimpleIndex, Index.nlevels.
  assert (Hl0 : match labels with [] => 0%nat | l :: _ => List.length l end = n).
  { destruct labels as [|l0 rest]; [congruence|]. inversion Hlevels; assumption. }
  rewrite Hl0. destruct (Nat.ltb_spec 1 n) as [_|]; [|lia].
  assert (El : exists l0 rest, labels = l0 :: rest)
    by (destruct labels as [|l0 rest]; [congruence | eauto]).
  unfold Damage.convert_to_MultiIndex.
  destruct (map (fun id => String.concat "-" id) labels) as [|c cs] eqn:Em;
    [destruct El as [l0 [rest ->]]; discriminate|].
  rewrite <- Em. clear Em.
  assert (Hsplit : map (Demand.split "-"%char)
                     (map (fun id => String.concat "-" id) labels) = labels).
  { rewrite map_map. clear El Hne Hl0.
    induction labels as [|l1 labels IH]; [reflexivity|].
    inversion Hlevels as [|? ? Hl Hlevels']; subst.
    inversion Hdash as [|? ? Hd Hdash']; subst.
    cbn [map]. rewrite split_concat, IH; auto.
    destruct l1; [simpl in Hn; lia | discriminate]. }
  rewrite Hsplit.
  rewrite (list_max_const n).
  - apply f_equal. rewrite <- (map_id labels) at 2. apply map_ext_in. intros l Hl.
    rewrite Forall_forall in Hlevels. rewrite (Hlevels l Hl), Nat.sub_diag.
    apply app_nil_r.
  - destruct El as [l0 [rest ->]]. discriminate.
  - clear El Hne Hl0 Hsplit Hdash. induction Hlevels; constructor; assumption.
Qed.

Lemma simple_index_round_trip_witness :
  Damage.convert_to_MultiIndex
    (Index.convert_to_SimpleIndex [["PFA"; "1"; "1"]; ["PID"; "2"; ""]])
  = Ok [["PFA"; "1"; "1"]; ["PID"; "2"; ""]].
Proof.
  apply (simple_index_round_trip [["PFA"; "1"; "1"]; ["PID"; "2"; ""]] 3).
  - discriminate.
  - lia.
  - repeat constructor.
  - repeat constructor.
Defined.

(** X13.  [parse_header] needs a header of three levels at least and
    one column at least.  It then returns one label of three levels for
    every column, none with a blank in it; a header of four levels
    loses its first level, the event id, and is parsed as the rest; and
    parsing the header that it returns gives that header again. *)
Theorem parse_header_spec (n : nat) (raw_header : list Frame.label) :
  ((n < 3)%nat -> Index.parse_header n raw_header = Raise IndexError)
  /\ ((3 <= n)%nat -> raw_header = [] ->
      Index.parse_header n raw_header = Raise ValueError)
  /\ Index.parse_header 4 raw_header
     = Index.parse_header 3 (map (@tl string) raw_header)
  /\ ((3 <= n)%nat -> raw_header <> [] ->
      exists header,
        Index.parse_header n raw_header = Ok header
        /\ List.length header = List.length raw_header
        /\ Forall (fun l => List.length l = 3%nat
                            /\ Forall (fun s => Demand.contains_char " "%char s = false) l)
             header
        /\ Index.parse_header 3 header = Ok header).
Proof.
  split; [|split; [|split]].
  - intro Hn. unfold Index.parse_header.
    destruct n as [|[|[|n]]]; try lia; reflexivity.
  - intros Hn ->. unfold Index.parse_header.
    destruct n as [|[|[|[|[|n]]]]]; try lia; reflexivity.
  - unfold Index.parse_header. cbn [Nat.eqb forallb Nat.ltb Nat.leb andb negb].
    destruct raw_header as [|l raw]; [reflexivity|].
    cbn [map]. f_equal. f_equal; [rewrite project_tl; reflexivity|].
    rewrite map_map. apply map_ext. intro l'. rewrite project_tl. reflexivity.
  - intros Hn Hne.
    assert (Hlev : negb (forallb (fun i => (i <? n)%nat)
                           (if Nat.eqb n 4 then [1; 2; 3]%nat else [0; 1; 2]%nat))
                   = false).
    { destruct n as [|[|[|[|[|n]]]]]; try lia; reflexivity. }
    set (levels := if Nat.eqb n 4 then [1; 2; 3]%nat else [0; 1; 2]%nat) in *.
    set (f := fun l : Frame.label => map Index.remove_blanks (Frame.project levels l)).
    assert (Hf : forall l, List.length (f l) = 3%nat).
    { intro l. unfold f, Frame.project. rewrite !length_map.
      unfold levels. destruct (Nat.eqb n 4); reflexivity. }
    exists (map f raw_header).
    destruct raw_header as [|l0 raw]; [congruence|].
    split; [|split; [|split]].
    + unfold Index.parse_header. fold levels. rewrite Hlev. reflexivity.
    + apply length_map.
    + apply Forall_forall. intros l Hl. apply in_map_iff in Hl.
      destruct Hl as [l' [<- _]]. split; [apply Hf|].
      apply Forall_forall. intros s Hs. apply in_map_iff in Hs.
      destruct Hs as [s' [<- _]]. apply remove_blanks_none.
    + unfold Index.parse_header. cbn [Nat.eqb forallb Nat.ltb Nat.leb andb negb].
      cbn [map]. apply f_equal.
      change (f l0 :: map f raw) with (map f (l0 :: raw)).
      change (map Index.remove_blanks (Frame.project [0; 1; 2]%nat (f l0))
              :: map (fun l => map Index.remove_blanks (Frame.project [0; 1; 2]%nat l))
                   (map f raw))
        with (map (fun l => map Index.remove_blanks (Frame.project [0; 1; 2]%nat l))
                (map f (l0 :: raw))).
      rewrite map_map. apply map_ext. intro l.
      rewrite (project_three (f l) (Hf l)). unfold f. rewrite map_map.
      apply map_ext. intro s. apply remove_blanks_plain, remove_blanks_none.
Qed.

Lemma parse_header_example :
  Index.parse_header 4 [["1"; "PFA"; " 1"; "1 "]; ["1"; "PID"; "2"; "1"]]
  = Ok [["PFA"; "1"; "1"]; ["PID"; "2"; "1"]].
Proof. reflexivity. Qed.

(** ** Damage calculation: demands, damage states and untriggered
    tasks *)

Lemma evaluate_damage_state_last_exceeded_witness :
  Damage._evaluate_damage_state (Some [3 # 2; 1 # 2])
    (Frame.mkDF [["C"; "1"; "1"; "1"; "1"]; ["C"; "1"; "1"; "1"; "2"]]
       [[1; 2]; [1; 2]])
    (Frame.mkDF [["C"; "1"; "1"; "1"; "1"]; ["C"; "1"; "1"; "1"; "2"]]
       [[1; 3]; [1; 3]]%Z)
  = Ok (Frame.mkDF [["C"; "1"; "1"; "1"]] [[1]; [0]]%Z).
Proof.
  rewrite (evaluate_damage_state_last_exceeded [3 # 2; 1 # 2]
             (Frame.mkDF [["C"; "1"; "1"; "1"; "1"]; ["C"; "1"; "1"; "1"; "2"]]
                [[1; 2]; [1; 2]])
             (Frame.mkDF [["C"; "1"; "1"; "1"; "1"]; ["C"; "1"; "1"; "1"; "2"]]
                [[1; 3]; [1; 3]]%Z)).
  - reflexivity.
  - reflexivity.
  - reflexivity.
  - intros c H. exact H.
Defined.

Section DemandLookupFacts.

Import Frame Demand.
Local Open Scope list_scope.

Lemma filter_none {A : Type} (p : A -> bool) (l : list A) :
  (forall x, In x l -> p x = false) -> filter p l = [].
Proof.
  induction l as [|x l IH]; intro H; [reflexivity|].
  cbn [filter]. rewrite (H x (or_introl eq_refl)). apply IH.
  intros y Hy. apply H. right. exact Hy.
Qed.

End DemandLookupFacts.

(** X15.  [_assemble_required_demand_data] never raises for a demand
    that is not directional (direction '0'): when the demand sample has
    no column of the type and location, or no multiplier is configured,
    the demand is None and one warning is logged.  For a directional
    demand whose column is not in the sample it raises KeyError and
    logs nothing. *)
Theorem assemble_required_demand_missing (options : Demand.Options)
    (demand_source : Frame.DataFrame Q) (type loc dir : string) :
  (exists demand,
     Demand._assemble_required_demand_data options demand_source [type; loc; "0"]
     = Ok (Some demand, [])
     \/ Demand._assemble_required_demand_data options demand_source [type; loc; "0"]
        = Ok (None, [Demand.Warning_no_demand [type; loc; "0"]]))
  /\ ((forall c, In c (Frame.columns demand_source) ->
                 Frame.is_prefix [type; loc] c = false) ->
      Demand._assemble_required_demand_data options demand_source [type; loc; "0"]
      = Ok (None, [Demand.Warning_no_demand [type; loc; "0"]]))
  /\ (String.eqb dir "0" = false ->
      Frame.mem [type; loc; dir] (Frame.columns demand_source) = false ->
      Demand._assemble_required_demand_data options demand_source [type; loc; dir]
      = Raise KeyError).
Proof.
  split; [|split].
  - unfold Demand._assemble_required_demand_data.
    change (Frame.level 2 [type; loc; "0"]) with "0".
    change (Frame.level 0 [type; loc; "0"]) with type.
    change (Frame.level 1 [type; loc; "0"]) with loc.
    cbn [String.eqb Ascii.eqb Bool.eqb andb].
    destruct (Frame.loc_partial [type; loc] demand_source) as [sel|e]; cbn [bind].
    + destruct (Demand.nondir_multi options type) as [multi|e]; cbn [bind].
      * eexists. left. reflexivity.
      * exists []. right. reflexivity.
    + exists []. right. reflexivity.
  - intro Hnone. unfold Demand._assemble_required_demand_data.
    change (Frame.level 2 [type; loc; "0"]) with "0".
    change (Frame.level 0 [type; loc; "0"]) with type.
    change (Frame.level 1 [type; loc; "0"]) with loc.
    cbn [String.eqb Ascii.eqb Bool.eqb andb].
    unfold Frame.loc_partial. rewrite (filter_none _ _ Hnone). reflexivity.
  - intros Hdir Hmem. unfold Demand._assemble_required_demand_data.
    change (Frame.level 2 [type; loc; dir]) with dir.
    change (Frame.level 0 [type; loc; dir]) with type.
    change (Frame.level 1 [type; loc; dir]) with loc.
    rewrite Hdir. unfold Frame.getitem_full. rewrite Hmem. reflexivity.
Qed.

Section TaskFacts.

Import Frame Demand Process.
Local Open Scope list_scope.

Variable unknown_target : cell -> string -> QuantitySample -> result QuantitySample.
Variable cmp_qnt : DataFrame Q.

(** The source component has no column of the damage state: no mask. *)
Lemma source_mask_of_none (source_cmp ds : string) (cols : list label)
    (rows : list (list cell)) :
  (forall c, In c cols -> is_prefix [source_cmp] c = true ->
             String.eqb (level 3 c) ds = false) ->
  source_mask_of
    (mkDF (map (skipn 1) (filter (is_prefix [source_cmp]) cols))
       (map (fun row => cells_where (is_prefix [source_cmp]) cols row) rows)) ds
  = None.
Proof.
  intro Hds. unfold source_mask_of.
  change (columns (groupby_max [2%nat] ?d)) with (group_keys [2%nat] (columns d)).
  cbn [columns].
  assert (Hmem : mem [ds] (group_keys [2%nat]
                             (map (skipn 1) (filter (is_prefix [source_cmp]) cols)))
                 = false).
  { apply mem_false. intro H. apply group_keys_In in H.
    apply in_map_iff in H. destruct H as [c' [Hp H]].
    apply in_map_iff in H. destruct H as [c [<- Hc]].
    apply filter_In in Hc. destruct Hc as [Hc Hpre].
    unfold project in Hp. cbn [map] in Hp.
    rewrite (level3_of_rest source_cmp c Hpre) in Hp. injection Hp as Hp.
    specialize (Hds c Hc Hpre). rewrite Hp, String.eqb_refl in Hds. discriminate. }
  rewrite Hmem. reflexivity.
Qed.

(** Events whose damage state the source component never has are
    skipped, with their targets. *)
Lemma apply_events_untriggered (cmp_list : list string) (source_cmp : string)
    (cols : list label) (rows : list (list cell))
    (events : list (string * list string)) :
  Forall (fun ev : string * list string =>
            exists ds, fst ev = ("DS" ++ ds)%string
                       /\ forall c, In c cols -> is_prefix [source_cmp] c = true ->
                                    String.eqb (level 3 c) ds = false) events ->
  forall source_mask qnt_sample,
  apply_events unknown_target cmp_qnt cmp_list source_cmp
    (mkDF (map (skipn 1) (filter (is_prefix [source_cmp]) cols))
       (map (fun row => cells_where (is_prefix [source_cmp]) cols row) rows))
    events source_mask qnt_sample
  = Ok qnt_sample.
Proof.
  induction 1 as [|[name infos] events [ds [Hname Hds]] _ IH]; intros mask q;
    [reflexivity|].
  cbn [fst] in Hname. subst name. cbn [apply_events].
  change (starts_with "LS" ("DS" ++ ds)%string) with false.
  change (starts_with "DS" ("DS" ++ ds)%string) with true.
  change (drop2 ("DS" ++ ds)%string) with ds. cbv iota.
  rewrite (source_mask_of_none source_cmp ds cols rows Hds). apply IH.
Qed.

End TaskFacts.

(** X16.  A task of a damage process whose source component is not in
    the damage sample raises ValueError.  A task whose events are
    damage states that the source component has in no column returns
    the sample unchanged, whatever the targets of the events are: they
    are not looked at. *)
Theorem perform_dmg_task_not_triggered
    (unknown_target : Process.cell -> string -> Process.QuantitySample
                      -> result Process.QuantitySample)
    (cmp_qnt : Frame.DataFrame Q) (qnt_sample : Process.QuantitySample)
    (task_name before source_cmp : string) (rest : list string)
    (events : list (string * list string))
    (Hname : Demand.split "_"%char task_name = before :: source_cmp :: rest) :
  (existsb (String.eqb source_cmp) (Process.cmp_list_of qnt_sample) = false ->
   Process._perform_dmg_task unknown_target cmp_qnt (task_name, events) qnt_sample
   = Raise ValueError)
  /\ ((exists c, In c (Frame.columns qnt_sample)
                 /\ Frame.is_prefix [source_cmp] c = true) ->
      Forall (fun ev : string * list string =>
                exists ds, fst ev = ("DS" ++ ds)%string
                           /\ forall c, In c (Frame.columns qnt_sample) ->
                                Frame.is_prefix [source_cmp] c = true ->
                                String.eqb (Frame.level 3 c) ds = false) events ->
      Process._perform_dmg_task unknown_target cmp_qnt (task_name, events) qnt_sample
      = Ok qnt_sample).
Proof.
  split.
  - intro Hnot. unfold Process._perform_dmg_task. cbn [fst snd].
    rewrite Hname. cbn [bind]. fold (Process.cmp_list_of qnt_sample).
    rewrite Hnot. reflexivity.
  - intros Hsource Hevents. unfold Process._perform_dmg_task. cbn [fst snd].
    rewrite Hname. cbn [bind]. fold (Process.cmp_list_of qnt_sample).
    assert (Hin : existsb (String.eqb source_cmp) (Process.cmp_list_of qnt_sample)
                  = true).
    { apply existsb_eqb_In, cmp_list_of_In.
      destruct Hsource as [c [Hc Hp]]. exists c. split; [exact Hc|].
      apply level0_of_prefix. exact Hp. }
    rewrite Hin. cbn [negb].
    rewrite (loc_partial_found _ _ Hsource).
    cbn [bind]. change (List.length [source_cmp]) with 1%nat.
    apply apply_events_untriggered. exact Hevents.
Qed.

Lemma perform_dmg_task_not_triggered_witness :
  Process._perform_dmg_task (fun _ _ _ => Raise KeyError) Process.cmp_qnt_example
    ("1_A", [("DS3", ["B_DS2"; "nonsense"])]) Process.qnt_sample_example
  = Ok Process.qnt_sample_example.
Proof.
  apply (proj2 (perform_dmg_task_not_triggered (fun _ _ _ => Raise KeyError)
                  Process.cmp_qnt_example Process.qnt_sample_example
                  "1_A" "1" "A" [] [("DS3", ["B_DS2"; "nonsense"])] eq_refl)).
  - exists ["A"; "1"; "1"; "0"]. split; [left; reflexivity | reflexivity].
  - repeat constructor. exists "3". split; [reflexivity|].
    intros c Hc Hp. simpl in Hc.
    repeat (destruct Hc as [<- | Hc]; [try reflexivity; discriminate Hp|]).
    destruct Hc.
Defined.

(** ** The numbering of the damage states *)

Section NumberingFacts.

Import Frame Demand Capacity Quantities.
Local Open Scope list_scope.

Variable is_defined : option Q -> bool.
Variable damage_function_quantities : nat -> string -> result unit.
Variable PG : label.
Variable frg_params : list (string * ls_params).

Hypothesis no_function :
  forall l p, In (l, p) frg_params -> Family p <> Some "function".

Let guard (l : string) : bool := is_defined (Theta_0 (params_of frg_params l)).

Lemma assign_lsds_new (p : ls_params) (ds : Z) (reg : RandomVariableRegistry)
    (block_i : nat) (l : string) :
  dict_get frg_params l = Ok p ->
  ~ In (rv_tag "LSDS" PG (block_i + 1) l) (map name (RV reg)) ->
  assign_lsds (DamageStateWeights p) ds reg (rv_tag "LSDS" PG (block_i + 1) l)
  = Ok ((ds + ds_count p)%Z,
        mkRegistry (RV reg ++ [lsds_RV PG frg_params block_i ds l]) (RV_set reg)).
Proof.
  intros Hp Hfresh. unfold assign_lsds, lsds_RV, ds_count, params_of. rewrite Hp.
  destruct (DamageStateWeights p) as [w|].
  - rewrite add_RV_fresh by exact Hfresh. reflexivity.
  - rewrite add_RV_fresh by exact Hfresh. reflexivity.
Qed.

(** One limit state: its LS->DS variable takes the damage states after
    the current one. *)
Lemma limit_state_step_numbering (ls_count block_i : nat) (st : loop_state)
    (l : string) :
  In l (map fst frg_params) ->
  ~ In (rv_tag "FRG" PG (block_i + 1) l) (map name (RV (capacity_RV_reg st))) ->
  ~ In (rv_tag "LSDS" PG (block_i + 1) l) (map name (RV (lsds_RV_reg st))) ->
  exists st',
    limit_state_step is_defined damage_function_quantities PG frg_params
      ls_count block_i st l = Ok st'
    /\ map name (RV (capacity_RV_reg st'))
       = map name (RV (capacity_RV_reg st))
         ++ (if guard l then [rv_tag "FRG" PG (block_i + 1) l] else [])
    /\ RV (lsds_RV_reg st')
       = RV (lsds_RV_reg st)
         ++ (if guard l then [lsds_RV PG frg_params block_i (ds_id st) l] else [])
    /\ RV_set (lsds_RV_reg st') = RV_set (lsds_RV_reg st)
    /\ ds_id st'
       = if guard l then (ds_id st + ds_count (params_of frg_params l))%Z
         else ds_id st.
Proof.
  intros Hkey Hcap Hlsds.
  destruct (dict_get_key is_defined frg_params _ _ Hkey) as [p Hp].
  assert (Hpo : params_of frg_params l = p)
    by (unfold params_of; rewrite Hp; reflexivity).
  unfold guard. rewrite Hpo. unfold limit_state_step. rewrite Hp. cbn [bind].
  destruct (is_defined (Theta_0 p)) eqn:Eg.
  - rewrite (is_family_false _ (no_function _ _ (dict_get_In _ _ _ Hp))).
    rewrite (assign_lsds_new p (ds_id st) (lsds_RV_reg st) block_i l Hp Hlsds).
    destruct (Family p) as [f|].
    + rewrite add_RV_fresh by exact Hcap. cbn [bind].
      eexists. split; [reflexivity|]. cbn. rewrite map_app.
      repeat split; reflexivity.
    + rewrite add_RV_fresh by exact Hcap. cbn [bind].
      eexists. split; [reflexivity|]. cbn. rewrite map_app.
      repeat split; reflexivity.
  - exists st. rewrite !app_nil_r. repeat split; reflexivity.
Qed.

Lemma limit_states_loop_numbering (ls_count block_i : nat) (ls : list string) :
  forall st,
  NoDup ls ->
  (forall l, In l ls -> In l (map fst frg_params)) ->
  (forall l, In l ls ->
     ~ In (rv_tag "FRG" PG (block_i + 1) l) (map name (RV (capacity_RV_reg st)))) ->
  (forall l, In l ls ->
     ~ In (rv_tag "LSDS" PG (block_i + 1) l) (map name (RV (lsds_RV_reg st)))) ->
  exists st',
    limit_states_loop is_defined damage_function_quantities PG frg_params
      ls_count block_i ls st = Ok st'
    /\ map name (RV (capacity_RV_reg st'))
       = map name (RV (capacity_RV_reg st))
         ++ map (rv_tag "FRG" PG (block_i + 1)) (filter guard ls)
    /\ RV (lsds_RV_reg st')
       = RV (lsds_RV_reg st)
         ++ lsds_RVs PG frg_params block_i (ds_id st) (filter guard ls)
    /\ RV_set (lsds_RV_reg st') = RV_set (lsds_RV_reg st).
Proof.
  induction ls as [|l ls IH]; intros st Hnd Hkeys Hcap Hlsds.
  - exists st. simpl. rewrite !app_nil_r. repeat split; reflexivity.
  - inversion Hnd as [|? ? Hnotin Hnd']; subst.
    destruct (limit_state_step_numbering ls_count block_i st l
                (Hkeys l (or_introl eq_refl)) (Hcap l (or_introl eq_refl))
                (Hlsds l (or_introl eq_refl)))
      as [st1 [E1 [Hc1 [Hl1 [Hs1 Hd1]]]]].
    destruct (IH st1 Hnd') as [st2 [E2 [Hc2 [Hl2 Hs2]]]].
    + intros l' Hl'. apply Hkeys. right. exact Hl'.
    + intros l' Hl'. rewrite Hc1, in_app_iff. intros [H|H].
      * revert H. apply Hcap. right. exact Hl'.
      * destruct (guard l); [|destruct H]. destruct H as [H|[]].
        apply rv_tag_inj in H. destruct H as [_ H]. subst. contradiction.
    + intros l' Hl'. rewrite Hl1, map_app, in_app_iff. intros [H|H].
      * revert H. apply Hlsds. right. exact Hl'.
      * destruct (guard l); [|destruct H]. destruct H as [H|[]].
        cbn [lsds_RV name] in H.
        apply rv_tag_inj in H. destruct H as [_ H]. subst. contradiction.
    + exists st2. cbn [limit_states_loop]. rewrite E1. cbn [bind].
      split; [exact E2|].
      rewrite Hc2, Hl2, Hs2, Hc1, Hl1, Hs1, Hd1.
      cbn [filter]. destruct (guard l); cbn [map lsds_RVs];
        rewrite <- ?app_assoc; cbn [app]; rewrite ?app_nil_r; repeat split; reflexivity.
Qed.

Lemma name_lsds_RVs (block_i : nat) (ls : list string) :
  forall ds, map name (lsds_RVs PG frg_params block_i ds ls)
             = map (rv_tag "LSDS" PG (block_i + 1)) ls.
Proof.
  induction ls as [|l ls IH]; intro ds; [reflexivity|].
  cbn [lsds_RVs map lsds_RV name]. rewrite IH. reflexivity.
Qed.

(** The variables of one block: the numbering starts again. *)
Lemma block_step_numbering (ls : list string) (block_i : nat)
    (cap lsds : RandomVariableRegistry) (n : nat) :
  NoDup ls ->
  (forall l, In l ls -> In l (map fst frg_params)) ->
  (forall l, ~ In (rv_tag "FRG" PG (block_i + 1) l) (map name (RV cap))) ->
  (forall l, ~ In (rv_tag "LSDS" PG (block_i + 1) l) (map name (RV lsds))) ->
  exists cap' lsds' n',
    block_step is_defined damage_function_quantities PG frg_params ls
      (cap, lsds, n) block_i = Ok (cap', lsds', n')
    /\ map name (RV cap')
       = map name (RV cap) ++ map (rv_tag "FRG" PG (block_i + 1)) (filter guard ls)
    /\ RV lsds' = RV lsds ++ lsds_RVs PG frg_params block_i 0 (filter guard ls)
    /\ RV_set lsds' = RV_set lsds.
Proof.
  intros Hnd Hkeys Hcap Hlsds.
  destruct (block_step_ok is_defined damage_function_quantities PG frg_params
              no_function ls block_i cap lsds n Hnd Hkeys Hcap Hlsds)
    as [cap' [lsds' [n' [E [Hc _]]]]].
  destruct (limit_states_loop_numbering (List.length ls) block_i ls
              (mkState cap lsds n 0%Z []) Hnd Hkeys
              (fun l _ => Hcap l) (fun l _ => Hlsds l))
    as [st [Est [Hcn [Hl Hs]]]].
  cbn [capacity_RV_reg lsds_RV_reg ds_id] in Hcn, Hl, Hs.
  exists cap', lsds', n'. split; [exact E|].
  unfold block_step in E. cbn [fst snd] in E. rewrite Est in E. cbn [bind] in E.
  destruct (0 <? List.length (frg_rv_set_tags st))%nat.
  - destruct (RVs (capacity_RV_reg st) (frg_rv_set_tags st)) as [members|e];
      [|discriminate]. cbn [bind add_RV_set] in E. injection E as <- <- <-.
    cbn [RV]. auto.
  - injection E as <- <- <-. auto.
Qed.

Lemma blocks_loop_numbering (ls : list string) (count : nat) :
  forall (first : nat) (cap lsds : RandomVariableRegistry) (n : nat),
  NoDup ls ->
  (forall l, In l ls -> In l (map fst frg_params)) ->
  (forall b l, (first <= b)%nat ->
     ~ In (rv_tag "FRG" PG (b + 1) l) (map name (RV cap))) ->
  (forall b l, (first <= b)%nat ->
     ~ In (rv_tag "LSDS" PG (b + 1) l) (map name (RV lsds))) ->
  exists cap' lsds' n',
    blocks_loop is_defined damage_function_quantities PG frg_params ls
      (seq first count) (cap, lsds, n) = Ok (cap', lsds', n')
    /\ RV lsds'
       = RV lsds ++ flat_map (fun block_i =>
                                lsds_RVs PG frg_params block_i 0 (filter guard ls))
                      (seq first count)
    /\ RV_set lsds' = RV_set lsds.
Proof.
  induction count as [|count IH]; intros first cap lsds n Hnd Hkeys Hcap Hlsds.
  - simpl. eexists. eexists. eexists. split; [reflexivity|].
    rewrite app_nil_r. auto.
  - destruct (block_step_numbering ls first cap lsds n Hnd Hkeys
                (fun l => Hcap first l (Nat.le_refl _))
                (fun l => Hlsds first l (Nat.le_refl _)))
      as [cap1 [lsds1 [n1 [E1 [Hc1 [Hl1 Hs1]]]]]].
    destruct (IH (S first) cap1 lsds1 n1 Hnd Hkeys)
      as [cap2 [lsds2 [n2 [E2 [Hl2 Hs2]]]]].
    + intros b l Hb. rewrite Hc1, in_app_iff. intros [H|H].
      * revert H. apply Hcap. lia.
      * apply in_map_iff in H. destruct H as [l' [H _]].
        apply rv_tag_inj in H. lia.
    + intros b l Hb. rewrite Hl1, map_app, name_lsds_RVs, in_app_iff. intros [H|H].
      * revert H. apply Hlsds. lia.
      * apply in_map_iff in H. destruct H as [l' [H _]].
        apply rv_tag_inj in H. lia.
    + exists cap2, lsds2, n2. cbn [seq blocks_loop]. rewrite E1. cbn [bind].
      split; [exact E2|]. rewrite Hl2, Hs2, Hl1, Hs1. cbn [flat_map].
      rewrite <- app_assoc. auto.
Qed.

(** The damage states of the variables of a block follow one another. *)
Lemma lsds_RVs_consecutive (block_i : nat) (ls : list string) :
  forall ds, consecutive_from (ds + 1) (map picks (lsds_RVs PG frg_params block_i ds ls)).
Proof.
  induction ls as [|l ls IH]; intro ds; [exact I|].
  cbn [lsds_RVs map]. unfold lsds_RV at 1, picks at 1. cbn [dist].
  unfold ds_count.
  destruct (DamageStateWeights (params_of frg_params l)) as [w|].
  - split; [reflexivity|]. split; [lia|].
    replace (ds + 1 + Z.of_nat (List.length w))%Z
      with (ds + Z.of_nat (List.length w) + 1)%Z by lia.
    apply IH.
  - split; [apply Qfloor_Z|]. split; [lia|]. apply IH.
Qed.

End NumberingFacts.

(** X17.  For a component none of whose limit states is a damage
    function, the LS->DS registry that [_create_dmg_RVs] returns holds
    one variable per block and limit state, in this order, and no set;
    in every block the damage states are numbered from 1 on, limit
    state after limit state: a limit state with weights takes as many
    damage states as it has weights, any other takes one, and the first
    damage state of a limit state is the one after the last damage state
    of the limit state before it. *)
Theorem create_dmg_RVs_damage_state_numbering
    (is_defined : option Q -> bool)
    (damage_function_quantities : nat -> string -> result unit)
    (PG : Frame.label)
    (damage_params : list (string * list (string * Capacity.ls_params)))
    (blocks : nat) (frg_params : list (string * Capacity.ls_params))
    (Hcmp : dict_get damage_params (Frame.level 0 PG) = Ok frg_params)
    (Hfamily : forall l p, In (l, p) frg_params ->
                           Capacity.Family p <> Some "function") :
  let ls := Capacity.defined_limit_states is_defined frg_params in
  exists capacity_RV_reg lsds_RV_reg,
    Capacity._create_dmg_RVs is_defined damage_function_quantities PG
      damage_params blocks = Ok (capacity_RV_reg, lsds_RV_reg)
    /\ Capacity.RV lsds_RV_reg
       = flat_map (fun block_i => Quantities.lsds_RVs PG frg_params block_i 0 ls)
           (seq 0 blocks)
    /\ Capacity.RV_set lsds_RV_reg = []
    /\ forall block_i,
         Quantities.consecutive_from 1
           (map Quantities.picks (Quantities.lsds_RVs PG frg_params block_i 0 ls)).
Proof.
  intro ls. unfold Capacity._create_dmg_RVs. rewrite Hcmp.
  destruct (blocks_loop_numbering is_defined damage_function_quantities PG frg_params
              Hfamily (Capacity.limit_states_of frg_params) blocks 0
              Capacity.empty_registry Capacity.empty_registry 0
              (limit_states_of_NoDup frg_params)
              (limit_states_of_keys frg_params)
              (fun b l _ H => H) (fun b l _ H => H))
    as [cap [lsds [n [E [Hl Hs]]]]].
  exists cap, lsds.
  change (map (fun l => Frame.level 0 l)
            (Frame.unique (map (fun p => [fst p]) frg_params)))
    with (Capacity.limit_states_of frg_params).
  rewrite E. cbn [bind fst snd]. split; [reflexivity|].
  cbn [Capacity.RV Capacity.RV_set Capacity.empty_registry app] in Hl, Hs.
  split; [exact Hl|]. split; [exact Hs|].
  intro block_i. apply (lsds_RVs_consecutive PG frg_params block_i ls 0%Z).
Qed.

Lemma create_dmg_RVs_damage_state_numbering_witness :
  exists capacity_RV_reg lsds_RV_reg,
    Capacity._create_dmg_RVs (fun _ => true) (fun _ _ => Ok tt) ["C"; "1"; "1"]
      Capacity.damage_params_example 2 = Ok (capacity_RV_reg, lsds_RV_reg)
    /\ map (fun rv => (Capacity.name rv, Quantities.picks rv))
         (Capacity.RV lsds_RV_reg)
       = [ ("LSDS-C-1-1-1-1", Some (1, 1)%Z); ("LSDS-C-1-1-1-2", Some (2, 1)%Z);
           ("LSDS-C-1-1-1-3", Some (3, 2)%Z);
           ("LSDS-C-1-1-2-1", Some (1, 1)%Z); ("LSDS-C-1-1-2-2", Some (2, 1)%Z);
           ("LSDS-C-1-1-2-3", Some (3, 2)%Z) ].
Proof.
  destruct (create_dmg_RVs_damage_state_numbering (fun _ => true) (fun _ _ => Ok tt)
              ["C"; "1"; "1"] Capacity.damage_params_example 2
              (snd (hd ("", []) Capacity.damage_params_example)))
    as [cap [lsds [E [Hl _]]]].
  - reflexivity.
  - intros l p H. simpl in H.
    destruct H as [H | [H | [H | []]]]; injection H as _ <-; discriminate.
  - exists cap, lsds. split; [exact E|]. rewrite Hl. reflexivity.
Defined.

(** ** Damaged quantities *)

Section QuantityFacts.

Import Frame Demand Quantities.
Local Open Scope list_scope.

Lemma insert_unique_In (z x : Z) (l : list Z) :
  In x (insert_unique z l) <-> x = z \/ In x l.
Proof.
  induction l as [|y l IH]; simpl; [intuition congruence|].
  destruct (Z.ltb_spec z y); [simpl; intuition congruence|].
  destruct (Z.eqb_spec z y); [subst; simpl; intuition congruence|].
  simpl. rewrite IH. intuition congruence.
Qed.

Lemma insert_unique_sorted (z : Z) (l : list Z) :
  StronglySorted Z.lt l -> StronglySorted Z.lt (insert_unique z l).
Proof.
  induction 1 as [|y l Hs IH Hy]; simpl; [repeat constructor|].
  destruct (Z.ltb_spec z y).
  - constructor; [constructor; assumption|].
    constructor; [assumption|].
    rewrite Forall_forall in *. intros x Hx. specialize (Hy x Hx). lia.
  - destruct (Z.eqb_spec z y); [constructor; assumption|].
    constructor; [exact IH|].
    rewrite Forall_forall in *. intros x Hx. apply insert_unique_In in Hx.
    destruct Hx as [-> | Hx]; [lia | apply Hy; exact Hx].
Qed.

Lemma np_unique_In (x : Z) (l : list Z) : In x (np_unique l) <-> In x l.
Proof.
  unfold np_unique. induction l as [|z l IH]; simpl; [tauto|].
  rewrite insert_unique_In, IH. intuition congruence.
Qed.

Lemma np_unique_sorted (l : list Z) : StronglySorted Z.lt (np_unique l).
Proof.
  unfold np_unique. induction l as [|z l IH]; simpl; [constructor|].
  apply insert_unique_sorted. exact IH.
Qed.

Lemma sorted_NoDup (l : list Z) : StronglySorted Z.lt l -> NoDup l.
Proof.
  induction 1 as [|y l Hs IH Hy]; constructor; [|exact IH].
  intro Hin. rewrite Forall_forall in Hy. specialize (Hy y Hin). lia.
Qed.

(** The damage states in increasing order, each once. *)
Lemma np_unique_NoDup (l : list Z) : NoDup (np_unique l).
Proof. apply sorted_NoDup, np_unique_sorted. Qed.

Lemma Qsum_app (l1 l2 : list Q) : Qsum (l1 ++ l2) == Qsum l1 + Qsum l2.
Proof.
  unfold Qsum. induction l1 as [|x l1 IH]; simpl; [ring|]. rewrite IH. ring.
Qed.

(** One block counts in the damage state it is in, and in no other. *)
Lemma Qsum_one_state (d : Z) (q : Q) (L : list Z) :
  NoDup L -> In d L ->
  Qsum (map (fun ds_i => if (d =? ds_i)%Z then q else 0) L) == q.
Proof.
  induction 1 as [|x L Hnotin Hnd IH]; intro Hin; [destruct Hin|].
  cbn [map]. unfold Qsum in *. cbn [fold_right].
  destruct (Z.eqb_spec d x) as [->|Hne].
  - assert (E : fold_right Qplus 0 (map (fun ds_i => if (x =? ds_i)%Z then q else 0) L)
                == 0).
    { clear IH Hin Hnd. induction L as [|y L IHL]; simpl; [reflexivity|].
      destruct (Z.eqb_spec x y) as [->|_]; [exfalso; apply Hnotin; left; reflexivity|].
      rewrite IHL; [ring|]. intro H. apply Hnotin. right. exact H. }
    rewrite E. ring.
  - destruct Hin as [Hin|Hin]; [congruence|]. rewrite (IH Hin). ring.
Qed.

(** The quantities of the damage states of a realization add up to the
    quantities of its blocks. *)
Lemma Qsum_states (L : list Z) (Hnd : NoDup L) (ds_row : list Z) :
  forall qnt_row : list Q,
  (forall d, In d ds_row -> In d L) ->
  List.length ds_row = List.length qnt_row ->
  Qsum (map (fun ds_i => quantity_in ds_i ds_row qnt_row) L) == Qsum qnt_row.
Proof.
  unfold quantity_in.
  induction ds_row as [|d ds_row IH]; intros [|q qnt_row] Hin Hlen; try discriminate.
  - simpl. clear. induction L as [|x L IH]; simpl; [reflexivity|].
    unfold Qsum in *. simpl. rewrite IH. ring.
  - cbn [combine map List.concat fst snd].
    assert (E : Qsum (map (fun ds_i =>
                             Qsum ((if (d =? ds_i)%Z then [q] else [])
                                   ++ List.concat
                                        (map (fun dq : Z * Q =>
                                                if (fst dq =? ds_i)%Z
                                                then [snd dq] else [])
                                           (combine ds_row qnt_row)))) L)
                == Qsum (map (fun ds_i => if (d =? ds_i)%Z then q else 0) L)
                   + Qsum (map (fun ds_i =>
                                  Qsum (List.concat
                                          (map (fun dq : Z * Q =>
                                                  if (fst dq =? ds_i)%Z
                                                  then [snd dq] else [])
                                             (combine ds_row qnt_row)))) L)).
    { clear. induction L as [|x L IHL]; [simpl; unfold Qsum; simpl; ring|].
      cbn [map]. unfold Qsum at 1 3 5. cbn [fold_right].
      fold (Qsum (map (fun ds_i =>
                         Qsum ((if (d =? ds_i)%Z then [q] else [])
                               ++ List.concat
                                    (map (fun dq : Z * Q =>
                                            if (fst dq =? ds_i)%Z
                                            then [snd dq] else [])
                                       (combine ds_row qnt_row)))) L)).
      fold (Qsum (map (fun ds_i => if (d =? ds_i)%Z then q else 0) L)).
      fold (Qsum (map (fun ds_i =>
                         Qsum (List.concat
                                 (map (fun dq : Z * Q =>
                                         if (fst dq =? ds_i)%Z
                                         then [snd dq] else [])
                                    (combine ds_row qnt_row)))) L)).
      rewrite IHL, Qsum_app.
      destruct (d =? x)%Z; unfold Qsum; simpl; ring. }
    rewrite E, IH; [| intros d' Hd'; apply Hin; right; exact Hd'
                    | simpl in Hlen; congruence].
    rewrite (Qsum_one_state d q L Hnd (Hin d (or_introl eq_refl))).
    unfold Qsum. simpl. ring.
Qed.

Lemma Qsum_scale (q : Q) (l : list Q) :
  Qsum (map (fun w => q * w) l) == q * Qsum l.
Proof.
  unfold Qsum. induction l as [|w l IH]; simpl; [ring|]. rewrite IH. ring.
Qed.

Lemma length_cells_where {A : Type} (p : label -> bool) (cols : list label) :
  forall row : list A,
  List.length row = List.length cols ->
  List.length (cells_where p cols row) = List.length (filter p cols).
Proof.
  induction cols as [|c cols IH]; intros [|v row] H; try discriminate; [reflexivity|].
  cbn [cells_where filter]. injection H as H.
  destruct (p c); cbn [List.length]; rewrite (IH row H); reflexivity.
Qed.

Lemma Qsum_perm (l l' : list Q) : Permutation l l' -> Qsum l == Qsum l'.
Proof.
  unfold Qsum. induction 1; simpl; try ring.
  - rewrite IHPermutation. reflexivity.
  - rewrite IHPermutation1. exact IHPermutation2.
Qed.

(** The weights of the blocks '1', '2', ... are the weights in their
    order. *)
Lemma block_weights_in_order (weights : list Q) :
  forall k : Z,
  map (block_weight weights k)
    (map (fun i => [str_of_int (k + Z.of_nat i)]) (seq 0 (List.length weights)))
  = weights.
Proof.
  induction weights as [|w ws IH]; intro k; [reflexivity|].
  cbn [List.length seq map block_weight].
  replace (k + Z.of_nat 0)%Z with k by lia.
  rewrite label_eqb_refl. f_equal.
  rewrite <- (IH (k + 1)%Z) at 2. rewrite <- seq_shift, !map_map.
  apply map_ext. intro i.
  replace (k + 1 + Z.of_nat i)%Z with (k + Z.of_nat (S i))%Z by lia.
  destruct (label_eqb [str_of_int (k + Z.of_nat (S i))] [str_of_int k]) eqn:E;
    [|reflexivity].
  apply label_eqb_eq in E. injection E as E. apply str_of_int_inj in E. lia.
Qed.

End QuantityFacts.

(** X18.  The damaged quantities that [prepare_dmg_quantities] returns
    when no damage state is dropped partition the quantity of the
    component: in every realization the quantities of the damage states
    add up to the quantity of the component times the sum of the weights
    of the blocks of the damage state sample, so no quantity is lost or
    counted twice, whatever the damage states of the blocks are.  When
    the blocks of the sample are the blocks '1', ..., 'n' of the n
    weights, that sum is the sum of the weights. *)
Theorem prepare_dmg_quantities_conserves (format_g : Z -> string)
    (cmp_sample : Frame.DataFrame Q) (weights : list Q) (PG : Frame.label)
    (ds_sample : Frame.DataFrame Z) (dropempty : bool) (res : Frame.DataFrame Q)
    (Hweights : weights <> [])
    (Hwf : Frame.well_formed ds_sample)
    (H : Quantities.prepare_dmg_quantities format_g cmp_sample weights PG ds_sample
           false dropempty = Ok res) :
  exists dmg_ds cmp_qnt,
    Frame.loc_partial PG ds_sample = Ok dmg_ds
    /\ Frame.getitem_full PG cmp_sample = Ok cmp_qnt
    /\ List.length (Frame.values res) = List.length cmp_qnt
    /\ Forall (fun qr : Q * list Q =>
                 Frame.Qsum (snd qr)
                 == fst qr * Frame.Qsum (map (Quantities.block_weight weights 1)
                                           (Frame.columns dmg_ds)))
         (combine cmp_qnt (Frame.values res))
    /\ (Permutation (Frame.columns dmg_ds)
          (map (fun i => [Demand.str_of_int (1 + Z.of_nat i)])
             (seq 0 (List.length weights))) ->
        Frame.Qsum (map (Quantities.block_weight weights 1) (Frame.columns dmg_ds))
        == Frame.Qsum weights).
Proof.
  assert (Htotal : forall cols,
             Permutation cols
               (map (fun i => [Demand.str_of_int (1 + Z.of_nat i)])
                  (seq 0 (List.length weights))) ->
             Frame.Qsum (map (Quantities.block_weight weights 1) cols)
             == Frame.Qsum weights).
  { intros cols Hp.
    rewrite (Qsum_perm _ _ (Permutation_map (Quantities.block_weight weights 1) Hp)).
    rewrite block_weights_in_order. reflexivity. }
  unfold Quantities.prepare_dmg_quantities in H.
  apply bind_ok in H. destruct H as [dmg_ds [Hds H]].
  apply bind_ok in H. destruct H as [cmp_qnt [Hq H]].
  exists dmg_ds, cmp_qnt. split; [exact Hds|]. split; [exact Hq|].
  destruct weights as [|w0 ws] eqn:Ew; [congruence|]. rewrite <- Ew in *.
  destruct (Nat.eqb_spec (List.length cmp_qnt) (List.length (Frame.values dmg_ds)))
    as [Hlen|]; [|discriminate H].
  cbn [bind] in H.
  set (L := Quantities.np_unique (List.concat (Frame.values dmg_ds))) in *.
  assert (HL : NoDup L) by apply np_unique_NoDup.
  destruct L as [|d0 L'] eqn:EL; [discriminate H|]. rewrite <- EL in *.
  injection H as <-. cbn [Frame.values].
  (* the rows of the damage states are as long as the columns *)
  assert (Hrows : Forall (fun ds_row => List.length ds_row
                                        = List.length (Frame.columns dmg_ds))
                    (Frame.values dmg_ds)).
  { unfold Frame.loc_partial in Hds.
    destruct (filter (Frame.is_prefix PG) (Frame.columns ds_sample)) as [|c0 sel] eqn:Ef;
      [discriminate Hds|].
    injection Hds as <-. cbn [Frame.columns Frame.values].
    apply Forall_forall. intros r Hr. apply in_map_iff in Hr.
    destruct Hr as [row [<- Hrow]].
    unfold Frame.well_formed in Hwf. rewrite Forall_forall in Hwf.
    rewrite (length_cells_where _ _ _ (Hwf row Hrow)), Ef. simpl.
    rewrite ?length_map. reflexivity. }
  clear Hds Hq Hwf.
  split; [|split; [|apply Htotal]].
  - rewrite length_map, length_combine, length_map, Hlen. apply Nat.min_id.
  - clear Htotal. assert (HinL : forall ds_row d, In ds_row (Frame.values dmg_ds) -> In d ds_row ->
                                    In d L).
    { intros ds_row d Hr Hd. unfold L. apply np_unique_In.
      apply in_concat. exists ds_row. auto. }
    clearbody L. clear EL. revert Hlen Hrows HinL.
    generalize (Frame.values dmg_ds) as rows. generalize (Frame.columns dmg_ds) as cols.
    intros cols rows. revert cmp_qnt.
    induction rows as [|ds_row rows IH]; intros [|q cmp_qnt] Hlen Hrows HinL;
      try discriminate; [constructor|].
    inversion Hrows as [|? ? Hr Hrows']; subst.
    cbn [map combine]. constructor.
    + cbn [fst snd].
      rewrite (Qsum_states L HL ds_row).
      * rewrite <- Qsum_scale, map_map. reflexivity.
      * intros d Hd. apply (HinL ds_row d); [left; reflexivity | exact Hd].
      * rewrite length_map. exact Hr.
    + apply IH; [simpl in Hlen; congruence | exact Hrows' |].
      intros r d Hr' Hd. apply (HinL r d); [right; exact Hr' | exact Hd].
Qed.

Lemma prepare_dmg_quantities_conserves_witness :
  exists dmg_ds cmp_qnt,
    Frame.loc_partial ["C"; "1"; "1"]
      (Frame.mkDF [["C"; "1"; "1"; "1"]; ["C"; "1"; "1"; "2"]] [[0; 2]; [2; 2]]%Z)
    = Ok dmg_ds
    /\ Frame.getitem_full ["C"; "1"; "1"] (Frame.mkDF [["C"; "1"; "1"]] [[4]; [6]])
       = Ok cmp_qnt
    /\ List.length [[4 # 2; 4 # 2]; [0; 24 # 4]] = List.length cmp_qnt
    /\ Forall (fun qr : Q * list Q =>
                 Frame.Qsum (snd qr)
                 == fst qr * Frame.Qsum (map (Quantities.block_weight [1 # 2; 1 # 2] 1)
                                           (Frame.columns dmg_ds)))
         (combine cmp_qnt [[4 # 2; 4 # 2]; [0; 24 # 4]])
    /\ (Permutation (Frame.columns dmg_ds)
          (map (fun i => [Demand.str_of_int (1 + Z.of_nat i)]) (seq 0 2)) ->
        Frame.Qsum (map (Quantities.block_weight [1 # 2; 1 # 2] 1)
                      (Frame.columns dmg_ds))
        == Frame.Qsum [1 # 2; 1 # 2]).
Proof.
  apply (prepare_dmg_quantities_conserves Demand.str_of_int
           (Frame.mkDF [["C"; "1"; "1"]] [[4]; [6]]) [1 # 2; 1 # 2] ["C"; "1"; "1"]
           (Frame.mkDF [["C"; "1"; "1"; "1"]; ["C"; "1"; "1"; "2"]] [[0; 2]; [2; 2]]%Z)
           false
           (Frame.mkDF [["0"]; ["2"]] [[4 # 2; 4 # 2]; [0; 24 # 4]])).
  - discriminate.
  - repeat constructor.
  - vm_compute. reflexivity.
Defined.

(** ** Aggregation of a sample without repair costs or repair times *)

Section AggregateErrorFacts.

Import Frame Loss.
Local Open Scope list_scope.

(** No column of the decision variable: the grouped table has none
    either, and the lookup raises KeyError. *)
Lemma getitem_groupby_none (dv : string) (DV : DataFrame Q) :
  (forall c, In c (columns DV) -> level 0 c <> dv) ->
  getitem dv (groupby_sum [0%nat; 4%nat] DV) = Raise KeyError.
Proof.
  intro Hnone. unfold getitem.
  change (columns (groupby_sum [0%nat; 4%nat] DV))
    with (group_keys [0%nat; 4%nat] (columns DV)).
  rewrite filter_none; [reflexivity|].
  intros k Hk. apply group_keys_In in Hk. apply in_map_iff in Hk.
  destruct Hk as [c [<- Hc]]. unfold project. cbn [map].
  apply String.eqb_neq. apply Hnone. exact Hc.
Qed.

Lemma has_level0_dec (dv : string) (cols : list label) :
  (exists c, In c cols /\ level 0 c = dv)
  \/ (forall c, In c cols -> level 0 c <> dv).
Proof.
  destruct (existsb (fun c => String.eqb (level 0 c) dv) cols) eqn:E.
  - left. apply existsb_exists in E. destruct E as [c [Hc E]].
    exists c. split; [exact Hc | apply String.eqb_eq; exact E].
  - right. intros c Hc Heq.
    assert (H : existsb (fun c => String.eqb (level 0 c) dv) cols = true).
    { apply existsb_exists. exists c. split; [exact Hc | apply String.eqb_eq; exact Heq]. }
    congruence.
Qed.

End AggregateErrorFacts.

(** X19.  [aggregate_losses] needs both decision variables: it raises
    KeyError for a consequence sample that has no 'COST' column and for
    one that has no 'TIME' column, also when the other one is there.
    When it returns, the sample has columns of both and the summary has
    one row for every realization. *)
Theorem aggregate_losses_needs_cost_and_time (DV : Frame.DataFrame Q) :
  ((forall c, In c (Frame.columns DV) -> Frame.level 0 c <> "COST") ->
   Loss.aggregate_losses DV = Raise KeyError)
  /\ ((forall c, In c (Frame.columns DV) -> Frame.level 0 c <> "TIME") ->
      Loss.aggregate_losses DV = Raise KeyError)
  /\ (forall agg, Loss.aggregate_losses DV = Ok agg ->
        (exists c, In c (Frame.columns DV) /\ Frame.level 0 c = "COST")
        /\ (exists c, In c (Frame.columns DV) /\ Frame.level 0 c = "TIME")
        /\ List.length agg = List.length (Frame.values DV)).
Proof.
  assert (Hcost : (forall c, In c (Frame.columns DV) -> Frame.level 0 c <> "COST") ->
                  Loss.aggregate_losses DV = Raise KeyError).
  { intro H. unfold Loss.aggregate_losses.
    rewrite (getitem_groupby_none "COST" DV H). reflexivity. }
  assert (Htime : (forall c, In c (Frame.columns DV) -> Frame.level 0 c <> "TIME") ->
                  Loss.aggregate_losses DV = Raise KeyError).
  { intro H.
    destruct (has_level0_dec "COST" (Frame.columns DV)) as [Hc | Hc];
      [|exact (Hcost Hc)].
    unfold Loss.aggregate_losses.
    rewrite (getitem_groupby "COST" DV Hc), (getitem_groupby_none "TIME" DV H).
    reflexivity. }
  split; [exact Hcost|]. split; [exact Htime|].
  intros agg Hagg.
  destruct (has_level0_dec "COST" (Frame.columns DV)) as [Hc | Hc];
    [|rewrite (Hcost Hc) in Hagg; discriminate].
  destruct (has_level0_dec "TIME" (Frame.columns DV)) as [Ht | Ht];
    [|rewrite (Htime Ht) in Hagg; discriminate].
  split; [exact Hc|]. split; [exact Ht|].
  unfold Loss.aggregate_losses in Hagg.
  rewrite (getitem_groupby "COST" DV Hc), (getitem_groupby "TIME" DV Ht) in Hagg.
  cbn [bind] in Hagg. injection Hagg as <-.
  unfold Frame.sum_axis1, Frame.max_axis1. cbn [Frame.values].
  unfold Frame.groupby_sum. cbn [Frame.values].
  rewrite ?length_map, ?length_combine, ?length_map. lia.
Qed.

(** ** Loss aggregation: the summary of one realization *)

Section AggregateSpec.

Import Frame Demand Loss.
Local Open Scope list_scope.

(** The sum of the group (dv, loc) of the grouped sample is the total
    of the location. *)
Lemma group_is_loc_total (dv loc : string) (cols : list label) (row : list Q) :
  Qsum (cells_where (fun c => label_eqb (project [0%nat; 4%nat] c) [dv; loc]) cols row)
  = loc_total dv loc cols row.
Proof.
  unfold loc_total. f_equal. apply cells_where_ext. intros c _.
  unfold project, level. cbn [map label_eqb]. rewrite andb_true_r. reflexivity.
Qed.

Lemma locations_of_dv_In (dv loc : string) (cols : list label) :
  In loc (locations_of_dv dv cols)
  <-> exists c, In c cols /\ level 0 c = dv /\ level 4 c = loc.
Proof.
  unfold locations_of_dv. rewrite nodup_In, in_map_iff. split.
  - intros [c [Hloc Hc]]. apply filter_In in Hc. destruct Hc as [Hc Hdv].
    apply String.eqb_eq in Hdv. eauto.
  - intros [c [Hc [Hdv Hloc]]]. exists c. split; [exact Hloc|].
    apply filter_In. split; [exact Hc | apply String.eqb_eq; exact Hdv].
Qed.

(** The columns of [DVG[dv]]: one for every location of [dv]. *)
Lemma groups_of_dv (dv : string) (cols : list label) (k : label) :
  let p := fun c : label => match c with k :: _ => String.eqb k dv | [] => false end in
  In k (filter p (group_keys [0%nat; 4%nat] cols))
  <-> exists loc, In loc (locations_of_dv dv cols) /\ k = [dv; loc].
Proof.
  intro p. rewrite filter_In, group_keys_In, in_map_iff. split.
  - intros [[c [<- Hc]] Hp]. unfold p, project in Hp. cbn [map] in Hp.
    apply String.eqb_eq in Hp. exists (level 4 c). split.
    + apply locations_of_dv_In. exists c. auto.
    + unfold project, level. cbn [map]. unfold level in Hp. rewrite Hp. reflexivity.
  - intros [loc [Hloc ->]]. apply locations_of_dv_In in Hloc.
    destruct Hloc as [c [Hc [Hdv Hl]]]. split.
    + exists c. split; [|exact Hc]. unfold project. cbn [map].
      unfold level in Hdv, Hl. rewrite Hdv, Hl. reflexivity.
    + unfold p. apply String.eqb_refl.
Qed.

(** The totals of the locations add up to the total of the decision
    variable. *)
Lemma Qsum_loc_totals (dv : string) (cols : list label) (row : list Q) :
  Qsum (map (fun loc => loc_total dv loc cols row) (locations_of_dv dv cols))
  == dv_total dv cols row.
Proof.
  set (locs := locations_of_dv dv cols).
  set (ks := map (fun loc => [dv; loc]) locs).
  assert (Hnd : NoDup ks).
  { unfold ks. apply Finite.Injective_map_NoDup.
    - intros a b H. injection H as H. exact H.
    - unfold locs, locations_of_dv. apply NoDup_nodup. }
  assert (E : map (fun loc => loc_total dv loc cols row) locs
              = map (fun k => Qsum (cells_where
                        (fun c => label_eqb (project [0%nat; 4%nat] c) k) cols row)) ks).
  { unfold ks. rewrite map_map. apply map_ext. intro loc.
    symmetry. apply group_is_loc_total. }
  rewrite E, (Qsum_groups (project [0%nat; 4%nat]) ks Hnd).
  unfold dv_total.
  assert (G : forall cols' (row' : list Q), (forall c, In c cols' -> In c cols) ->
            cells_where (fun c => mem (project [0%nat; 4%nat] c) ks) cols' row'
            = cells_where (fun c => String.eqb (level 0 c) dv) cols' row').
  { intros cols' row' Hsub. apply cells_where_ext. intros c Hc.
    destruct (String.eqb (level 0 c) dv) eqn:Edv.
    - apply String.eqb_eq in Edv. apply mem_In. unfold ks. apply in_map_iff.
      exists (level 4 c). split.
      + unfold project, level. cbn [map]. unfold level in Edv. rewrite Edv. reflexivity.
      + apply locations_of_dv_In. exists c. auto.
    - apply mem_false. unfold ks. rewrite in_map_iff. intros [loc [H _]].
      unfold project in H. cbn [map] in H. injection H as H _.
      unfold level in Edv. rewrite <- H, String.eqb_refl in Edv. discriminate. }
  rewrite G by auto. reflexivity.
Qed.

(** The greatest group sum of [DVG[dv]] is the greatest total of a
    location. *)
Lemma max_of_groups (dv : string) (cols : list label) (row : list Q) :
  let p := fun c : label => match c with k :: _ => String.eqb k dv | [] => false end in
  let keys := group_keys [0%nat; 4%nat] cols in
  (exists c, In c cols /\ level 0 c = dv) ->
  let M := Qmax_list
             (cells_where p keys
                (map (fun k => Qsum (cells_where
                        (fun c => label_eqb (project [0%nat; 4%nat] c) k) cols row))
                   keys)) in
  (forall loc, In loc (locations_of_dv dv cols) -> loc_total dv loc cols row <= M)
  /\ (exists loc, In loc (locations_of_dv dv cols) /\ M = loc_total dv loc cols row).
Proof.
  intros p keys [c [Hc Hdv]] M. unfold M. rewrite cells_where_map.
  set (f := fun k => Qsum (cells_where
                 (fun c => label_eqb (project [0%nat; 4%nat] c) k) cols row)).
  assert (Hne : map f (filter p keys) <> []).
  { assert (Hin : In [dv; level 4 c] (filter p keys)).
    { apply groups_of_dv. exists (level 4 c). split; [|reflexivity].
      apply locations_of_dv_In. exists c. auto. }
    intro E. apply (in_map f) in Hin. rewrite E in Hin. destruct Hin. }
  destruct (Qmax_list_is_max _ Hne) as [Hin Hall]. split.
  - intros loc Hloc. rewrite <- group_is_loc_total.
    rewrite Forall_forall in Hall. apply Hall.
    apply (in_map f (filter p keys) [dv; loc]).
    apply groups_of_dv. exists loc. split; [exact Hloc | reflexivity].
  - apply in_map_iff in Hin. destruct Hin as [k [Hk Hkin]].
    apply groups_of_dv in Hkin. destruct Hkin as [loc [Hloc ->]].
    exists loc. split; [exact Hloc|]. rewrite <- Hk. apply group_is_loc_total.
Qed.

(** C10.  For a consequence sample with no negative entry that has a
    COST column and a TIME column, [aggregate_losses] returns for every
    realization: a repair cost equal to the sum of the COST entries; a
    sequential repair time equal to the sum, over the locations, of the
    TIME total of the location, which is the sum of the TIME entries; a
    parallel repair time that is the greatest of the TIME totals of the
    locations (none is above it and one equals it); and the parallel
    time is at most the sequential time. *)
Theorem aggregate_losses_spec (DV : DataFrame Q)
    (Hnonneg : Forall (Forall (fun v => 0 <= v)) (values DV))
    (Hcost : exists c, In c (columns DV) /\ level 0 c = "COST")
    (Htime : exists c, In c (columns DV) /\ level 0 c = "TIME") :
  exists agg,
    aggregate_losses DV = Ok agg
    /\ Forall2
         (fun row a =>
            repair_cost a == dv_total "COST" (columns DV) row
            /\ repair_time_sequential a
               == Qsum (map (fun loc => loc_total "TIME" loc (columns DV) row)
                          (locations_of_dv "TIME" (columns DV)))
            /\ repair_time_sequential a == dv_total "TIME" (columns DV) row
            /\ (forall loc, In loc (locations_of_dv "TIME" (columns DV)) ->
                  loc_total "TIME" loc (columns DV) row <= repair_time_parallel a)
            /\ (exists loc, In loc (locations_of_dv "TIME" (columns DV))
                  /\ repair_time_parallel a = loc_total "TIME" loc (columns DV) row)
            /\ repair_time_parallel a <= repair_time_sequential a)
         (values DV) agg.
Proof.
  unfold aggregate_losses.
  rewrite (getitem_groupby "COST" DV Hcost), (getitem_groupby "TIME" DV Htime).
  cbn [bind]. eexists. split; [reflexivity|].
  unfold sum_axis1, max_axis1. cbn [values groupby_sum].
  rewrite !map_map. rewrite !combine_map_map, map_map. cbn [fst snd].
  induction Hnonneg as [|row rows Hrow _ IH]; simpl; constructor; [|exact IH].
  cbn [repair_cost repair_time_parallel repair_time_sequential].
  destruct (max_of_groups "TIME" (columns DV) row Htime) as [Hub Hmax].
  split; [|split; [|split; [|split; [|split]]]].
  - apply group_total.
  - rewrite Qsum_loc_totals. apply group_total.
  - apply group_total.
  - exact Hub.
  - exact Hmax.
  - apply Qmax_list_le_Qsum. apply cells_where_Forall.
    apply Forall_map. apply Forall_forall. intros k _.
    apply Qsum_nonneg. apply cells_where_Forall. exact Hrow.
Qed.

Lemma aggregate_losses_spec_witness :
  exists agg,
    aggregate_losses DV_two_floors = Ok agg
    /\ Forall2
         (fun row a =>
            repair_cost a == dv_total "COST" (columns DV_two_floors) row
            /\ repair_time_sequential a
               == Qsum (map (fun loc => loc_total "TIME" loc (columns DV_two_floors) row)
                          (locations_of_dv "TIME" (columns DV_two_floors)))
            /\ repair_time_sequential a == dv_total "TIME" (columns DV_two_floors) row
            /\ (forall loc, In loc (locations_of_dv "TIME" (columns DV_two_floors)) ->
                  loc_total "TIME" loc (columns DV_two_floors) row
                  <= repair_time_parallel a)
            /\ (exists loc, In loc (locations_of_dv "TIME" (columns DV_two_floors))
                  /\ repair_time_parallel a
                     = loc_total "TIME" loc (columns DV_two_floors) row)
            /\ repair_time_parallel a <= repair_time_sequential a)
         (values DV_two_floors) agg.
Proof.
  apply (aggregate_losses_spec DV_two_floors).
  - repeat constructor; discriminate.
  - exists ["COST"; "B1"; "B1"; "1"; "1"; "1"]. split; [simpl; tauto | reflexivity].
  - exists ["TIME"; "B1"; "B1"; "1"; "2"; "1"]. split; [simpl; tauto | reflexivity].
Defined.

(** The summary of the sample with two floors: in the first realization
    the floors take 2 and 7, so the parallel time is 7 and the
    sequential time 9; in the second they take 6 and 3. *)
Lemma aggregate_losses_two_floors :
  exists agg,
    aggregate_losses DV_two_floors = Ok agg
    /\ Forall2 (fun a e => repair_cost a == fst (fst e)
                           /\ repair_time_parallel a == snd (fst e)
                           /\ repair_time_sequential a == snd e)
         agg [(5, 7, 9); (0, 6, 9)].
Proof.
  eexists. split; [reflexivity|].
  repeat constructor; reflexivity.
Qed.

(** A consequence sample without negative entries and without repair
    times: [aggregate_losses] returns nothing, it raises KeyError. *)
Lemma aggregate_losses_without_time :
  Forall (Forall (fun v => 0 <= v)) (values DV_cost_only)
  /\ aggregate_losses DV_cost_only = Raise KeyError.
Proof.
  split; [repeat constructor; discriminate | reflexivity].
Qed.

End AggregateSpec.
